(** * cxConfig: configuration resolution pipeline

    A shallow embedding of the [Config] class of cxConfig (the current
    source file, and the cache path of the older [config.js]) together with
    the properties of its specification.

    Conventions.
    - A JavaScript string is modelled by its UTF-8 byte sequence (a Rocq
      [string]); bytes are [ascii].
    - The environment, the file system, the remote secret store and the
      per-instance path cache are finite maps. The path cache is an object
      whose members are strings: that is what the class makes and what it
      writes to the cache file. A cache file can also decrypt to JSON for
      another value; the model tells such a file apart and does not take
      the value (see [load_cache_file]).
    - An [async] method is a computation in a state-and-exception monad; an
      exception leaves the state as it was when it was raised.
    - Code that is not part of the repository (AES, scrypt, JSON, TOML, the
      template parser, [path.resolve]) is an interface, [Platform], with
      the laws the proofs use stated separately; the entropy source is a
      stream of draws in the process state. *)

From Stdlib Require Import ZArith NArith Ascii String List Bool Lia.
From stdpp Require Import base option list strings gmap fin_maps.

Open Scope string_scope.
Set Warnings "-register-all".

(** ** Bytes and hexadecimal text *)

Abbreviation bytes := (list ascii).

Definition bytes_of_string (s : string) : bytes := list_ascii_of_string s.
Definition string_of_bytes (b : bytes) : string := string_of_list_ascii b.

Definition hex_digit (n : N) : ascii :=
  match n with
  | 0 => "0" | 1 => "1" | 2 => "2" | 3 => "3" | 4 => "4" | 5 => "5"
  | 6 => "6" | 7 => "7" | 8 => "8" | 9 => "9" | 10 => "a" | 11 => "b"
  | 12 => "c" | 13 => "d" | 14 => "e" | _ => "f"
  end%N%char.

(** Value of a hexadecimal digit; both cases are accepted, as Node does. *)
Definition hex_val (c : ascii) : option N :=
  let n := N_of_ascii c in
  if ((48 <=? n) && (n <=? 57))%N then Some (n - 48)%N
  else if ((97 <=? n) && (n <=? 102))%N then Some (n - 87)%N
  else if ((65 <=? n) && (n <=? 70))%N then Some (n - 55)%N
  else None.

(** [buf.toString('hex')] *)
Fixpoint hex_encode (b : bytes) : list ascii :=
  match b with
  | [] => []
  | c :: r =>
      hex_digit (N_of_ascii c / 16) :: hex_digit (N_of_ascii c mod 16) :: hex_encode r
  end.

(** [Buffer.from(s, 'hex')]: decoding stops at the first pair that is not
    two hexadecimal digits; a trailing single character is dropped. *)
Fixpoint hex_decode (s : list ascii) : bytes :=
  match s with
  | h :: l :: r =>
      match hex_val h, hex_val l with
      | Some x, Some y => ascii_of_N (16 * x + y) :: hex_decode r
      | _, _ => []
      end
  | _ => []
  end.

Definition to_hex (b : bytes) : string := string_of_bytes (hex_encode b).
Definition from_hex (s : string) : bytes := hex_decode (bytes_of_string s).

(** ** AES-256-CBC with PKCS#7 padding, over an abstract block cipher *)

Definition xor_byte (a b : ascii) : ascii :=
  match a, b with
  | Ascii a0 a1 a2 a3 a4 a5 a6 a7, Ascii b0 b1 b2 b3 b4 b5 b6 b7 =>
      Ascii (xorb a0 b0) (xorb a1 b1) (xorb a2 b2) (xorb a3 b3)
            (xorb a4 b4) (xorb a5 b5) (xorb a6 b6) (xorb a7 b7)
  end.

Fixpoint xor_bytes (a b : bytes) : bytes :=
  match a, b with
  | x :: a', y :: b' => xor_byte x y :: xor_bytes a' b'
  | _, _ => []
  end.

Definition block_size : nat := 16.
Definition key_size : nat := 32.

(** The block cipher behind ['aes-256-cbc']: one 16-byte block under a
    32-byte key. *)
Class BlockCipher := {
  block_encrypt : bytes -> bytes -> bytes;
  block_decrypt : bytes -> bytes -> bytes
}.

Class BlockCipherLaws `{BlockCipher} := {
  block_encrypt_length : forall k b,
    length k = key_size -> length b = block_size ->
    length (block_encrypt k b) = block_size;
  block_decrypt_encrypt : forall k b,
    length k = key_size -> length b = block_size ->
    block_decrypt k (block_encrypt k b) = b
}.

(** PKCS#7: [n] bytes of value [n], with [1 <= n <= 16]. *)
Definition pad_len (len : nat) : nat := block_size - len mod block_size.

Definition pkcs7_pad (m : bytes) : bytes :=
  m ++ repeat (ascii_of_nat (pad_len (length m))) (pad_len (length m)).

(** OpenSSL's check in [EVP_DecryptFinal_ex]: the last byte [n] must be in
    [1..16] and the last [n] bytes must all be [n]. *)
Definition pkcs7_unpad (m : bytes) : option bytes :=
  match last m with
  | None => None
  | Some c =>
      let n := nat_of_ascii c in
      if ((1 <=? n) && (n <=? block_size) && (n <=? length m))%nat then
        if decide (drop (length m - n) m = repeat c n)
        then Some (take (length m - n) m) else None
      else None
  end.

Fixpoint chunks_fuel (fuel : nat) (m : bytes) : list bytes :=
  match fuel with
  | O => []
  | S f =>
      match m with
      | [] => []
      | _ => take block_size m :: chunks_fuel f (drop block_size m)
      end
  end.

(** The message cut into 16-byte blocks (the last one may be short). *)
Definition chunks (m : bytes) : list bytes := chunks_fuel (length m) m.

Section CBC.
Context `{BlockCipher}.

Fixpoint cbc_encrypt_blocks (k prev : bytes) (bs : list bytes) : bytes :=
  match bs with
  | [] => []
  | b :: r =>
      let c := block_encrypt k (xor_bytes b prev) in
      c ++ cbc_encrypt_blocks k c r
  end.

Fixpoint cbc_decrypt_blocks (k prev : bytes) (cs : list bytes) : bytes :=
  match cs with
  | [] => []
  | c :: r => xor_bytes (block_decrypt k c) prev ++ cbc_decrypt_blocks k c r
  end.

(** [cipher.update(m) ++ cipher.final()] *)
Definition cbc_encrypt (k iv m : bytes) : bytes :=
  cbc_encrypt_blocks k iv (chunks (pkcs7_pad m)).

(** [decipher.update(c) ++ decipher.final()]; [final] raises when the
    input is empty or not a whole number of blocks ("wrong final block
    length") and when the padding is wrong ("bad decrypt"). *)
Definition cbc_decrypt (k iv c : bytes) : option bytes :=
  if decide (c = []) then None
  else if decide (length c mod block_size = 0)
  then pkcs7_unpad (cbc_decrypt_blocks k iv (chunks c))
  else None.
End CBC.

(** ** Values, errors and events *)

(** The errors the class raises (all are plain [Error] objects in the
    source, told apart by their message) and those of the libraries. *)
Inductive error : Type :=
| OpCacheIVMissing (suggested : string) (* "env.OP_CACHE_IV ... is not set, here is a new IV" *)
| ServiceTokenMissing                   (* "env.OP_SERVICE_ACCOUNT_TOKEN ... is not set." *)
| ConfigPathMissing                     (* "env.OP_CONFIG_PATH ... is not set" *)
| ClientInitError                       (* package.json unusable, or createClient rejects *)
| SecretFetchError (path : string)      (* client.secrets.resolve rejects *)
| TemplateError                         (* Nunjucks refuses the template *)
| RenderError (cause : error)           (* Nunjucks hands on a filter's error, wrapped *)
| ParseError                            (* toml.parse throws *)
| JsonSyntaxError                       (* JSON.parse throws *)
| CryptoError                           (* createCipheriv / final throw *)
| TypeError                             (* a missing argument of a library call *)
| FileNotFound (name : string)          (* ENOENT *)
| NotLoadedYet.                         (* "Config has not been loaded yet" *)

Inductive result (A : Type) : Type :=
| Ok (a : A)
| Err (e : error).
Arguments Ok {A} a.
Arguments Err {A} e.

(** What a property read [this.#pathCache[path]] can give: an own string
    value, or a member inherited from [Object.prototype]. *)
Inductive jsval : Type :=
| VStr (s : string)
| VProto (k : string).

(** The structured value [toml.parse] returns. A TOML datetime is a [Date]
    object, named here by its ISO text. *)
Inductive tval : Type :=
| TStr (s : string)
| TInt (z : Z)
| TBool (b : bool)
| TDate (iso : string)
| TArr (l : list tval)
| TTab (l : list (string * tval)).

(** [JSON.parse(JSON.stringify(v))]: a structural copy in which a [Date]
    comes back as its ISO string. *)
Fixpoint json_clone (v : tval) : tval :=
  match v with
  | TDate iso => TStr iso
  | TArr l => TArr (map json_clone l)
  | TTab l => TTab (map (fun kv => (fst kv, json_clone (snd kv))) l)
  | _ => v
  end.

(** Template syntax tree, for the template surface the README documents:
    text, [{{ NAME }}], and an expression piped into the [op] filter. *)
Inductive expr : Type :=
| EVar (name : string)
| ELit (s : string).

Inductive node : Type :=
| NText (s : string)
| NOut (e : expr)
| NOp (e : expr).

Inductive log_msg : Type :=
| LogReadTook                                  (* "Config read took ..ms" *)
| LogCaching (file : string) (ttl : string)    (* "Caching config to .. for .. seconds" *)
| LogDump (config : string)                    (* "DUMP" *)
| LogFetching (path : string)                  (* "Fetching path from 1Password: .." *)
| LogFetchError (path : string) (e : error)    (* "Error fetching path from 1Password: .." *)
| LogOpError (arg : option string) (e : error) (* the same message, from the filter *)
| LogCacheUsed                                 (* "encrypted config cache found, using it" *)
| LogCacheUnreadable (e : error)               (* "ERROR Reading encrypted contents" *)
| LogNotFound (file : string)                  (* ".. not found" *)
| LogFound (file : string)                     (* ".. found, using it" *)
| LogReadError (e : error).                    (* "Error reading config:" *)

Inductive event : Type :=
| EvLog (m : log_msg)
| EvCreateClient (name version : string)       (* createClient: network *)
| EvResolve (path : string)                    (* client.secrets.resolve: network *)
| EvWriteFile (name content : string)          (* fs.promises.writeFile *)
| EvUnlinkLater (name : string) (ttl : option string) (* setTimeout(unlink, ttl * 1000) *)
| EvSourceSelection.                           (* ghost: one run of readWrapped's body *)

Definition is_network (ev : event) : bool :=
  match ev with
  | EvCreateClient _ _ | EvResolve _ => true
  | _ => false
  end.

Definition is_resolve (path : string) (ev : event) : bool :=
  match ev with
  | EvResolve p => bool_decide (p = path)
  | _ => false
  end.

(** ** External code *)

(** What [JSON.parse] makes of a text. The path cache of this model is an
    object whose members are strings, and that is the one value the model
    takes from a parse. *)
Inductive parsed : Type :=
| JsonRaises                             (* a [SyntaxError] *)
| JsonStrings (pc : gmap string string)  (* an object, every member a string *)
| JsonOther.                             (* any other value: [null], a number, a
                                            string, a boolean, an array, an
                                            object with some other member *)

Class Platform := {
  cipher :: BlockCipher;
  (** [crypto.scryptSync(token, salt, 32)] *)
  scrypt : string -> string -> bytes;
  (** [path.resolve(process.cwd(), name)] *)
  path_resolve : string -> string;
  (** [JSON.stringify] of a path cache, an object whose own properties are
      strings *)
  json_stringify : gmap string string -> string;
  (** [JSON.parse], applied to the string the bytes of the text decode to *)
  JSON_parse : string -> parsed;
  (** [toml.parse] *)
  toml_parse : string -> option tval;
  (** the Nunjucks parser; [None] is a syntax error *)
  compile : string -> option (list node);
  (** the escaping Nunjucks applies to every [{{ }}] output (autoescape) *)
  autoescape : string -> string;
  (** [String(Object.prototype[k])] *)
  proto_text : string -> string
}.

(** The path cache in a text, when the text is one. *)
Definition json_parse `{Platform} (text : string) : option (gmap string string) :=
  match JSON_parse text with
  | JsonStrings pc => Some pc
  | _ => None
  end.

Class PlatformLaws `{Platform} := {
  cipher_laws :: BlockCipherLaws;
  scrypt_length : forall token salt, length (scrypt token salt) = key_size
}.

(** ** Process and instance state *)

Record World : Type := mkWorld {
  env : gmap string string;            (* process.env *)
  files : gmap string string;          (* resolved file name -> contents *)
  remote : gmap string string;         (* the secret store *)
  package_json : option (string * string); (* name and version, "" if absent *)
  auth_ok : bool;                      (* the token is accepted *)
  entropy : nat -> bytes;              (* the bytes of the i-th randomBytes(16) *)
  draws : nat;                         (* draws made so far *)
  trace : list event;                  (* most recent first *)
  heap : list tval;                    (* objects handed to callers *)
  staticCache : option nat             (* Config.#staticCache *)
}.

Record Instance : Type := mkInstance {
  pathCache : gmap string string;      (* #pathCache *)
  client : bool;                       (* #client has been created *)
  loadingPromise : option (result jsval) (* #loadingPromise and its outcome *)
}.

Record State : Type := mkState { world : World; this : Instance }.

Definition new_Config : Instance :=
  {| pathCache := ∅; client := false; loadingPromise := None |}.

(** ** The monad of the methods *)

Definition M (A : Type) : Type := State -> result A * State.

#[global] Instance M_ret : MRet M := fun A a s => (Ok a, s).
#[global] Instance M_bind : MBind M := fun A B f m s =>
  match m s with
  | (Ok a, s') => f a s'
  | (Err e, s') => (Err e, s')
  end.

Definition throw {A} (e : error) : M A := fun s => (Err e, s).

(** [try { m } catch (e) { h e }] *)
Definition try_catch {A} (m : M A) (h : error -> M A) : M A := fun s =>
  match m s with
  | (Ok a, s') => (Ok a, s')
  | (Err e, s') => h e s'
  end.

Definition get_world : M World := fun s => (Ok (world s), s).
Definition get_this : M Instance := fun s => (Ok (this s), s).
Definition set_world (f : World -> World) : M unit :=
  fun s => (Ok tt, {| world := f (world s); this := this s |}).
Definition set_this (f : Instance -> Instance) : M unit :=
  fun s => (Ok tt, {| world := world s; this := f (this s) |}).

Definition with_trace (f : list event -> list event) (w : World) : World :=
  mkWorld (env w) (files w) (remote w) (package_json w) (auth_ok w)
          (entropy w) (draws w) (f (trace w)) (heap w) (staticCache w).
Definition with_files (f : gmap string string -> gmap string string) (w : World) : World :=
  mkWorld (env w) (f (files w)) (remote w) (package_json w) (auth_ok w)
          (entropy w) (draws w) (trace w) (heap w) (staticCache w).
Definition with_draws (n : nat) (w : World) : World :=
  mkWorld (env w) (files w) (remote w) (package_json w) (auth_ok w)
          (entropy w) n (trace w) (heap w) (staticCache w).
Definition with_heap (h : list tval) (w : World) : World :=
  mkWorld (env w) (files w) (remote w) (package_json w) (auth_ok w)
          (entropy w) (draws w) (trace w) h (staticCache w).
Definition with_staticCache (c : option nat) (w : World) : World :=
  mkWorld (env w) (files w) (remote w) (package_json w) (auth_ok w)
          (entropy w) (draws w) (trace w) (heap w) c.

Definition with_pathCache (pc : gmap string string) (i : Instance) : Instance :=
  mkInstance pc (client i) (loadingPromise i).
Definition with_client (c : bool) (i : Instance) : Instance :=
  mkInstance (pathCache i) c (loadingPromise i).
Definition with_loadingPromise (p : option (result jsval)) (i : Instance) : Instance :=
  mkInstance (pathCache i) (client i) p.

Definition emit (ev : event) : M unit := set_world (with_trace (cons ev)).
Definition log (m : log_msg) : M unit := emit (EvLog m).

(** [process.env.NAME] *)
Definition getenv (name : string) : M (option string) :=
  w ← get_world; mret (env w !! name).

(** JavaScript truthiness of a string that may be [undefined]. *)
Definition truthy (o : option string) : bool :=
  match o with
  | Some s => negb (String.eqb s "")
  | None => false
  end.

(** [o || d] *)
Definition or_default (o : option string) (d : string) : string :=
  if truthy o then default d o else d.

(** [crypto.randomBytes(16).toString('hex')] *)
Definition randomBytes_hex : M string := fun s =>
  let w := world s in
  (Ok (to_hex (entropy w (draws w))),
   {| world := with_draws (S (draws w)) w; this := this s |}).

(** [fs.promises.readFile(name, 'utf8')] and [fs.readFileSync(name)] *)
Definition readFile (name : string) : M string :=
  w ← get_world;
  match files w !! name with
  | Some c => mret c
  | None => throw (FileNotFound name)
  end.

(** [fs.promises.writeFile(name, content, 'utf8')]; the source does not
    await it, the write is taken to complete. *)
Definition writeFile (name content : string) : M unit :=
  emit (EvWriteFile name content);;
  set_world (with_files (insert name content)).

(** The own property names of [Object.prototype], which a lookup in an
    ordinary object such as [#pathCache] finds by inheritance. *)
Definition object_prototype_keys : list string :=
  ["constructor"; "__proto__"; "hasOwnProperty"; "isPrototypeOf";
   "propertyIsEnumerable"; "toLocaleString"; "toString"; "valueOf";
   "__defineGetter__"; "__defineSetter__"; "__lookupGetter__";
   "__lookupSetter__"].

(** [this.#pathCache[path]] *)
Definition pathCache_get (pc : gmap string string) (path : string) : option jsval :=
  match pc !! path with
  | Some s => Some (VStr s)
  | None =>
      if bool_decide (path ∈ object_prototype_keys) then Some (VProto path) else None
  end.

Definition truthy_val (o : option jsval) : bool :=
  match o with
  | Some (VStr s) => truthy (Some s)
  | Some (VProto _) => true
  | None => false
  end.

(** A property key: [undefined] is the key ["undefined"]. *)
Definition property_key (o : option string) : string := default "undefined" o.

(** The part of [s] before the first [":"], and what follows it. *)
Fixpoint until_colon (s : string) : string * option string :=
  match s with
  | EmptyString => (EmptyString, None)
  | String c r =>
      if Ascii.eqb c ":"%char then (EmptyString, Some r)
      else let '(a, b) := until_colon r in (String c a, b)
  end.

(** [const [first, second] = s.split(':')] *)
Definition split_colon (s : string) : string * option string :=
  let '(first, rest) := until_colon s in
  (first, (fun r => fst (until_colon r)) <$> rest).

Definition lift {A} (r : result A) : M A := fun s => (r, s).

(** The outcome of a computation, as the promise that runs it holds it. *)
Definition capture {A} (m : M A) : M (result A) := fun s =>
  let '(r, s') := m s in (Ok r, s').

(** [new] object on the heap *)
Definition alloc (v : tval) : M nat := fun s =>
  let w := world s in
  (Ok (length (heap w)),
   {| world := with_heap (heap w ++ [v]) w; this := this s |}).

(** [encrypt] and [decrypt] use nothing of the instance: the key is an
    argument and the initialization vector comes from the environment. *)
Section Cipher.
Context {block_cipher : BlockCipher}.

(** [encrypt (text, key)] *)
Definition encrypt (e : gmap string string) (text : string) (key : bytes)
  : result string :=
  match e !! "OP_CACHE_IV" with
  | None => Err TypeError
  | Some ivhex =>
      let IV := from_hex ivhex in
      if negb (length key =? key_size)%nat then Err CryptoError
      else if negb (length IV =? block_size)%nat then Err CryptoError
      else Ok (to_hex (cbc_encrypt key IV (bytes_of_string text)))
  end.

(** [decrypt (encryptedData, key)]. [createDecipheriv] checks the key and
    the vector; [decipher.update(encryptedData, 'hex', 'utf8')] refuses a
    text of odd length before it decodes it. The plaintext stands for the
    string Node decodes from it. *)
Definition decrypt (e : gmap string string) (encryptedData : string) (key : bytes)
  : result string :=
  match e !! "OP_CACHE_IV" with
  | None => Err TypeError
  | Some ivhex =>
      let IV := from_hex ivhex in
      if negb (length key =? key_size)%nat then Err CryptoError
      else if negb (length IV =? block_size)%nat then Err CryptoError
      else if Nat.odd (String.length encryptedData) then Err TypeError
      else match cbc_decrypt key IV (from_hex encryptedData) with
           | Some m => Ok (string_of_bytes m)
           | None => Err CryptoError
           end
  end.
End Cipher.

Section Config.
Context {platform : Platform}.

(** [path.resolve(process.cwd(), opts.defaultCacheFile || './config.cache')] *)
Definition cacheFileName (opts : gmap string string) : string :=
  path_resolve (or_default (opts !! "defaultCacheFile") "./config.cache").

(** [path.resolve(process.cwd(), opts.defaultConfigFile || './config.toml')] *)
Definition standardConfigFilename (opts : gmap string string) : string :=
  path_resolve (or_default (opts !! "defaultConfigFile") "./config.toml").

(** [crypto.scryptSync(token, salt, 32)]; a missing argument is a
    [TypeError]. *)
Definition scryptSync (token salt : option string) : M bytes :=
  match token, salt with
  | Some t, Some s => mret (scrypt t s)
  | _, _ => throw TypeError
  end.

(** [#getOnePassClient ()] *)
Definition getOnePassClient : M unit :=
  i ← get_this;
  if client i then mret tt
  else
    w ← get_world;
    match package_json w with
    | None => throw ClientInitError
    | Some (name, version) =>
        if negb (truthy (Some name)) || negb (truthy (Some version))
        then throw ClientInitError
        else
          emit (EvCreateClient name ("v" +:+ version));;
          if auth_ok w then set_this (with_client true)
          else throw ClientInitError
    end.

(** [read1Password (path)] *)
Definition read1Password (path : string) : M jsval :=
  i ← get_this;
  let cached := pathCache_get (pathCache i) path in
  if truthy_val cached then mret (default (VStr "") cached)
  else
    try_catch
      (log (LogFetching path);;
       getOnePassClient;;
       emit (EvResolve path);;
       w ← get_world;
       match remote w !! path with
       | None => throw (SecretFetchError path)
       | Some result =>
           set_this (fun i => with_pathCache (<[path := result]> (pathCache i)) i);;
           mret (VStr result)
       end)
      (fun e => log (LogFetchError path e);; throw e).

(** The body of [readWrapped] between the two [try] blocks: the attempt
    to rebuild the path cache from the cache file. The source assigns
    what [JSON.parse] returns without looking at it. A plaintext that is
    JSON for something else than an object of strings is logged as used,
    as the source does; the value itself has no place in [Instance], which
    keeps the path cache it had, so from there on the model follows the
    class only for the plaintexts that are path caches. *)
Definition load_cache_file (cacheFileName : string) : M unit :=
  try_catch
    (encryptedFileContents ← readFile cacheFileName;
     let '(encryptedData, salt) :=
       if truthy (Some encryptedFileContents)
       then let '(d, s) := split_colon encryptedFileContents in (Some d, s)
       else (None, None) in
     token ← getenv "OP_SERVICE_ACCOUNT_TOKEN";
     key ← scryptSync token salt;
     if truthy encryptedData then
       try_catch
         (w ← get_world;
          text ← lift (decrypt (env w) (default "" encryptedData) key);
          match JSON_parse text with
          | JsonRaises => throw JsonSyntaxError
          | JsonStrings pc => set_this (with_pathCache pc);; log LogCacheUsed
          | JsonOther => log LogCacheUsed
          end)
         (fun e => log (LogCacheUnreadable e))
     else mret tt)
    (fun e => log (LogNotFound cacheFileName)).

(** [readWrapped (opts)] *)
Definition readWrapped (opts : gmap string string) : M jsval :=
  i ← get_this;
  match loadingPromise i with
  | Some r => lift r
  | None =>
      emit EvSourceSelection;;
      config_path ← getenv "OP_CONFIG_PATH";
      if negb (truthy config_path) then throw ConfigPathMissing
      else
        load_cache_file (cacheFileName opts);;
        local ← try_catch
                   (config ← readFile (standardConfigFilename opts);
                    log (LogFound (standardConfigFilename opts));;
                    mret (Some config))
                   (fun e => log (LogNotFound (standardConfigFilename opts));;
                             mret None);
        match local with
        | Some config => mret (VStr config)
        | None => read1Password (property_key config_path)
        end
  end.

(** The filter registered under the name [op]. Its parameter [path] is
    used in the error message only. *)
Definition op_filter (path : option string) : M jsval :=
  try_catch
    (config_path ← getenv "OP_CONFIG_PATH";
     read1Password (property_key config_path))
    (fun e => log (LogOpError path e);; throw e).

Definition eval_expr (bindings : gmap string string) (e : expr) : option string :=
  match e with
  | EVar name => bindings !! name
  | ELit s => Some s
  end.

Definition show_val (v : jsval) : string :=
  match v with
  | VStr s => s
  | VProto k => proto_text k
  end.

(** Rendering, node after node; an undefined variable prints nothing. *)
Fixpoint render (ns : list node) (bindings : gmap string string) : M string :=
  match ns with
  | [] => mret ""
  | NText s :: r => rest ← render r bindings; mret (s +:+ rest)
  | NOut e :: r =>
      rest ← render r bindings;
      mret (autoescape (default "" (eval_expr bindings e)) +:+ rest)
  | NOp e :: r =>
      v ← op_filter (eval_expr bindings e);
      rest ← render r bindings;
      mret (autoescape (show_val v) +:+ rest)
  end.

(** [processTemplate (template, vars)] *)
Definition processTemplate (template : jsval) (vars : gmap string string) : M string :=
  match template with
  | VStr src =>
      match compile src with
      | None => throw TemplateError
      | Some ns => try_catch (render ns vars) (fun e => throw (RenderError e))
      end
  | VProto _ => throw TemplateError
  end.

(** The cache write of [read]. *)
Definition write_cache (opts : gmap string string) (ttl : string) : M unit :=
  log (LogCaching (cacheFileName opts) ttl);;
  salt ← randomBytes_hex;
  token ← getenv "OP_SERVICE_ACCOUNT_TOKEN";
  key ← scryptSync token (Some salt);
  i ← get_this;
  w ← get_world;
  encrypted ← lift (encrypt (env w) (json_stringify (pathCache i)) key);
  writeFile (cacheFileName opts) (encrypted +:+ ":" +:+ salt);;
  emit (EvUnlinkLater (cacheFileName opts) (Some ttl)).

(** [read (vars, opts)] up to the point where it waits for
    [#loadingPromise]: the two checks, and the start of [readWrapped] when
    no promise exists yet. [readWrapped] receives [vars] as its [opts].
    The promise is represented by the outcome of the run of [readWrapped]
    it stands for, and that run is placed where the promise is created:
    what [readWrapped] reads, it reads in the state of that moment. *)
Definition read_enter (vars opts : gmap string string) : M unit :=
  iv ← getenv "OP_CACHE_IV";
  if negb (truthy iv)
  then (suggested ← randomBytes_hex; throw (OpCacheIVMissing suggested))
  else
    token ← getenv "OP_SERVICE_ACCOUNT_TOKEN";
    if negb (truthy token) then throw ServiceTokenMissing
    else
      i ← get_this;
      match loadingPromise i with
      | Some _ => mret tt
      | None =>
          outcome ← capture (readWrapped vars);
          set_this (with_loadingPromise (Some outcome))
      end.

(** [read (vars, opts)] from the point where [#loadingPromise] settles. *)
Definition read_resume (vars opts : gmap string string) : M nat :=
  i ← get_this;
  result ← match loadingPromise i with
            | Some r => lift r
            | None => throw TypeError
            end;
  log LogReadTook;;
  w ← get_world;
  config ← processTemplate result (vars ∪ env w);
  ttl ← getenv "OP_CONFIG_CACHE";
  (if truthy ttl then write_cache opts (default "" ttl) else mret tt);;
  dump ← getenv "CX_CONFIG_DUMP";
  (if truthy dump then log (LogDump config) else mret tt);;
  match toml_parse config with
  | None => throw ParseError
  | Some v => alloc v
  end.

(** [async read (vars, opts)] of an instance *)
Definition read (vars opts : gmap string string) : M nat :=
  read_enter vars opts;; read_resume vars opts.
End Config.

(** ** The static interface and the process-wide memo *)

Section Static.
Context {platform : Platform}.

(** [JSON.parse(JSON.stringify(Config.#staticCache))], a new object. *)
Definition clone_static (l : nat) (w : World) : result nat * World :=
  let v := json_clone (default (TTab []) (heap w !! l)) in
  (Ok (length (heap w)), with_heap (heap w ++ [v]) w).

(** [static async read (vars, opts)] *)
Definition static_read (vars opts : gmap string string) (w : World)
  : result nat * World :=
  match staticCache w with
  | Some l => clone_static l w
  | None =>
      let '(r, s) := read vars opts {| world := w; this := new_Config |} in
      match r with
      | Ok config => (Ok config, with_staticCache (Some config) (world s))
      | Err e => (Err e, world s)
      end
  end.

(** [static readLoaded ()] *)
Definition readLoaded (w : World) : result nat * World :=
  match staticCache w with
  | Some l => clone_static l w
  | None => (Err NotLoadedYet, w)
  end.

(** [static deaSyncRead (vars, opts)]: the caller is blocked until
    [Config.read] settles. *)
Definition deaSyncRead (vars opts : gmap string string) (w : World)
  : result nat * World :=
  match staticCache w with
  | Some l => clone_static l w
  | None =>
      let '(r, w') := static_read vars opts w in
      match r with
      | Ok data => (Ok data, w')
      | Err e => (Err e, with_trace (cons (EvLog (LogReadError e))) w')
      end
  end.

(** A caller changes an object it was given. *)
Definition mutate (l : nat) (v : tval) (w : World) : World :=
  with_heap (<[l := v]> (heap w)) w.

(** *** Calls in flight

    JavaScript runs each call up to its first suspension before the
    caller can make the next one. A call of the static [read] that finds
    no memo is then waiting on the [read] of its own new instance; a call
    of an instance's [read] is waiting on [#loadingPromise]. The rest of a
    call runs when what it waits for has settled. *)
Inductive call : Type :=
| Settled (r : result nat)
| Waiting (i : Instance).

Definition static_read_enter (vars opts : gmap string string) (w : World)
  : call * World :=
  match staticCache w with
  | Some l => let '(r, w') := clone_static l w in (Settled r, w')
  | None =>
      let '(r, s) := read_enter vars opts {| world := w; this := new_Config |} in
      match r with
      | Ok _ => (Waiting (this s), world s)
      | Err e => (Settled (Err e), world s)
      end
  end.

Definition static_read_settle (vars opts : gmap string string) (c : call) (w : World)
  : result nat * World :=
  match c with
  | Settled r => (r, w)
  | Waiting i =>
      let '(r, s) := read_resume vars opts {| world := w; this := i |} in
      match r with
      | Ok config => (Ok config, with_staticCache (Some config) (world s))
      | Err e => (Err e, world s)
      end
  end.

(** [n] calls of the static [read], all made before any of them settles. *)
Fixpoint static_enter_all (n : nat) (vars opts : gmap string string) (w : World)
  : list call * World :=
  match n with
  | O => ([], w)
  | S k =>
      let '(c, w1) := static_read_enter vars opts w in
      let '(cs, w2) := static_enter_all k vars opts w1 in
      (c :: cs, w2)
  end.

Fixpoint static_settle_all (vars opts : gmap string string) (cs : list call) (w : World)
  : list (result nat) * World :=
  match cs with
  | [] => ([], w)
  | c :: r =>
      let '(x, w1) := static_read_settle vars opts c w in
      let '(xs, w2) := static_settle_all vars opts r w1 in
      (x :: xs, w2)
  end.

Definition static_read_concurrently (n : nat) (vars opts : gmap string string) (w : World)
  : list (result nat) * World :=
  let '(cs, w1) := static_enter_all n vars opts w in
  static_settle_all vars opts cs w1.

(** [n] calls of one instance's [read], all made before
    [#loadingPromise] settles. *)
Fixpoint enter_all (n : nat) (vars opts : gmap string string) : M (list (result unit)) :=
  match n with
  | O => mret []
  | S k =>
      e ← capture (read_enter vars opts);
      es ← enter_all k vars opts;
      mret (e :: es)
  end.

Fixpoint resume_all (vars opts : gmap string string) (es : list (result unit))
  : M (list (result nat)) :=
  match es with
  | [] => mret []
  | Ok _ :: r =>
      x ← capture (read_resume vars opts);
      xs ← resume_all vars opts r;
      mret (x :: xs)
  | Err e :: r =>
      xs ← resume_all vars opts r;
      mret (Err e :: xs)
  end.

Definition read_concurrently (n : nat) (vars opts : gmap string string)
  : M (list (result nat)) :=
  es ← enter_all n vars opts;
  resume_all vars opts es.
End Static.

(** ** The cache path of the older [config.js] *)

Module Legacy.
Section Legacy.
Context {platform : Platform}.

(** [readWrapped (opts)] of [config.js]. The field [#cache] is only ever
  assigned, so the instance keeps no trace of it. *)
Definition readWrapped (opts : gmap string string) : M string :=
i ← get_this;
match loadingPromise i with
| Some (Ok (VStr r)) => mret r
| Some (Ok (VProto _)) => throw TypeError
| Some (Err e) => throw e
| None =>
    emit EvSourceSelection;;
    let standardConfigFilename := standardConfigFilename opts in
    let cacheFileName := cacheFileName opts in
    fresh ← randomBytes_hex;
    local ← try_catch
               (config ← readFile standardConfigFilename;
                log (LogFound standardConfigFilename);;
                mret (Some config))
               (fun e => log (LogNotFound standardConfigFilename);; mret None);
    match local with
    | Some config => mret config
    | None =>
        config_path ← getenv "OP_CONFIG_PATH";
        if negb (truthy config_path) then throw ConfigPathMissing
        else
          '(encryptedData, salt) ←
            try_catch
              (encryptedFileContents ← readFile cacheFileName;
               if truthy (Some encryptedFileContents)
               then let '(d, s) := split_colon encryptedFileContents in
                    mret (Some d, s)
               else mret (None, Some fresh))
              (fun e => log (LogNotFound cacheFileName);; mret (None, Some fresh));
          token ← getenv "OP_SERVICE_ACCOUNT_TOKEN";
          key ← scryptSync token salt;
          ttl ← getenv "OP_CONFIG_CACHE";
          emit (EvUnlinkLater cacheFileName ttl);;
          cached ←
            (if truthy encryptedData then
               try_catch
                 (w ← get_world;
                  text ← lift (decrypt (env w) (default "" encryptedData) key);
                  log LogCacheUsed;;
                  mret (Some text))
                 (fun e => log (LogCacheUnreadable e);; mret None)
             else mret None);
          match cached with
          | Some text => mret text
          | None =>
              w ← get_world;
              match package_json w with
              | None => throw ClientInitError
              | Some (name, version) =>
                  emit (EvCreateClient name ("v" +:+ version));;
                  if negb (auth_ok w) then throw ClientInitError
                  else
                    log (LogFetching (property_key config_path));;
                    emit (EvResolve (property_key config_path));;
                    match remote w !! property_key config_path with
                    | None => throw (SecretFetchError (property_key config_path))
                    | Some configRaw =>
                        (if truthy ttl then
                           log (LogCaching cacheFileName (default "" ttl));;
                           encrypted ← lift (encrypt (env w) configRaw key);
                           writeFile cacheFileName
                             (encrypted +:+ ":" +:+ default "" salt)
                         else mret tt);;
                        mret configRaw
                    end
              end
          end
    end
end.
End Legacy.
End Legacy.

(** ** A small executable platform

    Concrete stand-ins for the libraries, used to run the methods on
    concrete inputs. JSON is read by its whole grammar; the template and
    TOML readers cover the surface the README documents; the cipher and the
    key derivation are simple functions with the right shapes. *)

Module Sample.

Definition space : ascii := " "%char.
Definition newline : ascii := ascii_of_nat 10.
Definition dquote : ascii := ascii_of_nat 34.
Definition squote : ascii := ascii_of_nat 39.
Definition backslash : ascii := ascii_of_nat 92.

(** *** Cipher and key derivation *)

Definition mask (k : bytes) : bytes := xor_bytes (take 16 k) (drop 16 k).

Definition xor_cipher : BlockCipher :=
  {| block_encrypt k b := xor_bytes b (mask k);
     block_decrypt k b := xor_bytes b (mask k) |}.

Definition kdf (token salt : string) : bytes :=
  take key_size (bytes_of_string (token +:+ "/" +:+ salt) ++ repeat zero key_size)%list.

(** *** JSON *)

Inductive json : Type :=
| JNull
| JBool (b : bool)
| JNumber (text : string)
| JString (s : string)
| JArray (l : list json)
| JObject (l : list (string * json)).

(** [JSON.stringify] quotes a string with the two-character escapes and
    [\u00xx] for the other control characters. *)
Definition json_escape_char (c : ascii) : string :=
  let n := nat_of_ascii c in
  if Ascii.eqb c dquote then String backslash (String dquote "")
  else if Ascii.eqb c backslash then String backslash (String backslash "")
  else if (n =? 8)%nat then "\b"
  else if (n =? 9)%nat then "\t"
  else if (n =? 10)%nat then "\n"
  else if (n =? 12)%nat then "\f"
  else if (n =? 13)%nat then "\r"
  else if (n <? 32)%nat
       then "\u00" +:+ String (hex_digit (N.of_nat n / 16))
                         (String (hex_digit (N.of_nat n mod 16)) "")
  else String c "".

Fixpoint json_escape (s : string) : string :=
  match s with
  | EmptyString => EmptyString
  | String c r => json_escape_char c +:+ json_escape r
  end.

Definition json_quote (s : string) : string :=
  String dquote (json_escape s +:+ String dquote EmptyString).

Fixpoint json_members (l : list (string * string)) : string :=
  match l with
  | [] => ""
  | [(k, v)] => json_quote k +:+ ":" +:+ json_quote v
  | (k, v) :: r => json_quote k +:+ ":" +:+ json_quote v +:+ "," +:+ json_members r
  end.

Definition stringify (m : gmap string string) : string :=
  "{" +:+ json_members (map_to_list m) +:+ "}".

Definition is_ws (c : ascii) : bool :=
  let n := nat_of_ascii c in
  ((n =? 32) || (n =? 9) || (n =? 10) || (n =? 13))%nat.

Fixpoint skip_ws (s : string) : string :=
  match s with
  | String c r => if is_ws c then skip_ws r else s
  | EmptyString => s
  end.

Fixpoint strip_prefix (p s : string) : option string :=
  match p, s with
  | EmptyString, _ => Some s
  | String a p', String b s' => if Ascii.eqb a b then strip_prefix p' s' else None
  | _, _ => None
  end.

(** Four hexadecimal digits. *)
Definition hex4 (s : string) : option (N * string) :=
  match s with
  | String a (String b (String c (String d r))) =>
      match hex_val a, hex_val b, hex_val c, hex_val d with
      | Some x, Some y, Some z, Some t => Some (4096 * x + 256 * y + 16 * z + t, r)%N
      | _, _, _, _ => None
      end
  | _ => None
  end.

(** The UTF-8 bytes of a code point. *)
Definition utf8 (cp : N) : string :=
  let byte n := ascii_of_N n in
  (if cp <? 128 then String (byte cp) ""
   else if cp <? 2048 then String (byte (192 + cp / 64)) (String (byte (128 + cp mod 64)) "")
   else if cp <? 65536 then
     String (byte (224 + cp / 4096))
            (String (byte (128 + (cp / 64) mod 64)) (String (byte (128 + cp mod 64)) ""))
   else
     String (byte (240 + cp / 262144))
            (String (byte (128 + (cp / 4096) mod 64))
                    (String (byte (128 + (cp / 64) mod 64))
                            (String (byte (128 + cp mod 64)) ""))))%N.

Definition replacement_character : N := 65533.

(** What a [\u] escape stands for, its four digits [cp] read: a high
    surrogate takes the low surrogate that follows it, and a surrogate
    on its own is written out as U+FFFD. *)
Definition unicode_escape (cp : N) (r : string) : string * string :=
  (if (55296 <=? cp) && (cp <=? 56319) then
     match r with
     | String b (String u r') =>
         if Ascii.eqb b backslash && Ascii.eqb u "u" then
           match hex4 r' with
           | Some (lo, r2) =>
               if (56320 <=? lo) && (lo <=? 57343)
               then (utf8 (65536 + (cp - 55296) * 1024 + (lo - 56320)), r2)
               else (utf8 replacement_character, r)
           | None => (utf8 replacement_character, r)
           end
         else (utf8 replacement_character, r)
     | _ => (utf8 replacement_character, r)
     end
   else if (56320 <=? cp) && (cp <=? 57343) then (utf8 replacement_character, r)
   else (utf8 cp, r))%N.

Definition unescape (c : ascii) : option ascii :=
  if Ascii.eqb c dquote || Ascii.eqb c backslash || Ascii.eqb c "/" then Some c
  else if Ascii.eqb c "b" then Some (ascii_of_nat 8)
  else if Ascii.eqb c "f" then Some (ascii_of_nat 12)
  else if Ascii.eqb c "n" then Some (ascii_of_nat 10)
  else if Ascii.eqb c "r" then Some (ascii_of_nat 13)
  else if Ascii.eqb c "t" then Some (ascii_of_nat 9)
  else None.

(** The text of a string literal whose opening quote has been read, and
    what follows its closing quote. *)
Fixpoint json_string (fuel : nat) (s : string) : option (string * string) :=
  match fuel with
  | O => None
  | S f =>
      match s with
      | EmptyString => None
      | String c r =>
          if Ascii.eqb c dquote then Some (EmptyString, r)
          else if Ascii.eqb c backslash then
            match r with
            | EmptyString => None
            | String d r' =>
                if Ascii.eqb d "u" then
                  match hex4 r' with
                  | Some (cp, r2) =>
                      let '(text, r3) := unicode_escape cp r2 in
                      match json_string f r3 with
                      | Some (a, rest) => Some (text +:+ a, rest)
                      | None => None
                      end
                  | None => None
                  end
                else
                  match unescape d, json_string f r' with
                  | Some x, Some (a, rest) => Some (String x a, rest)
                  | _, _ => None
                  end
            end
          else if (nat_of_ascii c <? 32)%nat then None
          else
            match json_string f r with
            | Some (a, rest) => Some (String c a, rest)
            | None => None
            end
      end
  end.

Definition is_digit (c : ascii) : bool :=
  let n := nat_of_ascii c in ((48 <=? n) && (n <=? 57))%nat.

(** The digits [s] begins with, and the rest. *)
Fixpoint digits (s : string) : string * string :=
  match s with
  | String c r =>
      if is_digit c then let '(d, rest) := digits r in (String c d, rest)
      else (EmptyString, s)
  | EmptyString => (EmptyString, s)
  end.

Definition json_fraction (s : string) : option (string * string) :=
  match s with
  | String c r =>
      if Ascii.eqb c "." then
        match digits r with
        | (EmptyString, _) => None
        | (d, rest) => Some (String c d, rest)
        end
      else Some (EmptyString, s)
  | EmptyString => Some (EmptyString, s)
  end.

Definition json_exponent (s : string) : option (string * string) :=
  match s with
  | String c r =>
      if Ascii.eqb c "e" || Ascii.eqb c "E" then
        let '(sign, r1) :=
          match r with
          | String g r' =>
              if Ascii.eqb g "+" || Ascii.eqb g "-" then (String g "", r') else ("", r)
          | EmptyString => ("", r)
          end in
        match digits r1 with
        | (EmptyString, _) => None
        | (d, rest) => Some (String c (sign +:+ d), rest)
        end
      else Some (EmptyString, s)
  | EmptyString => Some (EmptyString, s)
  end.

Definition json_number (s : string) : option (string * string) :=
  let '(sign, s1) :=
    match s with
    | String c r => if Ascii.eqb c "-" then ("-", r) else ("", s)
    | EmptyString => ("", s)
    end in
  match digits s1 with
  | (EmptyString, _) => None
  | (String z more as int, s2) =>
      if Ascii.eqb z "0" && negb (String.eqb more "") then None
      else
        match json_fraction s2 with
        | Some (frac, s3) =>
            match json_exponent s3 with
            | Some (e, s4) => Some (sign +:+ int +:+ frac +:+ e, s4)
            | None => None
            end
        | None => None
        end
  end.

(** A value at the head of [s], and what follows it. *)
Fixpoint json_value (fuel : nat) (s : string) : option (json * string) :=
  match fuel with
  | O => None
  | S f =>
      match skip_ws s with
      | EmptyString => None
      | String c r as t =>
          if Ascii.eqb c dquote then
            match json_string (String.length r) r with
            | Some (a, rest) => Some (JString a, rest)
            | None => None
            end
          else if Ascii.eqb c "[" then
            match skip_ws r with
            | String c' r' =>
                if Ascii.eqb c' "]" then Some (JArray [], r')
                else
                  (fix elements (n : nat) (s : string) (acc : list json)
                     : option (json * string) :=
                     match n with
                     | O => None
                     | S n' =>
                         match json_value f s with
                         | Some (v, rest) =>
                             match skip_ws rest with
                             | String d r2 =>
                                 if Ascii.eqb d "," then elements n' r2 (v :: acc)
                                 else if Ascii.eqb d "]"
                                      then Some (JArray (rev (v :: acc)), r2)
                                      else None
                             | EmptyString => None
                             end
                         | None => None
                         end
                     end) (String.length r) r []
            | EmptyString => None
            end
          else if Ascii.eqb c "{" then
            match skip_ws r with
            | String c' r' =>
                if Ascii.eqb c' "}" then Some (JObject [], r')
                else
                  (fix members (n : nat) (s : string) (acc : list (string * json))
                     : option (json * string) :=
                     match n with
                     | O => None
                     | S n' =>
                         match skip_ws s with
                         | String q r1 =>
                             if negb (Ascii.eqb q dquote) then None
                             else
                               match json_string (String.length r1) r1 with
                               | Some (k, r2) =>
                                   match skip_ws r2 with
                                   | String colon r3 =>
                                       if negb (Ascii.eqb colon ":") then None
                                       else
                                         match json_value f r3 with
                                         | Some (v, rest) =>
                                             match skip_ws rest with
                                             | String d r4 =>
                                                 if Ascii.eqb d ","
                                                 then members n' r4 ((k, v) :: acc)
                                                 else if Ascii.eqb d "}"
                                                      then Some (JObject (rev ((k, v) :: acc)), r4)
                                                      else None
                                             | EmptyString => None
                                             end
                                         | None => None
                                         end
                                   | EmptyString => None
                                   end
                               | None => None
                               end
                         | EmptyString => None
                         end
                     end) (String.length r) r []
            | EmptyString => None
            end
          else
            match strip_prefix "null" t, strip_prefix "true" t, strip_prefix "false" t with
            | Some rest, _, _ => Some (JNull, rest)
            | _, Some rest, _ => Some (JBool true, rest)
            | _, _, Some rest => Some (JBool false, rest)
            | _, _, _ =>
                match json_number t with
                | Some (n, rest) => Some (JNumber n, rest)
                | None => None
                end
            end
      end
  end.

(** The value of a text that is one JSON value and nothing more. *)
Definition parse (s : string) : option json :=
  match json_value (S (String.length s)) s with
  | Some (v, rest) => if String.eqb (skip_ws rest) "" then Some v else None
  | None => None
  end.

Fixpoint string_members (l : list (string * json)) : option (list (string * string)) :=
  match l with
  | [] => Some []
  | (k, JString v) :: r => (fun kvs => (k, v) :: kvs) <$> string_members r
  | _ => None
  end.

(** [JSON.parse]; of two members of the same name the later one stays. *)
Definition parse_json (s : string) : parsed :=
  match parse s with
  | None => JsonRaises
  | Some (JObject l) =>
      match string_members l with
      | Some kvs => JsonStrings (list_to_map (reverse kvs))
      | None => JsonOther
      end
  | Some _ => JsonOther
  end.

(** *** Text helpers *)

Fixpoint trim_left (s : string) : string :=
  match s with
  | String c r => if Ascii.eqb c space then trim_left r else s
  | EmptyString => s
  end.

Definition string_rev (s : string) : string :=
  string_of_bytes (rev (bytes_of_string s)).

Definition trim (s : string) : string :=
  string_rev (trim_left (string_rev (trim_left s))).

(** [s] cut at the first occurrence of the two characters [a b]. *)
Fixpoint split_on2 (a b : ascii) (s : string) : string * option string :=
  match s with
  | String x (String y r as t) =>
      if Ascii.eqb x a && Ascii.eqb y b then (EmptyString, Some r)
      else let '(p, q) := split_on2 a b t in (String x p, q)
  | _ => (s, None)
  end.

Fixpoint split_on (a : ascii) (s : string) : string * option string :=
  match s with
  | String x r =>
      if Ascii.eqb x a then (EmptyString, Some r)
      else let '(p, q) := split_on a r in (String x p, q)
  | EmptyString => (EmptyString, None)
  end.

Definition is_name_char (c : ascii) : bool :=
  let n := nat_of_ascii c in
  ((48 <=? n) && (n <=? 57) || (65 <=? n) && (n <=? 90)
   || (97 <=? n) && (n <=? 122) || (n =? 95))%nat.

Fixpoint all_chars (p : ascii -> bool) (s : string) : bool :=
  match s with
  | EmptyString => true
  | String c r => p c && all_chars p r
  end.

(** *** Templates: text, [{{ NAME }}], [{{ 'literal' }}], and either of
    the two piped into [op] *)

Definition parse_expr (s : string) : option expr :=
  match s with
  | EmptyString => None
  | String q r =>
      if Ascii.eqb q squote || Ascii.eqb q dquote then
        match split_on q r with
        | (lit, Some EmptyString) => Some (ELit lit)
        | _ => None
        end
      else if all_chars is_name_char s then Some (EVar s) else None
  end.

Definition parse_output (inner : string) : option node :=
  match split_on "|"%char inner with
  | (e, None) => NOut <$> parse_expr (trim e)
  | (e, Some f) =>
      if String.eqb (trim f) "op" then NOp <$> parse_expr (trim e) else None
  end.

Definition text_node (s : string) : list node :=
  if String.eqb s "" then [] else [NText s].

Fixpoint compile_fuel (fuel : nat) (s : string) : option (list node) :=
  match fuel with
  | O => None
  | S f =>
      match split_on2 "{" "{" s with
      | (text, None) => Some (text_node text)
      | (text, Some r) =>
          match split_on2 "}" "}" r with
          | (_, None) => None
          | (inner, Some r') =>
              match parse_output inner, compile_fuel f r' with
              | Some n, Some ns => Some (text_node text ++ n :: ns)%list
              | _, _ => None
              end
          end
      end
  end.

Definition compile_template (s : string) : option (list node) :=
  compile_fuel (S (String.length s)) s.

Fixpoint escape (s : string) : string :=
  match s with
  | EmptyString => EmptyString
  | String c r =>
      (if Ascii.eqb c "&" then "&amp;"
       else if Ascii.eqb c dquote then "&quot;"
       else if Ascii.eqb c squote then "&#39;"
       else if Ascii.eqb c "<" then "&lt;"
       else if Ascii.eqb c ">" then "&gt;"
       else String c EmptyString) +:+ escape r
  end.

(** *** TOML: [[section]] headers and [key = "string"] lines *)

Fixpoint lines_fuel (fuel : nat) (s : string) : list string :=
  match fuel with
  | O => []
  | S f =>
      match split_on newline s with
      | (l, None) => [l]
      | (l, Some r) => l :: lines_fuel f r
      end
  end.

Definition lines (s : string) : list string := lines_fuel (S (String.length s)) s.

Inductive toml_line : Type :=
| LBlank
| LSection (name : string)
| LPair (key value : string).

Definition parse_value (s : string) : option string :=
  match s with
  | String q r =>
      if Ascii.eqb q dquote then
        match split_on dquote r with
        | (v, Some EmptyString) => Some v
        | _ => None
        end
      else None
  | EmptyString => None
  end.

Definition parse_line (l : string) : option toml_line :=
  match trim l with
  | EmptyString => Some LBlank
  | String c r =>
      if Ascii.eqb c "#" then Some LBlank
      else if Ascii.eqb c "[" then
        match split_on "]"%char r with
        | (name, Some EmptyString) =>
            if all_chars is_name_char name && negb (String.eqb name "")
            then Some (LSection name) else None
        | _ => None
        end
      else
        match split_on "="%char (String c r) with
        | (k, Some v) =>
            if all_chars is_name_char (trim k) && negb (String.eqb (trim k) "")
            then LPair (trim k) <$> parse_value (trim v) else None
        | _ => None
        end
  end.

(** Keys are collected under the section in force; [sections] holds the
    closed sections, most recent first. *)
Fixpoint toml_tables (ls : list toml_line) (top : list (string * tval))
         (cur : option (string * list (string * tval)))
         (sections : list (string * tval)) : tval :=
  match ls with
  | [] =>
      let closed := match cur with
                    | Some (n, kvs) => (n, TTab (rev kvs)) :: sections
                    | None => sections
                    end in
      TTab (rev top ++ rev closed)%list
  | LBlank :: r => toml_tables r top cur sections
  | LSection n :: r =>
      let closed := match cur with
                    | Some (n', kvs) => (n', TTab (rev kvs)) :: sections
                    | None => sections
                    end in
      toml_tables r top (Some (n, [])) closed
  | LPair k v :: r =>
      match cur with
      | Some (n, kvs) => toml_tables r top (Some (n, (k, TStr v) :: kvs)) sections
      | None => toml_tables r ((k, TStr v) :: top) None sections
      end
  end.

Fixpoint parse_lines (ls : list string) : option (list toml_line) :=
  match ls with
  | [] => Some []
  | l :: r =>
      match parse_line l, parse_lines r with
      | Some x, Some xs => Some (x :: xs)
      | _, _ => None
      end
  end.

Definition parse_toml (s : string) : option tval :=
  (fun ls => toml_tables ls [] None []) <$> parse_lines (lines s).

(** [path.resolve] with the working directory [/app]. *)
Definition resolve (name : string) : string :=
  match name with
  | String "." (String "/" r) => "/app/" +:+ r
  | String "/" _ => name
  | _ => "/app/" +:+ name
  end.

Definition platform : Platform :=
  {| cipher := xor_cipher;
     scrypt := kdf;
     path_resolve := resolve;
     json_stringify := stringify;
     JSON_parse := parse_json;
     toml_parse := parse_toml;
     compile := compile_template;
     autoescape := escape;
     proto_text k := "[object " +:+ k +:+ "]" |}.

(** A process with nothing in it. *)
Definition empty_world : World :=
  {| env := ∅; files := ∅; remote := ∅; package_json := Some ("app", "1.0.0");
     auth_ok := true; entropy := fun n => repeat (ascii_of_nat (65 + n)) 16;
     draws := 0; trace := []; heap := []; staticCache := None |}.
End Sample.

(** ** The block cipher of ['aes-256-cbc']

    AES with a 256-bit key as FIPS-197 defines it: the state is four columns
    of four bytes, filled column by column; fourteen rounds. *)

Module AES.
(** Multiplication by [x] in GF(2^8) modulo [x^8 + x^4 + x^3 + x + 1];
    the first bit of an [ascii] is the lowest. *)
Definition xtime (a : ascii) : ascii :=
  let '(Ascii a0 a1 a2 a3 a4 a5 a6 a7) := a in
  Ascii a7 (xorb a0 a7) a1 (xorb a2 a7) (xorb a3 a7) a4 a5 a6.

Definition pick (b : bool) (a : ascii) : ascii := if b then a else Ascii.zero.

Definition gmul (a b : ascii) : ascii :=
  let '(Ascii b0 b1 b2 b3 b4 b5 b6 b7) := b in
  let x1 := xtime a in
  let x2 := xtime x1 in
  let x3 := xtime x2 in
  let x4 := xtime x3 in
  let x5 := xtime x4 in
  let x6 := xtime x5 in
  let x7 := xtime x6 in
  fold_right xor_byte Ascii.zero
    [pick b0 a; pick b1 x1; pick b2 x2; pick b3 x3;
     pick b4 x4; pick b5 x5; pick b6 x6; pick b7 x7].

(** The inverse in the field, zero for zero: [a^254]. *)
Definition ginv (a : ascii) : ascii :=
  let a2 := gmul a a in
  let a4 := gmul a2 a2 in
  let a8 := gmul a4 a4 in
  let a16 := gmul a8 a8 in
  let a32 := gmul a16 a16 in
  let a64 := gmul a32 a32 in
  let a128 := gmul a64 a64 in
  fold_right gmul a2 [a4; a8; a16; a32; a64; a128].

Definition rotl (a : ascii) : ascii :=
  let '(Ascii a0 a1 a2 a3 a4 a5 a6 a7) := a in Ascii a7 a0 a1 a2 a3 a4 a5 a6.

(** The S-box: the inverse followed by the affine map. *)
Definition sub_byte (a : ascii) : ascii :=
  let b := ginv a in
  let r1 := rotl b in
  let r2 := rotl r1 in
  let r3 := rotl r2 in
  let r4 := rotl r3 in
  fold_right xor_byte (ascii_of_nat 99) [b; r1; r2; r3; r4].

Definition inv_sub_byte (a : ascii) : ascii :=
  let r1 := rotl a in
  let r3 := rotl (rotl r1) in
  let r6 := rotl (rotl (rotl r3)) in
  ginv (fold_right xor_byte (ascii_of_nat 5) [r1; r3; r6]).

Definition sbox : list ascii :=
  Eval vm_compute in map (fun n => sub_byte (ascii_of_nat n)) (seq 0 256).

Definition inv_sbox : list ascii :=
  Eval vm_compute in map (fun n => inv_sub_byte (ascii_of_nat n)) (seq 0 256).

Definition SubBytes (s : bytes) : bytes :=
  map (fun a => nth (nat_of_ascii a) sbox Ascii.zero) s.

Definition InvSubBytes (s : bytes) : bytes :=
  map (fun a => nth (nat_of_ascii a) inv_sbox Ascii.zero) s.

(** Byte [r + 4c] of the state is row [r] of column [c]. Row [r] is
    rotated by [r] columns. *)
Definition ShiftRows (s : bytes) : bytes :=
  map (fun i => nth (i mod 4 + 4 * ((i / 4 + i mod 4) mod 4)) s Ascii.zero) (seq 0 16).

Definition InvShiftRows (s : bytes) : bytes :=
  map (fun i => nth (i mod 4 + 4 * ((i / 4 + 4 - i mod 4) mod 4)) s Ascii.zero) (seq 0 16).

Definition x02 : ascii := ascii_of_nat 2.
Definition x03 : ascii := ascii_of_nat 3.
Definition x09 : ascii := ascii_of_nat 9.
Definition x0b : ascii := ascii_of_nat 11.
Definition x0d : ascii := ascii_of_nat 13.
Definition x0e : ascii := ascii_of_nat 14.

Definition xor4 (a b c d : ascii) : ascii :=
  xor_byte (xor_byte a b) (xor_byte c d).

Fixpoint MixColumns (s : bytes) : bytes :=
  match s with
  | a0 :: a1 :: a2 :: a3 :: r =>
      xor4 (gmul x02 a0) (gmul x03 a1) a2 a3 ::
      xor4 a0 (gmul x02 a1) (gmul x03 a2) a3 ::
      xor4 a0 a1 (gmul x02 a2) (gmul x03 a3) ::
      xor4 (gmul x03 a0) a1 a2 (gmul x02 a3) :: MixColumns r
  | _ => []
  end.

Fixpoint InvMixColumns (s : bytes) : bytes :=
  match s with
  | a0 :: a1 :: a2 :: a3 :: r =>
      xor4 (gmul x0e a0) (gmul x0b a1) (gmul x0d a2) (gmul x09 a3) ::
      xor4 (gmul x09 a0) (gmul x0e a1) (gmul x0b a2) (gmul x0d a3) ::
      xor4 (gmul x0d a0) (gmul x09 a1) (gmul x0e a2) (gmul x0b a3) ::
      xor4 (gmul x0b a0) (gmul x0d a1) (gmul x09 a2) (gmul x0e a3) :: InvMixColumns r
  | _ => []
  end.

(** *** The key schedule, [Nk = 8] and [Nr = 14] *)

Definition RotWord (w : bytes) : bytes :=
  match w with
  | a :: r => r ++ [a]
  | [] => []
  end.

Definition Rcon (j : nat) : bytes :=
  [Nat.iter (j - 1) xtime Ascii.one; Ascii.zero; Ascii.zero; Ascii.zero].

(** Word [i] from the words before it. *)
Definition next_word (i : nat) (w : list bytes) : bytes :=
  let temp := nth (i - 1) w [] in
  let temp :=
    if (i mod 8 =? 0)%nat then xor_bytes (SubBytes (RotWord temp)) (Rcon (i / 8))
    else if (i mod 8 =? 4)%nat then SubBytes temp
    else temp in
  xor_bytes (nth (i - 8) w []) temp.

Fixpoint expand (n i : nat) (w : list bytes) : list bytes :=
  match n with
  | O => w
  | S k => expand k (S i) (w ++ [next_word i w])
  end.

Fixpoint words (key : bytes) : list bytes :=
  match key with
  | a :: b :: c :: d :: r => [a; b; c; d] :: words r
  | _ => []
  end.

Definition KeyExpansion (key : bytes) : list bytes :=
  expand 52 8 (words key).

Definition round_key (w : list bytes) (r : nat) : bytes :=
  concat (take 4 (drop (4 * r) w)).

Definition AddRoundKey (w : list bytes) (r : nat) (s : bytes) : bytes :=
  xor_bytes s (round_key w r).

(** *** The cipher and its inverse *)

Fixpoint rounds (w : list bytes) (n r : nat) (s : bytes) : bytes :=
  match n with
  | O => s
  | S k => rounds w k (S r) (AddRoundKey w r (MixColumns (ShiftRows (SubBytes s))))
  end.

Definition Cipher (key block : bytes) : bytes :=
  let w := KeyExpansion key in
  let s := rounds w 13 1 (AddRoundKey w 0 block) in
  AddRoundKey w 14 (ShiftRows (SubBytes s)).

Fixpoint inv_rounds (w : list bytes) (r : nat) (s : bytes) : bytes :=
  match r with
  | O => s
  | S k => inv_rounds w k (InvMixColumns (AddRoundKey w r (InvSubBytes (InvShiftRows s))))
  end.

Definition InvCipher (key block : bytes) : bytes :=
  let w := KeyExpansion key in
  let s := inv_rounds w 13 (AddRoundKey w 14 block) in
  AddRoundKey w 0 (InvSubBytes (InvShiftRows s)).

#[export] Instance aes256 : BlockCipher :=
  {| block_encrypt := Cipher; block_decrypt := InvCipher |}.
End AES.

(** ** Worked scenarios on the sample platform *)

Module Scenario.
Import Sample.

Definition iv : string := "d090bf1bf66a39f6589fe25a377927f3".
Definition token : string := "ops_token".
Definition notes : string := "op://my-vault/my-item.toml/notes".
Definition password : string := "op://my-vault/my-app/password".

Definition base_env : gmap string string :=
  list_to_map [("OP_CACHE_IV", iv); ("OP_SERVICE_ACCOUNT_TOKEN", token);
               ("DB_HOST", "db.internal")].

Definition with_env (e : gmap string string) (w : World) : World :=
  mkWorld e (files w) (remote w) (package_json w) (auth_ok w)
          (entropy w) (draws w) (trace w) (heap w) (staticCache w).
Definition with_remote (r : gmap string string) (w : World) : World :=
  mkWorld (env w) (files w) r (package_json w) (auth_ok w)
          (entropy w) (draws w) (trace w) (heap w) (staticCache w).

Definition base_world : World := with_env base_env empty_world.

Definition network (w : World) : list event :=
  filter (fun ev => is_network ev = true) (trace w).

(** A document that interpolates a variable (the end-to-end scenario of
    the specification). *)
Definition quoted (s : string) : string :=
  String dquote (s +:+ String dquote EmptyString).

Definition line_break : string := String newline EmptyString.

Definition plain_document : string :=
  "[db]" +:+ line_break +:+ "host = " +:+ quoted "{{ DB_HOST }}".

(** A document that looks a secret up (the README example). *)
Definition secret_document : string :=
  "[database]" +:+ line_break
  +:+ "password = " +:+ quoted "{{ 'op://my-vault/my-app/password' | op }}".

(** The document in the store, the secret next to it. *)
Definition store : gmap string string :=
  list_to_map [(notes, secret_document); (password, "hunter2")].

(** The document is a local [config.toml]; the store holds one line
    under the configured path and the secret under its own. *)
Definition local_secret_world : World :=
  with_remote (list_to_map [(notes, "from-the-config-path"); (password, "hunter2")])
    (with_files (insert "/app/config.toml" secret_document)
       (with_env (<["OP_CONFIG_PATH" := notes]> base_env) empty_world)).

(** A local document that looks the same path up twice; the configured
    path is that path, and its value in the store is empty. *)
Definition twice_document : string :=
  "a = " +:+ quoted "{{ 'op://my-vault/my-app/password' | op }}" +:+ line_break
  +:+ "b = " +:+ quoted "{{ 'op://my-vault/my-app/password' | op }}".

Definition empty_secret_world : World :=
  with_remote (list_to_map [(password, "")])
    (with_files (insert "/app/config.toml" twice_document)
       (with_env (<["OP_CONFIG_PATH" := password]> base_env) empty_world)).

(** The document comes from the store. *)
Definition remote_world : World :=
  with_remote (list_to_map [(notes, plain_document)])
    (with_env (<["OP_CONFIG_PATH" := notes]> base_env) empty_world).

(** The document in the store is empty. *)
Definition empty_document_world : World :=
  with_remote (list_to_map [(notes, "")])
    (with_env (<["OP_CONFIG_PATH" := notes]> base_env) empty_world).

(** An override file, and no config path. *)
Definition local_only_world : World :=
  with_files (insert "/app/config.toml" plain_document) base_world.

(** An override file, and the config path set. *)
Definition local_world : World :=
  with_env (<["OP_CONFIG_PATH" := notes]> (env local_only_world)) local_only_world.

(** An override file and the config path, but no initialization vector;
    and the same with the vector but without the token. *)
Definition no_iv_world : World :=
  with_env (delete "OP_CACHE_IV" (env local_world)) local_world.

Definition no_token_world : World :=
  with_env (delete "OP_SERVICE_ACCOUNT_TOKEN" (env local_world)) local_world.

(** The config path is set but the store has nothing under it. *)
Definition unreachable_document_world : World :=
  with_env (<["OP_CONFIG_PATH" := notes]> base_env) empty_world.

(** Caching switched on. *)
Definition caching (w : World) : World :=
  with_env (<["OP_CONFIG_CACHE" := "300"]> (env w)) w.

(** Garbage, a colon and a salt in the cache file. *)
Definition garbage_cache_world : World :=
  with_files (insert "/app/config.cache" "zz:00ff") (caching remote_world).

(** The cache file the first load in [caching remote_world] writes, with
    one more digit at the end of the ciphertext. *)
Definition odd_length_cache_world : World :=
  with_files <["/app/config.cache" :=
               "f0f397058c1b49cf7bac943b421553dcc6cbfd02b8207bb555ddf9576d7b3ca8f8f99856da254083529f973f020848889e98831ae1003f934adedf70515c68f5b885e656dc556bcc1bcbd47b5a5763fe0:41414141414141414141414141414141"]>
    (caching remote_world).

(** A cache file that holds the text [null], encrypted under the key of
    the salt ["00ff"]. *)
Definition null_cache_world : World :=
  with_files <["/app/config.cache" := "d195a0288e095e9f3abcde665d132bff:00ff"]>
    (caching remote_world).

(** A cache file that holds the empty path cache, written under the salt
    [4141...], with the salt after the colon replaced by another one. *)
Definition swapped_salt_world : World :=
  with_files <["/app/config.cache" :=
               "f0acf67bb83a68ac0c8fec54397729fd:42424242424242424242424242424242"]>
    (caching remote_world).

(** The keys [crypto.scryptSync] derives from the token ["ops_token"] and
    the salts ["41414141414141414141414141414141"] and
    ["00000000000000000000000000000211"], with the parameters Node uses
    when none are given ([N = 16384], [r = 8], [p = 1]). *)
Definition key_of_the_write : bytes :=
  from_hex "61c9544329ee2feb47ced0cc3db5d50736415504b7770b5ef01ff2c4e3a69f9c".
Definition key_of_the_other_salt : bytes :=
  from_hex "bbcd09f35a2064d4f5166ce4db4461d3e201bd06a8d1b75cfe718b1f36f2fa45".

(** Caching is on and the document in the store renders to text that is
    not TOML (a bare word as a value). *)
Definition unquoted_document_world : World :=
  with_remote (list_to_map [(notes, "host = {{ DB_HOST }}")]) (caching remote_world).

(** A later process on the same machine: same environment, files and
    store; nothing loaded yet. *)
Definition restart (w : World) : World :=
  mkWorld (env w) (files w) (remote w) (package_json w) (auth_ok w)
          (entropy w) (draws w) [] [] None.
End Scenario.

(** ** What the methods compute

    The methods are related below to functions of the state they start in;
    the trace they leave is described by the kind of events they add. *)

(** [t'] is [t] with events in front, each of which satisfies [P]. *)
Inductive extends (P : event -> Prop) (t : list event) : list event -> Prop :=
| extends_same : extends P t t
| extends_cons ev t' : P ev -> extends P t t' -> extends P t (ev :: t').

Definition is_log (ev : event) : Prop :=
  match ev with EvLog _ => True | _ => False end.

Definition not_network (ev : event) : Prop := is_network ev = false.

(** Events of a lookup of [path] in the store. *)
Definition is_lookup_event (path : string) (ev : event) : Prop :=
  match ev with
  | EvLog _ | EvCreateClient _ _ => True
  | EvResolve p => p = path
  | _ => False
  end.

(** Log lines and the events of the cache write. *)
Definition is_housekeeping (ev : event) : Prop :=
  match ev with
  | EvLog _ | EvWriteFile _ _ | EvUnlinkLater _ _ => True
  | _ => False
  end.

(** Events of anything but a source selection. *)
Definition not_selection (ev : event) : Prop := ev <> EvSourceSelection.

(** What nothing ever writes: the environment, the store, the package
    description, the entropy source. *)
Record fixed (w w' : World) : Prop := {
  fixed_env : env w' = env w;
  fixed_remote : remote w' = remote w;
  fixed_package_json : package_json w' = package_json w;
  fixed_auth_ok : auth_ok w' = auth_ok w;
  fixed_entropy : entropy w' = entropy w
}.

(** The initialization vector of the environment decodes to one block. *)
Definition valid_iv (e : gmap string string) : Prop :=
  exists ivhex, e !! "OP_CACHE_IV" = Some ivhex /\ length (from_hex ivhex) = block_size.

Definition entered (s : State) : State :=
  {| world := with_trace (cons EvSourceSelection) (world s); this := this s |}.

Definition logged (m : log_msg) (s : State) : State :=
  {| world := with_trace (cons (EvLog m)) (world s); this := this s |}.

Definition count_events (p : event -> bool) (w : World) : nat :=
  length (filter (fun ev => p ev = true) (trace w)).

Definition is_source_selection (ev : event) : bool :=
  match ev with
  | EvSourceSelection => true
  | _ => false
  end.

Definition is_op (n : node) : bool :=
  match n with
  | NOp _ => true
  | _ => false
  end.

Section Outcomes.
Context {platform : Platform}.

(** *** The secret resolver *)

Definition fetch_outcome (w : World) (path : string) : result jsval :=
  match remote w !! path with
  | None => Err (SecretFetchError path)
  | Some r => Ok (VStr r)
  end.

Definition client_outcome (i : Instance) (w : World) : result unit :=
  if client i then Ok tt
  else match package_json w with
       | None => Err ClientInitError
       | Some (name, version) =>
           if negb (truthy (Some name)) || negb (truthy (Some version))
           then Err ClientInitError
           else if auth_ok w then Ok tt else Err ClientInitError
       end.

(** The answer of [read1Password]: the memoized value if it is truthy,
    otherwise what the store answers, provided a client exists or can be
    made. *)
Definition resolve_outcome (i : Instance) (w : World) (path : string) : result jsval :=
  let cached := pathCache_get (pathCache i) path in
  if truthy_val cached then Ok (default (VStr "") cached)
  else match client_outcome i w with
       | Ok _ => fetch_outcome w path
       | Err e => Err e
       end.

(** The instance [read1Password] leaves. *)
Definition resolve_instance (i : Instance) (w : World) (path : string) : Instance :=
  if truthy_val (pathCache_get (pathCache i) path) then i
  else match client_outcome i w with
       | Err _ => i
       | Ok _ =>
           match remote w !! path with
           | None => with_client true i
           | Some r => with_pathCache (<[path := r]> (pathCache i)) (with_client true i)
           end
       end.

(** Whether [read1Password] goes to the store. *)
Definition resolve_fetches (i : Instance) (w : World) (path : string) : bool :=
  if truthy_val (pathCache_get (pathCache i) path) then false
  else match client_outcome i w with
       | Ok _ => true
       | Err _ => false
       end.

(** The events of making the client, most recent first. *)
Definition client_events (i : Instance) (w : World) : list event :=
  if client i then []
  else match package_json w with
       | None => []
       | Some (name, version) =>
           if negb (truthy (Some name)) || negb (truthy (Some version)) then []
           else [EvCreateClient name ("v" +:+ version)]
       end.

(** The events of [read1Password], most recent first. *)
Definition resolve_events (i : Instance) (w : World) (path : string) : list event :=
  if truthy_val (pathCache_get (pathCache i) path) then []
  else
    match client_outcome i w with
    | Err e => EvLog (LogFetchError path e) :: client_events i w
                 ++ [EvLog (LogFetching path)]
    | Ok _ =>
        match remote w !! path with
        | Some _ => EvResolve path :: client_events i w ++ [EvLog (LogFetching path)]
        | None =>
            EvLog (LogFetchError path (SecretFetchError path))
              :: EvResolve path :: client_events i w ++ [EvLog (LogFetching path)]
        end
    end%list.

Definition resolve_state (path : string) (s : State) : State :=
  {| world := with_trace (app (resolve_events (this s) (world s) path)) (world s);
     this := resolve_instance (this s) (world s) path |}.

(** *** The [op] filter and rendering *)

Definition config_path (w : World) : string :=
  property_key (env w !! "OP_CONFIG_PATH").

Definition op_outcome (i : Instance) (w : World) : result jsval :=
  resolve_outcome i w (config_path w).

(** Rendering when every use of [op] is answered by [o]. *)
Fixpoint render_pure (o : result jsval) (ns : list node)
         (bindings : gmap string string) : result string :=
  match ns with
  | [] => Ok ""
  | NText t :: r =>
      match render_pure o r bindings with
      | Ok rest => Ok (t +:+ rest)
      | Err e => Err e
      end
  | NOut e :: r =>
      match render_pure o r bindings with
      | Ok rest => Ok (autoescape (default "" (eval_expr bindings e)) +:+ rest)
      | Err e => Err e
      end
  | NOp e :: r =>
      match o with
      | Ok v =>
          match render_pure o r bindings with
          | Ok rest => Ok (autoescape (show_val v) +:+ rest)
          | Err e => Err e
          end
      | Err e => Err e
      end
  end.

(** The state the filter leaves. *)
Definition op_state (arg : option string) (s : State) : State :=
  let s1 := resolve_state (config_path (world s)) s in
  match op_outcome (this s) (world s) with
  | Ok _ => s1
  | Err e => logged (LogOpError arg e) s1
  end.

(** The state rendering leaves: it stops at the first use of [op] that
    fails. *)
Fixpoint render_state (ns : list node) (bindings : gmap string string)
         (s : State) : State :=
  match ns with
  | [] => s
  | NOp e :: r =>
      match op_outcome (this s) (world s) with
      | Ok _ => render_state r bindings (op_state (eval_expr bindings e) s)
      | Err _ => op_state (eval_expr bindings e) s
      end
  | _ :: r => render_state r bindings s
  end.

Definition template_state (template : jsval) (bindings : gmap string string)
           (s : State) : State :=
  match template with
  | VStr src =>
      match compile src with
      | Some ns => render_state ns bindings s
      | None => s
      end
  | VProto _ => s
  end.

(** What [processTemplate] returns. *)
Definition template_outcome (o : result jsval) (template : jsval)
           (bindings : gmap string string) : result string :=
  match template with
  | VStr src =>
      match compile src with
      | None => Err TemplateError
      | Some ns =>
          match render_pure o ns bindings with
          | Ok t => Ok t
          | Err e => Err (RenderError e)
          end
      end
  | VProto _ => Err TemplateError
  end.

(** Whether rendering [template] reaches a use of [op]. *)
Definition template_uses_op (template : jsval) : bool :=
  match template with
  | VStr src =>
      match compile src with
      | Some ns => existsb is_op ns
      | None => false
      end
  | VProto _ => false
  end.

(** *** The cache file *)

Inductive cache_read : Type :=
| CacheLoaded (pc : gmap string string) (* decrypted and parsed *)
| CacheUnreadable (e : error)           (* decrypt or JSON.parse raised *)
| CacheNotFound                         (* the outer [catch] *)
| CacheSkipped                          (* nothing before the colon *)
| CacheForeign.                         (* parsed, and not a path cache *)

(** What the attempt on the cache file comes to. *)
Definition read_cache_file (w : World) (name : string) : cache_read :=
  match files w !! name with
  | None => CacheNotFound
  | Some contents =>
      if truthy (Some contents) then
        let '(d, salt) := split_colon contents in
        match env w !! "OP_SERVICE_ACCOUNT_TOKEN", salt with
        | Some token, Some salt =>
            if truthy (Some d) then
              match decrypt (env w) d (scrypt token salt) with
              | Ok text =>
                  match JSON_parse text with
                  | JsonStrings pc => CacheLoaded pc
                  | JsonRaises => CacheUnreadable JsonSyntaxError
                  | JsonOther => CacheForeign
                  end
              | Err e => CacheUnreadable e
              end
            else CacheSkipped
        | _, _ => CacheNotFound
        end
      else CacheNotFound
  end.

Definition after_cache_read (name : string) (c : cache_read) (s : State) : State :=
  match c with
  | CacheLoaded pc =>
      logged LogCacheUsed {| world := world s; this := with_pathCache pc (this s) |}
  | CacheUnreadable e => logged (LogCacheUnreadable e) s
  | CacheNotFound => logged (LogNotFound name) s
  | CacheSkipped => s
  | CacheForeign => logged LogCacheUsed s
  end.

Definition cache_instance (c : cache_read) (i : Instance) : Instance :=
  match c with
  | CacheLoaded pc => with_pathCache pc i
  | _ => i
  end.

(** *** Source selection *)

(** The raw document [readWrapped] returns on an instance without a
    promise, and the instance it leaves. *)
Definition source_state (opts : gmap string string) (s : State) : State :=
  if negb (truthy (env (world s) !! "OP_CONFIG_PATH")) then entered s
  else
    let s1 := after_cache_read (cacheFileName opts)
                (read_cache_file (world s) (cacheFileName opts)) (entered s) in
    match files (world s) !! standardConfigFilename opts with
    | Some config => logged (LogFound (standardConfigFilename opts)) s1
    | None =>
        resolve_state (config_path (world s))
          (logged (LogNotFound (standardConfigFilename opts)) s1)
    end.

Definition source_outcome (opts : gmap string string) (i : Instance) (w : World)
  : result jsval :=
  if negb (truthy (env w !! "OP_CONFIG_PATH")) then Err ConfigPathMissing
  else
    let i1 := cache_instance (read_cache_file w (cacheFileName opts)) i in
    match files w !! standardConfigFilename opts with
    | Some config => Ok (VStr config)
    | None => resolve_outcome i1 w (config_path w)
    end.

Definition source_instance (opts : gmap string string) (i : Instance) (w : World)
  : Instance :=
  if negb (truthy (env w !! "OP_CONFIG_PATH")) then i
  else
    let i1 := cache_instance (read_cache_file w (cacheFileName opts)) i in
    match files w !! standardConfigFilename opts with
    | Some config => i1
    | None => resolve_instance i1 w (config_path w)
    end.

(** Whether source selection goes to the store. *)
Definition source_fetches (opts : gmap string string) (i : Instance) (w : World)
  : bool :=
  if negb (truthy (env w !! "OP_CONFIG_PATH")) then false
  else
    let i1 := cache_instance (read_cache_file w (cacheFileName opts)) i in
    match files w !! standardConfigFilename opts with
    | Some config => false
    | None => resolve_fetches i1 w (config_path w)
    end.

(** *** The load *)

(** The state [read] leaves when it starts to wait, the two checks
    passed. *)
Definition enter_state (vars : gmap string string) (s : State) : State :=
  match loadingPromise (this s) with
  | Some _ => s
  | None =>
      let s' := source_state vars s in
      {| world := world s';
         this := with_loadingPromise
                   (Some (source_outcome vars (this s) (world s))) (this s') |}
  end.

(** The state of a call after it has rendered the document. *)
Definition rendered_state (vars : gmap string string) (s : State) : State :=
  match loadingPromise (this s) with
  | Some (Ok template) =>
      template_state template (vars ∪ env (world s)) (logged LogReadTook s)
  | _ => s
  end.

(** The text [read] hands to [toml.parse], if it gets that far. *)
Definition load_text (vars : gmap string string) (i : Instance) (w : World)
  : result string :=
  match loadingPromise i with
  | None => Err TypeError
  | Some (Err e) => Err e
  | Some (Ok template) =>
      template_outcome (op_outcome i w) template (vars ∪ env w)
  end.

(** The error of [createCipheriv], if any. *)
Definition cipher_error (e : gmap string string) (key : bytes) : option error :=
  match e !! "OP_CACHE_IV" with
  | None => Some TypeError
  | Some ivhex =>
      if negb (length key =? key_size)%nat then Some CryptoError
      else if negb (length (from_hex ivhex) =? block_size)%nat then Some CryptoError
      else None
  end.

(** The error of the cache write of [read], if any. *)
Definition cache_write_error (w : World) : option error :=
  if truthy (env w !! "OP_CONFIG_CACHE") then
    match env w !! "OP_SERVICE_ACCOUNT_TOKEN" with
    | None => Some TypeError
    | Some token => cipher_error (env w) (scrypt token (to_hex (entropy w (draws w))))
    end
  else None.

(** The value a call of [read] that has entered resolves to. *)
Definition load_value (vars : gmap string string) (i : Instance) (w : World)
  : result tval :=
  match load_text vars i w with
  | Err e => Err e
  | Ok config =>
      match cache_write_error w with
      | Some e => Err e
      | None =>
          match toml_parse config with
          | None => Err ParseError
          | Some v => Ok v
          end
      end
  end.
(** A step that leaves files, draws, heap and the in-flight promise as
    they were, and also the answer of the resolver for the configured
    path; its events are those of a lookup of that path. *)
Record lookup_step (s s' : State) : Prop := {
  ls_fixed : fixed (world s) (world s');
  ls_files : files (world s') = files (world s);
  ls_draws : draws (world s') = draws (world s);
  ls_heap : heap (world s') = heap (world s);
  ls_static : staticCache (world s') = staticCache (world s);
  ls_promise : loadingPromise (this s') = loadingPromise (this s);
  ls_outcome : op_outcome (this s') (world s') = op_outcome (this s) (world s);
  ls_instance : resolve_instance (this s') (world s') (config_path (world s'))
                = resolve_instance (this s) (world s) (config_path (world s));
  ls_trace : extends (is_lookup_event (config_path (world s)))
               (trace (world s)) (trace (world s'))
}.

(** What a call that has entered does when it resumes. *)
Record resumed (vars : gmap string string) (s : State) (r : result nat) (s' : State)
  : Prop := {
  rs_result :
    r = match load_value vars (this s) (world s) with
        | Ok _ => Ok (length (heap (world s)))
        | Err e => Err e
        end;
  rs_heap :
    heap (world s') = match load_value vars (this s) (world s) with
                      | Ok v => (heap (world s) ++ [v])%list
                      | Err _ => heap (world s)
                      end;
  rs_fixed : fixed (world s) (world s');
  rs_static : staticCache (world s') = staticCache (world s);
  rs_this : this s' = this (rendered_state vars s);
  rs_after : extends is_housekeeping
               (trace (world (rendered_state vars s))) (trace (world s'))
}.
End Outcomes.

(** What [n] callers get when they all resolve to one value: objects of
    their own, at consecutive new places of the heap, all holding that value;
    or all the same error. *)
Definition same_value_own_objects (w : World) (rs : list (result nat)) (w' : World)
           (n : nat) : Prop :=
  (exists v, rs = map (fun k => Ok (length (heap w) + k)) (seq 0 n) /\
             heap w' = (heap w ++ replicate n v)%list) \/
  (exists e, rs = repeat (Err e) n /\ heap w' = heap w).

(** What a caller holds in the end: the value of the object it was given, or
    the error. *)
Definition delivered (r : result nat) (w : World) : result (option tval) :=
  match r with
  | Ok l => Ok (heap w !! l)
  | Err e => Err e
  end.

(** The instance a call of the static [read] creates, as it is when the call
    starts to wait. *)
Definition waiting_instance `{Platform} (vars : gmap string string) (w : World)
  : Instance :=
  with_loadingPromise (Some (source_outcome vars new_Config w))
    (source_instance vars new_Config w).

(** The attempt on a cache file fails: [decrypt] raises, or [JSON.parse]
    raises on what it returns. *)
Definition attempt_fails `{Platform} (w : World) (d salt token : string) (e : error)
  : Prop :=
  decrypt (env w) d (scrypt token salt) = Err e \/
  (exists text, decrypt (env w) d (scrypt token salt) = Ok text /\
                JSON_parse text = JsonRaises /\ e = JsonSyntaxError).

Create HintDb frame.
#[global] Hint Constructors extends : frame.

Ltac msimpl :=
  cbv [mbind M_bind mret M_ret throw try_catch get_world get_this
       set_world set_this emit log getenv lift capture randomBytes_hex
       readFile writeFile alloc].

Ltac rsimpl :=
  cbn [env files remote package_json auth_ok entropy draws trace heap
       staticCache with_trace with_files with_draws with_heap with_staticCache
       pathCache client loadingPromise with_pathCache with_client
       with_loadingPromise world this negb andb orb new_Config fst snd].

Ltac ssimpl := unfold entered, logged, resolve_state in *; rsimpl.

Ltac mstep := msimpl; rsimpl.

Ltac case_match_goal :=
  match goal with
  | |- context [match ?x with _ => _ end] =>
      lazymatch x with
      | context [match _ with _ => _ end] => fail
      | _ => destruct x eqn:?
      end
  end.

Ltac resolve_cases i w path :=
  destruct i as [pc c lp];
  unfold resolve_outcome, resolve_instance, client_outcome, fetch_outcome; rsimpl;
  destruct (truthy_val (pathCache_get pc path)) eqn:Hc; rsimpl; rewrite ?Hc;
  [reflexivity|];
  destruct c; rsimpl;
  [|destruct (package_json w) as [[name version]|] eqn:Hp; rsimpl; rewrite ?Hc;
    [|reflexivity];
    destruct (negb (truthy (Some name)) || negb (truthy (Some version))) eqn:Hnv;
    rsimpl; rewrite ?Hc, ?Hnv; [reflexivity|];
    destruct (auth_ok w) eqn:Ha; rsimpl; rewrite ?Hc, ?Hnv, ?Ha; [|reflexivity]];
  (destruct (remote w !! path) as [r|] eqn:Hr; rsimpl; rewrite ?Hc, ?Hr;
   [|reflexivity];
   replace (pathCache_get (<[path := r]> pc) path) with (Some (VStr r))
     by (unfold pathCache_get; rewrite lookup_insert_eq; reflexivity);
   cbn [truthy_val];
   destruct (truthy (Some r)); rsimpl; rewrite ?Hr, ?insert_insert_eq; reflexivity).

(** ** Sequences of calls of the static interface *)

Inductive public_call : Type :=
| CallRead (vars opts : gmap string string)
| CallDeaSyncRead (vars opts : gmap string string)
| CallReadLoaded.

Section Calls.
Context {platform : Platform}.

Definition run_call (c : public_call) (w : World) : result nat * World :=
  match c with
  | CallRead vars opts => static_read vars opts w
  | CallDeaSyncRead vars opts => deaSyncRead vars opts w
  | CallReadLoaded => readLoaded w
  end.

(** One call after the other, each settled before the next is made. *)
Fixpoint run_calls (cs : list public_call) (w : World)
  : list (result nat) * World :=
  match cs with
  | [] => ([], w)
  | c :: r =>
      let '(x, w1) := run_call c w in
      let '(xs, w2) := run_calls r w1 in
      (x :: xs, w2)
  end.
End Calls.

Definition is_create_client (ev : event) : bool :=
  match ev with
  | EvCreateClient _ _ => true
  | _ => false
  end.

(** The clients a load has made so far are none, or one that the instance
    holds. *)
Definition at_most_its_client (c0 : nat) (s : State) : Prop :=
  count_events is_create_client (world s) = c0 \/
  (count_events is_create_client (world s) = S c0 /\ client (this s) = true).


(** * Properties *)

Open Scope list_scope.

(** ** The Crypto Box *)

Lemma hex_byte (c : ascii) :
  hex_val (hex_digit (N_of_ascii c / 16)) = Some (N_of_ascii c / 16)%N /\
  hex_val (hex_digit (N_of_ascii c mod 16)) = Some (N_of_ascii c mod 16)%N /\
  ascii_of_N (16 * (N_of_ascii c / 16) + N_of_ascii c mod 16) = c.
Proof.
  destruct c as [[] [] [] [] [] [] [] []]; vm_compute; auto.
Qed.

Lemma hex_decode_encode (b : bytes) : hex_decode (hex_encode b) = b.
Proof.
  induction b as [|c r IH]; [reflexivity|].
  destruct (hex_byte c) as (Hh & Hl & Hc).
  cbn [hex_encode hex_decode]. rewrite Hh, Hl, Hc, IH. reflexivity.
Qed.

Lemma from_hex_to_hex (b : bytes) : from_hex (to_hex b) = b.
Proof.
  unfold from_hex, to_hex, bytes_of_string, string_of_bytes.
  rewrite list_ascii_of_string_of_list_ascii. apply hex_decode_encode.
Qed.

Lemma length_hex_encode (b : bytes) : length (hex_encode b) = 2 * length b.
Proof. induction b; cbn [hex_encode length]; lia. Qed.

Lemma length_string_of_bytes (b : bytes) : String.length (string_of_bytes b) = length b.
Proof.
  unfold string_of_bytes. induction b as [|c b IH]; [reflexivity|].
  cbn [string_of_list_ascii String.length length]. rewrite IH. reflexivity.
Qed.

(** What [toString('hex')] gives has an even number of digits. *)
Lemma to_hex_even (b : bytes) : Nat.odd (String.length (to_hex b)) = false.
Proof.
  unfold to_hex. rewrite length_string_of_bytes, length_hex_encode.
  rewrite <- Nat.negb_even, Nat.even_mul. reflexivity.
Qed.

Lemma xor_byte_involutive (a b : ascii) : xor_byte (xor_byte a b) b = a.
Proof.
  destruct a, b; cbn. f_equal;
    match goal with |- xorb (xorb ?x ?y) ?y = _ => destruct x, y; reflexivity end.
Qed.

Lemma length_xor_bytes (a b : bytes) :
  length a = length b -> length (xor_bytes a b) = length a.
Proof.
  revert b; induction a as [|x a IH]; intros [|y b] Hl; cbn in *; try lia.
  rewrite IH; lia.
Qed.

Lemma xor_bytes_involutive (a b : bytes) :
  length a = length b -> xor_bytes (xor_bytes a b) b = a.
Proof.
  revert b; induction a as [|x a IH]; intros [|y b] Hl; cbn in *; try lia; auto.
  rewrite xor_byte_involutive, IH; auto.
Qed.

Lemma pad_len_bounds (n : nat) : 1 <= pad_len n <= block_size.
Proof.
  unfold pad_len, block_size.
  pose proof (Nat.mod_upper_bound n 16). lia.
Qed.

Lemma length_pkcs7_pad (m : bytes) :
  length (pkcs7_pad m) mod block_size = 0 /\ 0 < length (pkcs7_pad m).
Proof.
  unfold pkcs7_pad. rewrite length_app, repeat_length.
  pose proof (pad_len_bounds (length m)) as Hb.
  unfold pad_len, block_size in *.
  pose proof (Nat.div_mod_eq (length m) 16) as Hd.
  pose proof (Nat.mod_upper_bound (length m) 16) as Hu.
  split; [|lia].
  replace (length m + (16 - length m mod 16)) with ((length m / 16 + 1) * 16) by lia.
  apply Nat.Div0.mod_mul.
Qed.

Lemma last_app_repeat (m : bytes) (c : ascii) (n : nat) :
  0 < n -> last (m ++ repeat c n) = Some c.
Proof.
  intros Hn. destruct n as [|n]; [lia|].
  replace (repeat c (S n)) with (repeat c n ++ [c]).
  - rewrite app_assoc. apply last_snoc.
  - clear. induction n; cbn in *; [reflexivity|]. rewrite IHn. reflexivity.
Qed.

(** Removing the padding gives the message back. *)
Lemma pkcs7_unpad_pad (m : bytes) : pkcs7_unpad (pkcs7_pad m) = Some m.
Proof.
  unfold pkcs7_unpad, pkcs7_pad.
  pose proof (pad_len_bounds (length m)) as Hb.
  set (n := pad_len (length m)) in *.
  rewrite last_app_repeat by lia.
  unfold block_size in *.
  rewrite nat_ascii_embedding by lia.
  rewrite length_app, repeat_length.
  replace (length m + n - n) with (length m) by lia.
  rewrite drop_app_length, take_app_length.
  destruct (1 <=? n)%nat eqn:E1; [|apply Nat.leb_gt in E1; lia].
  destruct (n <=? 16)%nat eqn:E2; [|apply Nat.leb_gt in E2; lia].
  destruct (n <=? length m + n)%nat eqn:E3; [|apply Nat.leb_gt in E3; lia].
  cbn [andb]. rewrite decide_True by reflexivity. reflexivity.
Qed.

Lemma chunks_fuel_app (fuel : nat) (c r : bytes) :
  length c = block_size -> length r <= fuel ->
  chunks_fuel (S fuel) (c ++ r) = c :: chunks_fuel fuel r.
Proof.
  intros Hc Hr. cbn [chunks_fuel].
  destruct (c ++ r) eqn:E.
  - apply (f_equal length) in E. rewrite length_app, Hc in E. cbn in E. discriminate.
  - rewrite <- E, <- Hc, take_app_length, drop_app_length. reflexivity.
Qed.

Lemma chunks_fuel_more (fuel fuel' : nat) (m : bytes) :
  length m <= fuel -> length m <= fuel' -> chunks_fuel fuel m = chunks_fuel fuel' m.
Proof.
  revert fuel' m; induction fuel as [|f IH]; intros fuel' m H1 H2.
  - destruct m; [|cbn in H1; lia]. destruct fuel'; reflexivity.
  - destruct fuel' as [|f'].
    + destruct m; [reflexivity|cbn in H2; lia].
    + cbn [chunks_fuel]. destruct m as [|x m]; [reflexivity|].
      f_equal. apply IH; rewrite length_drop; cbn [length] in *; unfold block_size; lia.
Qed.

Lemma chunks_app (c r : bytes) :
  length c = block_size -> chunks (c ++ r) = c :: chunks r.
Proof.
  intros Hc. unfold chunks. rewrite length_app, Hc. unfold block_size at 1.
  cbn [Nat.add]. rewrite chunks_fuel_app by (auto; lia).
  f_equal. apply chunks_fuel_more; lia.
Qed.

Lemma chunks_nil : chunks [] = [].
Proof. reflexivity. Qed.

Lemma chunks_spec_fuel (n : nat) (m : bytes) :
  length m <= n -> length m mod block_size = 0 ->
  concat (chunks m) = m /\ Forall (fun b => length b = block_size) (chunks m).
Proof.
  revert m. induction n as [|n IH]; intros m Hn Hmod.
  - destruct m; [split; [reflexivity|constructor]|cbn in Hn; lia].
  - destruct (decide (m = [])) as [->|Hne]; [split; [reflexivity|constructor]|].
    assert (Hpos : 0 < length m) by (destruct m; [congruence|cbn; lia]).
    assert (Hge : block_size <= length m).
    { unfold block_size in *. destruct (le_lt_dec 16 (length m)); [assumption|].
      rewrite Nat.mod_small in Hmod by lia. lia. }
    assert (Ht : length (take block_size m) = block_size) by (rewrite length_take; lia).
    assert (Hd : length (drop block_size m) mod block_size = 0).
    { rewrite length_drop. unfold block_size in *.
      pose proof (Nat.div_mod_eq (length m) 16) as Hd. rewrite Hmod in Hd.
      replace (length m - 16) with ((length m / 16 - 1) * 16) by lia.
      apply Nat.Div0.mod_mul. }
    destruct (IH (drop block_size m)) as [Hc Hf]; [|assumption|].
    { rewrite length_drop. unfold block_size in *. lia. }
    rewrite <- (take_drop block_size m) at 1 3.
    rewrite chunks_app by assumption. cbn [concat]. rewrite Hc.
    split; [rewrite take_drop; reflexivity|constructor; assumption].
Qed.

Lemma chunks_spec (m : bytes) :
  length m mod block_size = 0 ->
  concat (chunks m) = m /\ Forall (fun b => length b = block_size) (chunks m).
Proof. apply (chunks_spec_fuel (length m)). lia. Qed.

Section CBCFacts.
Context `{BlockCipherLaws}.

Lemma cbc_blocks_roundtrip (k : bytes) (bs : list bytes) :
  length k = key_size ->
  Forall (fun b => length b = block_size) bs ->
  forall prev, length prev = block_size ->
  cbc_decrypt_blocks k prev (chunks (cbc_encrypt_blocks k prev bs)) = concat bs
  /\ length (cbc_encrypt_blocks k prev bs) = block_size * length bs.
Proof.
  intros Hk Hbs. induction Hbs as [|b bs Hb Hbs IH]; intros prev Hp.
  - split; reflexivity.
  - cbn [cbc_encrypt_blocks].
    assert (Hx : length (xor_bytes b prev) = block_size)
      by (rewrite length_xor_bytes; congruence).
    assert (Hc : length (block_encrypt k (xor_bytes b prev)) = block_size)
      by (apply block_encrypt_length; assumption).
    rewrite chunks_app by assumption.
    cbn [cbc_decrypt_blocks concat].
    rewrite block_decrypt_encrypt by assumption.
    rewrite xor_bytes_involutive by congruence.
    destruct (IH _ Hc) as [IH1 IH2]. rewrite IH1.
    split; [reflexivity|]. rewrite length_app, Hc, IH2. cbn [length]. lia.
Qed.

(** CBC decryption undoes CBC encryption under the same key and IV. *)
Lemma cbc_decrypt_encrypt (k iv m : bytes) :
  length k = key_size -> length iv = block_size ->
  cbc_decrypt k iv (cbc_encrypt k iv m) = Some m.
Proof.
  intros Hk Hiv. unfold cbc_decrypt, cbc_encrypt.
  destruct (length_pkcs7_pad m) as [Hmod Hpos].
  destruct (chunks_spec _ Hmod) as [Hcat Hall].
  destruct (cbc_blocks_roundtrip k _ Hk Hall iv Hiv) as [Hrt Hlen].
  assert (Hne : chunks (pkcs7_pad m) <> []).
  { intros E. rewrite E in Hcat. cbn in Hcat. rewrite <- Hcat in Hpos. cbn in Hpos. lia. }
  rewrite decide_False.
  2:{ intros E. apply (f_equal length) in E. rewrite Hlen in E.
      destruct (chunks (pkcs7_pad m)); [congruence|]. cbn in E. unfold block_size in E. lia. }
  rewrite decide_True.
  2:{ rewrite Hlen. rewrite Nat.mul_comm. apply Nat.Div0.mod_mul. }
  rewrite Hrt, Hcat. apply pkcs7_unpad_pad.
Qed.
End CBCFacts.

(** ** AES-256 on the example of FIPS-197, appendix C.3 *)

Lemma aes256_fips197_example :
  let key := from_hex "000102030405060708090a0b0c0d0e0f101112131415161718191a1b1c1d1e1f" in
  to_hex (AES.Cipher key (from_hex "00112233445566778899aabbccddeeff"))
  = "8ea2b7ca516745bfeafc49904b496089" /\
  to_hex (AES.InvCipher key (from_hex "8ea2b7ca516745bfeafc49904b496089"))
  = "00112233445566778899aabbccddeeff".
Proof. vm_compute. split; reflexivity. Qed.

(** The S-box begins and ends as in figure 7 of FIPS-197, and the two
    tables are inverse to each other. *)
Lemma aes_sbox_example :
  to_hex (take 4 AES.sbox) = "637c777b" /\
  to_hex (drop 252 AES.sbox) = "b054bb16" /\
  AES.InvSubBytes (AES.SubBytes (map ascii_of_nat (seq 0 256)))
  = map ascii_of_nat (seq 0 256).
Proof. vm_compute. repeat split; reflexivity. Qed.


(** ** [encrypt] and [decrypt] *)

Lemma json_parse_strings `{Platform} (text : string) (pc : gmap string string) :
  json_parse text = Some pc <-> JSON_parse text = JsonStrings pc.
Proof.
  unfold json_parse. destruct (JSON_parse text); split; congruence.
Qed.

Section Box.
Context `{PlatformLaws}.

Lemma encrypt_ok (e : gmap string string) (text : string) (key : bytes) :
  valid_iv e -> length key = key_size ->
  exists ivhex,
    e !! "OP_CACHE_IV" = Some ivhex /\
    encrypt e text key
    = Ok (to_hex (cbc_encrypt key (from_hex ivhex) (bytes_of_string text))).
Proof.
  intros (ivhex & Hiv & Hlen) Hk. exists ivhex. split; [assumption|].
  unfold encrypt. rewrite Hiv, Hk, Hlen.
  rewrite !Nat.eqb_refl. reflexivity.
Qed.

Lemma decrypt_encrypt (e : gmap string string) (text : string) (key : bytes) :
  valid_iv e -> length key = key_size ->
  exists c, encrypt e text key = Ok c /\ decrypt e c key = Ok text.
Proof.
  intros Hv Hk. destruct (encrypt_ok e text key Hv Hk) as (ivhex & Hiv & He).
  destruct Hv as (ivhex' & Hiv' & Hlen).
  assert (ivhex' = ivhex) by congruence. subst ivhex'.
  eexists. split; [exact He|].
  unfold decrypt. rewrite Hiv, Hk, Hlen, !Nat.eqb_refl. cbn [negb].
  rewrite to_hex_even, from_hex_to_hex, cbc_decrypt_encrypt by assumption.
  unfold string_of_bytes, bytes_of_string.
  rewrite string_of_list_ascii_of_string. reflexivity.
Qed.

(** Whatever [decrypt] is given, it returns a text or raises; with a
    key of the wrong length or an IV that is not one block it raises. *)
Lemma decrypt_bad_iv (e : gmap string string) (c : string) (key : bytes) :
  ~ valid_iv e -> exists err, decrypt e c key = Err err.
Proof.
  intros Hn. unfold decrypt.
  destruct (e !! "OP_CACHE_IV") as [ivhex|] eqn:Hiv; [|eauto].
  destruct (length key =? key_size)%nat; cbn [negb]; [|eauto].
  destruct (length (from_hex ivhex) =? block_size)%nat eqn:E; cbn [negb]; [|eauto].
  exfalso. apply Hn. exists ivhex. apply Nat.eqb_eq in E. auto.
Qed.

(** A ciphertext with an odd number of digits does not decrypt, and nor
    does one whose bytes are not a whole number of blocks, or none. *)
Lemma decrypt_damaged (e : gmap string string) (c : string) (key : bytes) :
  Nat.odd (String.length c) = true \/ from_hex c = [] \/
  length (from_hex c) mod block_size <> 0 ->
  exists err, decrypt e c key = Err err.
Proof.
  intros Hc. unfold decrypt.
  destruct (e !! "OP_CACHE_IV") as [ivhex|]; [|eauto].
  destruct (negb (length key =? key_size)%nat); [eauto|].
  destruct (negb (length (from_hex ivhex) =? block_size)%nat); [eauto|].
  destruct (Nat.odd (String.length c)) eqn:Ho; [eauto|].
  destruct Hc as [Hc|[Hc|Hc]]; [discriminate| |];
    unfold cbc_decrypt; repeat case_decide; try contradiction; eauto.
Qed.
End Box.

(** ** The methods and what they compute *)

Lemma extends_trans P t1 t2 t3 :
  extends P t1 t2 -> extends P t2 t3 -> extends P t1 t3.
Proof. intros H12 H23. induction H23; auto with frame. Qed.

Lemma extends_weaken (P Q : event -> Prop) t t' :
  (forall ev, P ev -> Q ev) -> extends P t t' -> extends Q t t'.
Proof. intros HPQ Hx. induction Hx; auto with frame. Qed.

Lemma extends_app P t t' : extends P t t' -> exists evs, t' = evs ++ t /\ Forall P evs.
Proof.
  induction 1 as [|ev t' Hev _ (evs & -> & Hall)].
  - exists []. split; [reflexivity|constructor].
  - exists (ev :: evs). split; [reflexivity|constructor; assumption].
Qed.

(** Events outside [p] do not change how many events of [p] there are. *)
Lemma extends_count (p : event -> bool) t t' :
  extends (fun ev => p ev = false) t t' ->
  length (filter (fun ev => p ev = true) t') = length (filter (fun ev => p ev = true) t).
Proof.
  induction 1 as [|ev t' Hev _ IH]; [reflexivity|].
  rewrite filter_cons, decide_False by congruence. exact IH.
Qed.

Lemma fixed_refl w : fixed w w.
Proof. split; reflexivity. Qed.

Lemma fixed_trans w1 w2 w3 : fixed w1 w2 -> fixed w2 w3 -> fixed w1 w3.
Proof. intros [] []. split; congruence. Qed.

Lemma fixed_with_trace w w' f : fixed w w' -> fixed w (with_trace f w').
Proof. intros []. split; assumption. Qed.

Lemma fixed_with_files w w' f : fixed w w' -> fixed w (with_files f w').
Proof. intros []. split; assumption. Qed.

Lemma fixed_with_draws w w' n : fixed w w' -> fixed w (with_draws n w').
Proof. intros []. split; assumption. Qed.

Lemma fixed_with_heap w w' h : fixed w w' -> fixed w (with_heap h w').
Proof. intros []. split; assumption. Qed.

Lemma fixed_from_with_trace w w' f : fixed (with_trace f w) w' -> fixed w w'.
Proof. intros []. split; assumption. Qed.

Lemma fixed_with_staticCache w w' c : fixed w w' -> fixed w (with_staticCache c w').
Proof. intros []. split; assumption. Qed.

#[global] Hint Resolve fixed_refl fixed_with_trace fixed_with_files
  fixed_with_draws fixed_with_heap fixed_with_staticCache : frame.

Section MethodFacts.
Context {platform : Platform}.

(** *** [load_cache_file] *)

(** The attempt on the cache file never raises; what it leaves is told
    by [read_cache_file]. *)
Lemma load_cache_file_spec (name : string) (s : State) :
  load_cache_file name s
  = (Ok tt, after_cache_read name (read_cache_file (world s) name) s).
Proof.
  destruct s as [w i].
  unfold load_cache_file, scryptSync, read_cache_file, after_cache_read. mstep.
  repeat (case_match_goal; mstep; cbn [from_option id] in * );
    try reflexivity; congruence.
Qed.

Lemma split_colon_nonempty (contents d salt : string) :
  split_colon contents = (d, Some salt) -> truthy (Some contents) = true.
Proof. destruct contents; [discriminate|reflexivity]. Qed.

Lemma read_cache_file_unreadable (w : World) (name contents d salt token : string)
      (e : error) :
  files w !! name = Some contents ->
  split_colon contents = (d, Some salt) ->
  truthy (Some d) = true ->
  env w !! "OP_SERVICE_ACCOUNT_TOKEN" = Some token ->
  attempt_fails w d salt token e ->
  read_cache_file w name = CacheUnreadable e.
Proof.
  intros Hf Hsp Hd Htok Hfail. unfold read_cache_file.
  rewrite Hf, (split_colon_nonempty _ _ _ Hsp), Hsp, Htok, Hd.
  destruct Hfail as [->|(text & -> & -> & ->)]; reflexivity.
Qed.


(** *** The secret resolver *)

Lemma read1Password_spec (path : string) (s : State) :
  read1Password path s
  = (resolve_outcome (this s) (world s) path, resolve_state path s).
Proof.
  destruct s as [w i].
  unfold read1Password, getOnePassClient, resolve_outcome, resolve_state,
    resolve_instance, resolve_events, client_outcome, client_events, fetch_outcome.
  mstep.
  destruct (truthy_val (pathCache_get (pathCache i) path)) eqn:Hc; mstep.
  { destruct w, i; reflexivity. }
  destruct (client i) eqn:Hcl; mstep.
  - destruct (remote w !! path); mstep; destruct i; cbn in *; subst; reflexivity.
  - destruct (package_json w) as [[name version]|]; mstep; [|reflexivity].
    destruct (negb (truthy (Some name)) || negb (truthy (Some version))); mstep;
      [reflexivity|].
    destruct (auth_ok w); mstep; [|reflexivity].
    destruct (remote w !! path); reflexivity.
Qed.

(** A value that is truthy is memoized: once [path] has a truthy entry,
    [read1Password] answers from the path cache and does nothing else. *)
Lemma read1Password_hit (path : string) (s : State) :
  truthy_val (pathCache_get (pathCache (this s)) path) = true ->
  read1Password path s
  = (Ok (default (VStr "") (pathCache_get (pathCache (this s)) path)), s).
Proof.
  intros Hc. rewrite read1Password_spec.
  unfold resolve_outcome, resolve_state, resolve_instance, resolve_events.
  rewrite Hc. destruct s as [[] []]. reflexivity.
Qed.

Lemma pathCache_get_insert (pc : gmap string string) (path r : string) :
  pathCache_get (<[path := r]> pc) path = Some (VStr r).
Proof. unfold pathCache_get. rewrite lookup_insert_eq. reflexivity. Qed.

Lemma resolve_outcome_idem (i : Instance) (w : World) (path : string) :
  resolve_outcome (resolve_instance i w path) w path = resolve_outcome i w path.
Proof. resolve_cases i w path. Qed.

Lemma resolve_instance_idem (i : Instance) (w : World) (path : string) :
  resolve_instance (resolve_instance i w path) w path = resolve_instance i w path.
Proof. resolve_cases i w path. Qed.

Lemma resolve_events_lookup (i : Instance) (w : World) (path : string) (t : list event) :
  extends (is_lookup_event path) t (resolve_events i w path ++ t).
Proof.
  unfold resolve_events, client_events.
  repeat case_match_goal; cbn [app]; repeat (constructor; [cbn; auto|]); constructor.
Qed.



Lemma resolve_instance_promise (i : Instance) (w : World) (path : string) :
  loadingPromise (resolve_instance i w path) = loadingPromise i.
Proof. unfold resolve_instance. repeat case_match_goal; reflexivity. Qed.

(** The outcomes are functions of the instance and of what is fixed. *)
Lemma resolve_outcome_fixed (i : Instance) (w w' : World) (path : string) :
  fixed w w' -> resolve_outcome i w' path = resolve_outcome i w path.
Proof.
  intros [He Hr Hp Ha _].
  unfold resolve_outcome, client_outcome, fetch_outcome. rewrite Hr, Hp, Ha. reflexivity.
Qed.

Lemma resolve_instance_fixed (i : Instance) (w w' : World) (path : string) :
  fixed w w' -> resolve_instance i w' path = resolve_instance i w path.
Proof.
  intros [He Hr Hp Ha _].
  unfold resolve_instance, client_outcome. rewrite Hr, Hp, Ha. reflexivity.
Qed.

Lemma config_path_fixed (w w' : World) : fixed w w' -> config_path w' = config_path w.
Proof. intros []. unfold config_path. congruence. Qed.

Lemma op_outcome_fixed (i : Instance) (w w' : World) :
  fixed w w' -> op_outcome i w' = op_outcome i w.
Proof.
  intros Hf. unfold op_outcome.
  rewrite (config_path_fixed _ _ Hf). apply resolve_outcome_fixed. assumption.
Qed.

(** *** The [op] filter and rendering *)

Lemma lookup_step_refl s : lookup_step s s.
Proof. split; auto with frame. Qed.

Lemma lookup_step_trans s1 s2 s3 :
  lookup_step s1 s2 -> lookup_step s2 s3 -> lookup_step s1 s3.
Proof.
  intros [] []. split; try congruence.
  - eapply fixed_trans; eassumption.
  - eapply extends_trans; [eassumption|].
    erewrite <- config_path_fixed; eassumption.
Qed.

Lemma resolve_state_step (s : State) :
  lookup_step s (resolve_state (config_path (world s)) s).
Proof.
  assert (Hf : fixed (world s)
                 (with_trace (app (resolve_events (this s) (world s)
                                     (config_path (world s)))) (world s)))
    by auto with frame.
  split; ssimpl; auto.
  - apply resolve_instance_promise.
  - rewrite (op_outcome_fixed _ _ _ Hf). apply resolve_outcome_idem.
  - rewrite (config_path_fixed _ _ Hf), (resolve_instance_fixed _ _ _ _ Hf).
    apply resolve_instance_idem.
  - apply resolve_events_lookup.
Qed.

Lemma logged_step (m : log_msg) (s s' : State) :
  lookup_step s s' -> lookup_step s (logged m s').
Proof.
  intros [Hf Hfi Hd Hh Hsc Hp Ho Hi Ht].
  split; ssimpl; auto with frame.
  constructor; [exact I|assumption].
Qed.

Lemma op_filter_spec (arg : option string) (s : State) :
  op_filter arg s = (op_outcome (this s) (world s), op_state arg s).
Proof.
  unfold op_filter, op_state, op_outcome. mstep.
  fold (config_path (world s)). rewrite read1Password_spec.
  destruct (resolve_outcome (this s) (world s) (config_path (world s))); reflexivity.
Qed.

Lemma op_state_step (arg : option string) (s : State) : lookup_step s (op_state arg s).
Proof.
  unfold op_state. destruct (op_outcome (this s) (world s)).
  - apply resolve_state_step.
  - apply logged_step, resolve_state_step.
Qed.

Lemma render_spec (ns : list node) (bindings : gmap string string) (s : State) :
  render ns bindings s
  = (render_pure (op_outcome (this s) (world s)) ns bindings,
     render_state ns bindings s).
Proof.
  revert s. induction ns as [|n ns IH]; intros s; [reflexivity|].
  destruct n as [t|e|e]; cbn [render render_pure render_state]; mstep.
  - rewrite IH. destruct (render_pure _ ns bindings); reflexivity.
  - rewrite IH. destruct (render_pure _ ns bindings); reflexivity.
  - rewrite op_filter_spec.
    destruct (op_outcome (this s) (world s)) as [v|err] eqn:Ho; [|reflexivity].
    rewrite IH, (ls_outcome _ _ (op_state_step _ s)), Ho.
    destruct (render_pure _ ns bindings); reflexivity.
Qed.

Lemma render_state_step (ns : list node) (bindings : gmap string string) (s : State) :
  lookup_step s (render_state ns bindings s).
Proof.
  revert s. induction ns as [|n ns IH]; intros s; [apply lookup_step_refl|].
  destruct n as [t|e|e]; cbn [render_state]; auto.
  destruct (op_outcome (this s) (world s)).
  - eapply lookup_step_trans; [apply op_state_step|apply IH].
  - apply op_state_step.
Qed.

(** Without a use of [op], rendering leaves the state as it is. *)
Lemma render_state_no_op (ns : list node) (bindings : gmap string string) (s : State) :
  existsb is_op ns = false -> render_state ns bindings s = s.
Proof.
  induction ns as [|n ns IH]; [reflexivity|].
  destruct n; cbn [existsb is_op orb render_state]; auto. discriminate.
Qed.

(** With a truthy entry for the configured path, every use of [op] is
    answered from the path cache and rendering leaves the state as it
    is. *)
Lemma render_state_hit (ns : list node) (bindings : gmap string string) (s : State) :
  truthy_val (pathCache_get (pathCache (this s)) (config_path (world s))) = true ->
  render_state ns bindings s = s.
Proof.
  intros Hc.
  assert (Hop : forall arg, op_state arg s = s).
  { intros arg. unfold op_state, op_outcome, resolve_outcome, resolve_state,
      resolve_instance, resolve_events. rewrite Hc. destruct s as [[] []]. reflexivity. }
  assert (Ho : exists v, op_outcome (this s) (world s) = Ok v).
  { unfold op_outcome, resolve_outcome. rewrite Hc. eauto. }
  destruct Ho as [v Ho].
  induction ns as [|n ns IH]; [reflexivity|].
  destruct n; cbn [render_state]; auto. rewrite Ho, Hop. exact IH.
Qed.

Lemma processTemplate_spec (template : jsval) (bindings : gmap string string)
      (s : State) :
  processTemplate template bindings s
  = (template_outcome (op_outcome (this s) (world s)) template bindings,
     template_state template bindings s).
Proof.
  unfold processTemplate, template_outcome, template_state.
  destruct template as [src|k]; [|reflexivity].
  destruct (compile src) as [ns|]; [|reflexivity].
  mstep. rewrite render_spec.
  destruct (render_pure _ ns bindings); reflexivity.
Qed.

Lemma template_state_step (template : jsval) (bindings : gmap string string)
      (s : State) :
  lookup_step s (template_state template bindings s).
Proof.
  unfold template_state. destruct template; [|apply lookup_step_refl].
  destruct (compile s0); [apply render_state_step|apply lookup_step_refl].
Qed.

(** *** [readWrapped] *)

Lemma readWrapped_spec (opts : gmap string string) (s : State) :
  loadingPromise (this s) = None ->
  readWrapped opts s = (source_outcome opts (this s) (world s), source_state opts s).
Proof.
  intros Hlp. unfold readWrapped, source_outcome, source_state. mstep.
  rewrite Hlp. mstep.
  destruct (truthy (env (world s) !! "OP_CONFIG_PATH")); mstep; [|reflexivity].
  fold (entered s). rewrite load_cache_file_spec.
  change (world (entered s)) with (with_trace (cons EvSourceSelection) (world s)).
  change (read_cache_file (with_trace (cons EvSourceSelection) (world s)))
    with (read_cache_file (world s)).
  set (c := read_cache_file (world s) (cacheFileName opts)).
  assert (Hfiles : files (world (after_cache_read (cacheFileName opts) c (entered s)))
                   = files (world s)) by (destruct c; reflexivity).
  assert (Henv : env (world (after_cache_read (cacheFileName opts) c (entered s)))
                 = env (world s)) by (destruct c; reflexivity).
  rewrite Hfiles.
  destruct (files (world s) !! standardConfigFilename opts); mstep; [reflexivity|].
  rewrite read1Password_spec. unfold config_path.
  f_equal; destruct c; reflexivity.
Qed.

Lemma readWrapped_in_flight (opts : gmap string string) (s : State) (r : result jsval) :
  loadingPromise (this s) = Some r -> readWrapped opts s = (r, s).
Proof. intros Hlp. unfold readWrapped. mstep. rewrite Hlp. reflexivity. Qed.

Lemma after_cache_read_this (name : string) (c : cache_read) (s : State) :
  this (after_cache_read name c s) = cache_instance c (this s).
Proof. destruct c; reflexivity. Qed.

Lemma after_cache_read_trace (name : string) (c : cache_read) (s : State) :
  extends is_log (trace (world s)) (trace (world (after_cache_read name c s))).
Proof. destruct c; cbn; auto with frame; repeat constructor. Qed.

Lemma after_cache_read_world (name : string) (c : cache_read) (s : State) :
  fixed (world s) (world (after_cache_read name c s)) /\
  files (world (after_cache_read name c s)) = files (world s) /\
  draws (world (after_cache_read name c s)) = draws (world s) /\
  heap (world (after_cache_read name c s)) = heap (world s) /\
  staticCache (world (after_cache_read name c s)) = staticCache (world s).
Proof. destruct c; cbn; auto 10 with frame. Qed.

Lemma source_state_this (opts : gmap string string) (s : State) :
  this (source_state opts s) = source_instance opts (this s) (world s).
Proof.
  unfold source_state, source_instance.
  destruct (truthy (env (world s) !! "OP_CONFIG_PATH")); cbn [negb]; [|reflexivity].
  set (c := read_cache_file (world s) (cacheFileName opts)).
  destruct (files (world s) !! standardConfigFilename opts);
    destruct c; reflexivity.
Qed.

(** Source selection writes no file, draws no entropy, allocates
    nothing; its events are one [EvSourceSelection], log lines, and those
    of a lookup of the configured path. *)
Lemma source_state_world (opts : gmap string string) (s : State) :
  fixed (world s) (world (source_state opts s)) /\
  files (world (source_state opts s)) = files (world s) /\
  draws (world (source_state opts s)) = draws (world s) /\
  heap (world (source_state opts s)) = heap (world s) /\
  staticCache (world (source_state opts s)) = staticCache (world s) /\
  extends (is_lookup_event (config_path (world s)))
    (EvSourceSelection :: trace (world s)) (trace (world (source_state opts s))).
Proof.
  unfold source_state.
  destruct (truthy (env (world s) !! "OP_CONFIG_PATH")); cbn [negb].
  2:{ unfold entered. rsimpl. repeat split; auto with frame. }
  set (c := read_cache_file (world s) (cacheFileName opts)).
  set (s1 := after_cache_read (cacheFileName opts) c (entered s)).
  destruct (after_cache_read_world (cacheFileName opts) c (entered s))
    as (Hf & Hfi & Hd & Hh & Hsc).
  assert (Hl : extends (is_lookup_event (config_path (world s)))
                 (EvSourceSelection :: trace (world s)) (trace (world s1))).
  { eapply extends_weaken; [|apply (after_cache_read_trace _ c (entered s))].
    intros []; cbn; tauto. }
  fold s1 in Hf, Hfi, Hd, Hh, Hsc.
  apply fixed_from_with_trace in Hf. unfold entered in Hfi, Hd, Hh, Hsc. rsimpl.
  destruct (files (world s) !! standardConfigFilename opts).
  - unfold logged. rsimpl. split; [|split; [|split; [|split; [|split]]]]; auto with frame.
    constructor; [exact I|assumption].
  - unfold logged, resolve_state. rsimpl.
    split; [|split; [|split; [|split; [|split]]]]; auto with frame.
    eapply extends_trans; [|apply resolve_events_lookup].
    constructor; [exact I|assumption].
Qed.

(** *** The cache write *)

(** The file written holds the ciphertext of the serialized path cache
    under the key derived from the token and the salt drawn for this
    write, then [":"], then that salt. *)
Lemma write_cache_spec (opts : gmap string string) (ttl : string) (s : State) :
  let w := world s in
  let salt := to_hex (entropy w (draws w)) in
  let w1 := with_draws (S (draws w))
              (with_trace (cons (EvLog (LogCaching (cacheFileName opts) ttl))) w) in
  write_cache opts ttl s =
  match env w !! "OP_SERVICE_ACCOUNT_TOKEN" with
  | None => (Err TypeError, {| world := w1; this := this s |})
  | Some token =>
      match encrypt (env w) (json_stringify (pathCache (this s))) (scrypt token salt) with
      | Err e => (Err e, {| world := w1; this := this s |})
      | Ok encrypted =>
          let content := encrypted +:+ ":" +:+ salt in
          (Ok tt,
           {| world :=
                with_trace (cons (EvUnlinkLater (cacheFileName opts) (Some ttl)))
                  (with_files (insert (cacheFileName opts) content)
                     (with_trace (cons (EvWriteFile (cacheFileName opts) content)) w1));
              this := this s |})
      end
  end.
Proof.
  destruct s as [w i]. unfold write_cache, scryptSync. mstep.
  destruct (env w !! "OP_SERVICE_ACCOUNT_TOKEN") as [token|]; mstep; [|reflexivity].
  destruct (encrypt _ _ _); reflexivity.
Qed.

(** *** [read] *)

Lemma read_enter_spec (vars opts : gmap string string) (s : State) :
  truthy (env (world s) !! "OP_CACHE_IV") = true ->
  truthy (env (world s) !! "OP_SERVICE_ACCOUNT_TOKEN") = true ->
  read_enter vars opts s = (Ok tt, enter_state vars s).
Proof.
  intros Hiv Htok. unfold read_enter, enter_state. mstep.
  rewrite Hiv. mstep. rewrite Htok. mstep.
  destruct (loadingPromise (this s)) eqn:Hlp; [reflexivity|].
  mstep. rewrite readWrapped_spec by assumption. reflexivity.
Qed.

Lemma read_enter_no_iv (vars opts : gmap string string) (s : State) :
  truthy (env (world s) !! "OP_CACHE_IV") = false ->
  read_enter vars opts s
  = (Err (OpCacheIVMissing (to_hex (entropy (world s) (draws (world s))))),
     {| world := with_draws (S (draws (world s))) (world s); this := this s |}).
Proof. intros Hiv. unfold read_enter. mstep. rewrite Hiv. reflexivity. Qed.

Lemma read_enter_no_token (vars opts : gmap string string) (s : State) :
  truthy (env (world s) !! "OP_CACHE_IV") = true ->
  truthy (env (world s) !! "OP_SERVICE_ACCOUNT_TOKEN") = false ->
  read_enter vars opts s = (Err ServiceTokenMissing, s).
Proof.
  intros Hiv Htok. unfold read_enter. mstep. rewrite Hiv. mstep. rewrite Htok.
  reflexivity.
Qed.

Lemma encrypt_cipher_error (e : gmap string string) (text : string) (key : bytes) :
  encrypt e text key =
  match cipher_error e key with
  | Some err => Err err
  | None =>
      Ok (to_hex (cbc_encrypt key (from_hex (default "" (e !! "OP_CACHE_IV")))
                    (bytes_of_string text)))
  end.
Proof.
  unfold encrypt, cipher_error. destruct (e !! "OP_CACHE_IV"); [|reflexivity].
  destruct (negb (length key =? key_size)%nat); [reflexivity|].
  destruct (negb (length (from_hex s) =? block_size)%nat); reflexivity.
Qed.

Lemma lookup_not_selection (path : string) (ev : event) :
  is_lookup_event path ev -> not_selection ev.
Proof. destruct ev; cbn; try tauto; discriminate. Qed.

Lemma housekeeping_not_selection (ev : event) : is_housekeeping ev -> not_selection ev.
Proof. destruct ev; cbn; try tauto; discriminate. Qed.

Lemma housekeeping_not_network (ev : event) : is_housekeeping ev -> not_network ev.
Proof. destruct ev; cbn; try tauto; reflexivity. Qed.

Lemma rendered_state_step (vars : gmap string string) (s : State) :
  lookup_step s (rendered_state vars s).
Proof.
  unfold rendered_state.
  destruct (loadingPromise (this s)) as [[t|]|]; try apply lookup_step_refl.
  eapply lookup_step_trans; [|apply template_state_step].
  apply logged_step, lookup_step_refl.
Qed.

Lemma read_resume_spec (vars opts : gmap string string) (s : State) :
  exists r s', read_resume vars opts s = (r, s') /\ resumed vars s r s'.
Proof.
  pose proof (rendered_state_step vars s) as H2.
  unfold read_resume. mstep. unfold rendered_state in H2.
  destruct (loadingPromise (this s)) as [[template|e]|] eqn:Hlp; mstep.
  2,3: (do 2 eexists; split; [reflexivity|]; split; unfold rendered_state;
        rewrite ?Hlp; auto with frame;
        unfold load_value, load_text; rewrite Hlp; reflexivity).
  rewrite processTemplate_spec. fold (logged LogReadTook s). rsimpl.
  set (b := vars ∪ env (world s)) in *.
  rewrite (ls_outcome _ _ (logged_step LogReadTook s s (lookup_step_refl s))).
  set (s1 := template_state template b (logged LogReadTook s)) in *.
  destruct H2 as [Hf Hfi Hd Hh Hsc Hp Ho Hi Ht].
  assert (Hcw : cache_write_error (world s1) = cache_write_error (world s)).
  { unfold cache_write_error. destruct Hf as [He _ _ _ Hen].
    rewrite He, Hen, Hd. reflexivity. }
  assert (Hlv : load_value vars (this s) (world s) =
                match template_outcome (op_outcome (this s) (world s)) template b with
                | Err e => Err e
                | Ok config =>
                    match cache_write_error (world s1) with
                    | Some e => Err e
                    | None => match toml_parse config with
                              | None => Err ParseError
                              | Some v => Ok v
                              end
                    end
                end).
  { unfold load_value, load_text. rewrite Hlp, Hcw. reflexivity. }
  assert (Hrs : rendered_state vars s = s1)
    by (unfold rendered_state; rewrite Hlp; reflexivity).
  destruct (template_outcome (op_outcome (this s) (world s)) template b)
    as [config|e] eqn:Hto.
  2:{ do 2 eexists; split; [reflexivity|]. split; rewrite ?Hlv, ?Hrs; auto with frame. }
  unfold cache_write_error in Hlv. rewrite (fixed_env _ _ Hf).
  destruct (truthy (env (world s) !! "OP_CONFIG_CACHE")) eqn:Httl.
  - rewrite write_cache_spec. cbv zeta.
    destruct (env (world s1) !! "OP_SERVICE_ACCOUNT_TOKEN") as [token|] eqn:Htok;
      [rewrite encrypt_cipher_error|].
    2:{ do 2 eexists; split; [reflexivity|]. rewrite (fixed_env _ _ Hf) in Hlv.
        rewrite Httl in Hlv.
        split; rsimpl; rewrite ?Hlv, ?Hrs; auto with frame.
        repeat (constructor; [exact I|]). constructor. }
    rewrite (fixed_env _ _ Hf), Httl in Hlv. rewrite (fixed_env _ _ Hf).
    destruct (cipher_error (env (world s)) _) as [err|] eqn:Hce.
    { do 2 eexists; split; [reflexivity|].
      split; rsimpl; rewrite ?Hlv, ?Hrs; auto with frame.
      repeat (constructor; [exact I|]). constructor. }
    mstep. rewrite ?(fixed_env _ _ Hf).
    destruct (truthy (env (world s) !! "CX_CONFIG_DUMP")); mstep;
      (destruct (toml_parse config) as [v|]; mstep;
       (do 2 eexists; split; [reflexivity|]); split; rsimpl; rewrite ?Hlv, ?Hh, ?Hrs;
       auto 10 with frame;
       repeat (constructor; [exact I|]); constructor).
  - rewrite (fixed_env _ _ Hf), Httl in Hlv.
    mstep. rewrite (fixed_env _ _ Hf).
    destruct (truthy (env (world s) !! "CX_CONFIG_DUMP")); mstep;
      (destruct (toml_parse config) as [v|]; mstep;
       (do 2 eexists; split; [reflexivity|]); split; rsimpl; rewrite ?Hlv, ?Hh, ?Hrs;
       auto 10 with frame;
       repeat (constructor; [exact I|]); constructor).
Qed.

Lemma resumed_promise vars s r s' :
  resumed vars s r s' -> loadingPromise (this s') = loadingPromise (this s).
Proof.
  intros []. rewrite rs_this0. apply (ls_promise _ _ (rendered_state_step vars s)).
Qed.

Lemma resumed_outcome vars s r s' :
  resumed vars s r s' -> op_outcome (this s') (world s') = op_outcome (this s) (world s).
Proof.
  intros []. pose proof (rendered_state_step vars s) as Hs.
  rewrite rs_this0, <- (ls_outcome _ _ Hs).
  rewrite (op_outcome_fixed _ _ _ rs_fixed0).
  symmetry. apply op_outcome_fixed, (ls_fixed _ _ Hs).
Qed.

Lemma resumed_not_selection vars s r s' :
  resumed vars s r s' -> extends not_selection (trace (world s)) (trace (world s')).
Proof.
  intros []. eapply extends_trans.
  - eapply extends_weaken; [apply lookup_not_selection|].
    apply (ls_trace _ _ (rendered_state_step vars s)).
  - eapply extends_weaken; [apply housekeeping_not_selection|assumption].
Qed.
Lemma load_value_fixed (vars : gmap string string) (i : Instance) (w w' : World) :
  fixed w w' -> draws w' = draws w -> load_value vars i w' = load_value vars i w.
Proof.
  intros Hf Hd. unfold load_value, load_text, cache_write_error.
  rewrite (op_outcome_fixed _ _ _ Hf). destruct Hf as [He _ _ _ Hen].
  rewrite He, Hen, Hd. reflexivity.
Qed.

Lemma enter_state_this (vars : gmap string string) (s : State) :
  loadingPromise (this s) = None ->
  this (enter_state vars s)
  = with_loadingPromise (Some (source_outcome vars (this s) (world s)))
      (source_instance vars (this s) (world s)).
Proof.
  intros Hlp. unfold enter_state. rewrite Hlp. rsimpl.
  rewrite source_state_this. reflexivity.
Qed.

Lemma enter_state_world (vars : gmap string string) (s : State) :
  fixed (world s) (world (enter_state vars s)) /\
  files (world (enter_state vars s)) = files (world s) /\
  draws (world (enter_state vars s)) = draws (world s) /\
  heap (world (enter_state vars s)) = heap (world s) /\
  staticCache (world (enter_state vars s)) = staticCache (world s).
Proof.
  unfold enter_state. destruct (loadingPromise (this s)); rsimpl.
  - auto 10 with frame.
  - destruct (source_state_world vars s) as (Hf & Hfi & Hd & Hh & Hsc & _). auto 10.
Qed.

(** *** The static [read] *)

Lemma static_read_spec (vars opts : gmap string string) (w : World) :
  staticCache w = None ->
  truthy (env w !! "OP_CACHE_IV") = true ->
  truthy (env w !! "OP_SERVICE_ACCOUNT_TOKEN") = true ->
  let s0 := {| world := w; this := new_Config |} in
  exists r s',
    read_resume vars opts (enter_state vars s0) = (r, s') /\
    resumed vars (enter_state vars s0) r s' /\
    static_read vars opts w
    = (r, match r with
          | Ok config => with_staticCache (Some config) (world s')
          | Err _ => world s'
          end).
Proof.
  intros Hs Hiv Htok s0.
  destruct (read_resume_spec vars opts (enter_state vars s0)) as (r & s' & Hr & Hres).
  exists r, s'. split; [assumption|]. split; [assumption|].
  unfold static_read. rewrite Hs. unfold read. fold s0.
  change ((read_enter vars opts;; read_resume vars opts) s0)
    with (match read_enter vars opts s0 with
          | (Ok a, s1) => read_resume vars opts s1
          | (Err e, s1) => (Err e, s1)
          end).
  rewrite read_enter_spec by assumption. rewrite Hr.
  destruct r; reflexivity.
Qed.
End MethodFacts.

(** ** Calls in flight *)

Section Concurrency.
Context `{PlatformLaws}.

Lemma cipher_error_scrypt (e : gmap string string) (token salt salt' : string) :
  cipher_error e (scrypt token salt) = cipher_error e (scrypt token salt').
Proof. unfold cipher_error. rewrite !scrypt_length. reflexivity. Qed.

Lemma cache_write_error_fixed (w w' : World) :
  fixed w w' -> cache_write_error w' = cache_write_error w.
Proof.
  intros [He _ _ _ Hen]. unfold cache_write_error. rewrite He.
  destruct (truthy (env w !! "OP_CONFIG_CACHE")); [|reflexivity].
  destruct (env w !! "OP_SERVICE_ACCOUNT_TOKEN"); [|reflexivity].
  apply cipher_error_scrypt.
Qed.

(** The value of a load depends on the promise, on the answer of the
    resolver, and on what is fixed. *)
Lemma load_value_ext (vars : gmap string string) (i i' : Instance) (w w' : World) :
  fixed w w' ->
  loadingPromise i' = loadingPromise i ->
  op_outcome i' w' = op_outcome i w ->
  load_value vars i' w' = load_value vars i w.
Proof.
  intros Hf Hp Ho. unfold load_value, load_text.
  rewrite Hp, Ho, (cache_write_error_fixed _ _ Hf), (fixed_env _ _ Hf). reflexivity.
Qed.

Lemma resumed_load_value vars s r s' :
  resumed vars s r s' ->
  load_value vars (this s') (world s') = load_value vars (this s) (world s).
Proof.
  intros Hres. apply load_value_ext.
  - apply (rs_fixed _ _ _ _ Hres).
  - apply (resumed_promise _ _ _ _ Hres).
  - apply (resumed_outcome _ _ _ _ Hres).
Qed.

Lemma selection_count_extends (w w' : World) :
  extends not_selection (trace w) (trace w') ->
  count_events is_source_selection w' = count_events is_source_selection w.
Proof.
  intros Hx. apply extends_count. eapply extends_weaken; [|exact Hx].
  intros [] Hn; try reflexivity. exfalso. apply Hn. reflexivity.
Qed.

Lemma read_cache_file_ext (w w' : World) (name : string) :
  fixed w w' -> files w' = files w -> read_cache_file w' name = read_cache_file w name.
Proof.
  intros [He _ _ _ _] Hfi. unfold read_cache_file. rewrite He, Hfi. reflexivity.
Qed.

(** Source selection depends on what is fixed and on the files. *)
Lemma source_ext (opts : gmap string string) (i : Instance) (w w' : World) :
  fixed w w' -> files w' = files w ->
  source_outcome opts i w' = source_outcome opts i w /\
  source_instance opts i w' = source_instance opts i w.
Proof.
  intros Hf Hfi. unfold source_outcome, source_instance.
  rewrite (read_cache_file_ext _ _ _ Hf Hfi), Hfi, (config_path_fixed _ _ Hf),
    (fixed_env _ _ Hf).
  split.
  - destruct (negb _); [reflexivity|].
    destruct (files w !! _); [reflexivity|]. apply resolve_outcome_fixed, Hf.
  - destruct (negb _); [reflexivity|].
    destruct (files w !! _); [reflexivity|]. apply resolve_instance_fixed, Hf.
Qed.

(** One run of source selection leaves exactly one marker. *)
Lemma enter_state_selection (vars : gmap string string) (s : State) :
  loadingPromise (this s) = None ->
  count_events is_source_selection (world (enter_state vars s))
  = S (count_events is_source_selection (world s)).
Proof.
  intros Hlp. unfold enter_state. rewrite Hlp. rsimpl.
  destruct (source_state_world vars s) as (_ & _ & _ & _ & _ & Hx).
  unfold count_events.
  rewrite (extends_count is_source_selection
             (EvSourceSelection :: trace (world s))).
  - rewrite filter_cons, decide_True by reflexivity. reflexivity.
  - eapply extends_weaken; [|exact Hx]. intros []; cbn; try tauto; reflexivity.
Qed.

(** *** Calls of one instance's [read] *)

Lemma enter_state_idem (vars : gmap string string) (s : State) :
  enter_state vars (enter_state vars s) = enter_state vars s.
Proof.
  unfold enter_state at 1.
  destruct (loadingPromise (this (enter_state vars s))) eqn:Hlp; [reflexivity|].
  exfalso. unfold enter_state in Hlp.
  destruct (loadingPromise (this s)) eqn:Hs; [congruence|discriminate].
Qed.

Lemma enter_all_spec (n : nat) (vars opts : gmap string string) (s : State) :
  truthy (env (world s) !! "OP_CACHE_IV") = true ->
  truthy (env (world s) !! "OP_SERVICE_ACCOUNT_TOKEN") = true ->
  enter_all n vars opts s
  = (Ok (repeat (Ok tt) n), match n with O => s | S _ => enter_state vars s end).
Proof.
  revert s. induction n as [|n IH]; intros s Hiv Htok; [reflexivity|].
  cbn [enter_all repeat]. mstep. rewrite read_enter_spec by assumption.
  destruct (enter_state_world vars s) as (Hf & _).
  rewrite IH by (rewrite (fixed_env _ _ Hf); assumption).
  destruct n; [reflexivity|]. rewrite enter_state_idem. reflexivity.
Qed.

Lemma resume_all_spec (n : nat) (vars opts : gmap string string) (s : State) :
  exists rs s',
    resume_all vars opts (repeat (Ok tt) n) s = (Ok rs, s') /\
    fixed (world s) (world s') /\
    count_events is_source_selection (world s')
    = count_events is_source_selection (world s) /\
    match load_value vars (this s) (world s) with
    | Ok v => rs = map (fun k => Ok (length (heap (world s)) + k)) (seq 0 n) /\
              heap (world s') = heap (world s) ++ replicate n v
    | Err e => rs = repeat (Err e) n /\ heap (world s') = heap (world s)
    end.
Proof.
  revert s. induction n as [|n IH]; intros s.
  - exists [], s. split; [reflexivity|]. split; [apply fixed_refl|].
    split; [reflexivity|].
    destruct (load_value _ _ _); cbn; rewrite ?app_nil_r; auto.
  - cbn [repeat resume_all]. mstep.
    destruct (read_resume_spec vars opts s) as (r & s1 & Hr & Hres).
    rewrite Hr.
    destruct (IH s1) as (rs & s' & Hrs & Hf' & Hcnt & Hval).
    rewrite Hrs. exists (r :: rs), s'. split; [reflexivity|].
    split; [eapply fixed_trans; [apply (rs_fixed _ _ _ _ Hres)|exact Hf']|].
    split.
    { rewrite Hcnt. apply selection_count_extends.
      apply (resumed_not_selection _ _ _ _ Hres). }
    rewrite (resumed_load_value _ _ _ _ Hres) in Hval.
    destruct Hres as [Hres_r Hres_h _ _ _ _].
    destruct (load_value vars (this s) (world s)) as [v|e].
    + destruct Hval as [-> Hh]. subst r. rewrite Hh, Hres_h. split.
      * cbn [seq map]. rewrite Nat.add_0_r. f_equal.
        rewrite <- seq_shift, map_map. apply map_ext. intros k. f_equal.
        rewrite length_app. cbn [length]. lia.
      * rewrite <- app_assoc. reflexivity.
    + destruct Hval as [-> Hh]. subst r. split; [reflexivity|congruence].
Qed.

(** *** Calls of the static [read] *)

Lemma waiting_instance_spec (vars : gmap string string) (w : World) :
  this (enter_state vars {| world := w; this := new_Config |})
  = waiting_instance vars w.
Proof. apply enter_state_this. reflexivity. Qed.

Lemma waiting_instance_ext (vars : gmap string string) (w w' : World) :
  fixed w w' -> files w' = files w ->
  waiting_instance vars w' = waiting_instance vars w.
Proof.
  intros Hf Hfi. unfold waiting_instance.
  destruct (source_ext vars new_Config w w' Hf Hfi) as [-> ->]. reflexivity.
Qed.

Lemma static_read_enter_spec (vars opts : gmap string string) (w : World) :
  staticCache w = None ->
  truthy (env w !! "OP_CACHE_IV") = true ->
  truthy (env w !! "OP_SERVICE_ACCOUNT_TOKEN") = true ->
  exists w1,
    static_read_enter vars opts w = (Waiting (waiting_instance vars w), w1) /\
    fixed w w1 /\ files w1 = files w /\ heap w1 = heap w /\
    staticCache w1 = None /\
    count_events is_source_selection w1 = S (count_events is_source_selection w).
Proof.
  intros Hs Hiv Htok. set (s0 := {| world := w; this := new_Config |}).
  exists (world (enter_state vars s0)).
  destruct (enter_state_world vars s0) as (Hf & Hfi & _ & Hh & Hsc).
  refine (conj _ (conj Hf (conj Hfi (conj Hh (conj _ _))))).
  - unfold static_read_enter. rewrite Hs. fold s0.
    rewrite read_enter_spec by assumption.
    unfold s0. rewrite waiting_instance_spec. reflexivity.
  - rewrite Hsc. exact Hs.
  - apply (enter_state_selection vars s0). reflexivity.
Qed.

Lemma static_enter_all_spec (n : nat) (vars opts : gmap string string) (w : World) :
  staticCache w = None ->
  truthy (env w !! "OP_CACHE_IV") = true ->
  truthy (env w !! "OP_SERVICE_ACCOUNT_TOKEN") = true ->
  exists w1,
    static_enter_all n vars opts w = (repeat (Waiting (waiting_instance vars w)) n, w1) /\
    fixed w w1 /\ files w1 = files w /\ heap w1 = heap w /\
    count_events is_source_selection w1 = n + count_events is_source_selection w.
Proof.
  revert w. induction n as [|n IH]; intros w Hs Hiv Htok.
  - exists w. split; [reflexivity|]. split; [apply fixed_refl|]. auto.
  - destruct (static_read_enter_spec vars opts w Hs Hiv Htok)
      as (w1 & Hen & Hf & Hfi & Hh & Hs1 & Hc).
    destruct (IH w1 Hs1) as (w2 & Hall & Hf2 & Hfi2 & Hh2 & Hc2).
    { rewrite (fixed_env _ _ Hf). exact Hiv. }
    { rewrite (fixed_env _ _ Hf). exact Htok. }
    exists w2. cbn [static_enter_all repeat]. rewrite Hen, Hall.
    rewrite (waiting_instance_ext _ _ _ Hf Hfi).
    split; [reflexivity|]. split; [eapply fixed_trans; eassumption|].
    split; [congruence|]. split; [congruence|]. rewrite Hc2, Hc. lia.
Qed.

Lemma static_settle_all_spec (n : nat) (vars opts : gmap string string)
      (i : Instance) (w : World) :
  exists rs w',
    static_settle_all vars opts (repeat (Waiting i) n) w = (rs, w') /\
    count_events is_source_selection w' = count_events is_source_selection w /\
    match load_value vars i w with
    | Ok v => rs = map (fun k => Ok (length (heap w) + k)) (seq 0 n) /\
              heap w' = heap w ++ replicate n v
    | Err e => rs = repeat (Err e) n /\ heap w' = heap w
    end.
Proof.
  revert w. induction n as [|n IH]; intros w.
  - exists [], w. split; [reflexivity|]. split; [reflexivity|].
    destruct (load_value _ _ _); cbn; rewrite ?app_nil_r; auto.
  - cbn [repeat static_settle_all static_read_settle].
    set (s := {| world := w; this := i |}).
    destruct (read_resume_spec vars opts s) as (r & s1 & Hr & Hres).
    rewrite Hr.
    set (w1 := match r with
               | Ok config => with_staticCache (Some config) (world s1)
               | Err _ => world s1
               end).
    assert (Hw1 : fixed w w1 /\ heap w1 = heap (world s1) /\
                  trace w1 = trace (world s1)).
    { unfold w1. destruct r; (split; [|split; reflexivity]);
        try apply fixed_with_staticCache; apply (rs_fixed _ _ _ _ Hres). }
    destruct Hw1 as (Hf1 & Hh1 & Ht1).
    destruct (IH w1) as (rs & w' & Hrs & Hcnt & Hval).
    exists (r :: rs), w'. split.
    { destruct r; fold w1; rewrite Hrs; reflexivity. }
    split.
    { rewrite Hcnt. unfold count_events. rewrite Ht1.
      apply (selection_count_extends (world s) (world s1)).
      apply (resumed_not_selection _ _ _ _ Hres). }
    rewrite (load_value_ext vars i i w w1 Hf1 eq_refl (op_outcome_fixed _ _ _ Hf1))
      in Hval.
    destruct Hres as [Hres_r Hres_h _ _ _ _]. cbn [world this s] in *.
    rewrite Hh1 in Hval.
    destruct (load_value vars i w) as [v|e].
    + destruct Hval as [-> Hh]. subst r. rewrite Hh, Hres_h. split.
      * cbn [seq map]. rewrite Nat.add_0_r. f_equal.
        rewrite <- seq_shift, map_map. apply map_ext. intros k. f_equal.
        rewrite length_app. cbn [length]. lia.
      * rewrite <- app_assoc. reflexivity.
    + destruct Hval as [-> Hh]. subst r. split; [reflexivity|congruence].
Qed.

(** *** What the callers hold *)

Lemma group_delivered (w w' : World) (rs : list (result nat)) (n : nat)
      (lv : result tval) :
  match lv with
  | Ok v => rs = map (fun k => Ok (length (heap w) + k)) (seq 0 n) /\
            heap w' = heap w ++ replicate n v
  | Err e => rs = repeat (Err e) n /\ heap w' = heap w
  end ->
  same_value_own_objects w rs w' n /\
  Forall (fun r => delivered r w' = match lv with
                                   | Ok v => Ok (Some v)
                                   | Err e => Err e
                                   end) rs.
Proof.
  destruct lv as [v|e]; intros [-> Hh].
  - split; [left; exists v; auto|].
    apply Forall_map, Forall_forall. intros k Hk. apply elem_of_seq in Hk.
    unfold delivered. rewrite Hh. f_equal.
    rewrite lookup_app_r by lia.
    apply lookup_replicate_2. lia.
  - split; [right; exists e; auto|].
    apply Forall_forall. intros r Hr. apply list_elem_of_In, repeat_spec in Hr.
    subst r. reflexivity.
Qed.

Lemma solo_delivered (vars opts : gmap string string) (w : World) :
  staticCache w = None ->
  truthy (env w !! "OP_CACHE_IV") = true ->
  truthy (env w !! "OP_SERVICE_ACCOUNT_TOKEN") = true ->
  (let '(r, w') := static_read vars opts w in delivered r w')
  = match load_value vars (waiting_instance vars w) w with
    | Ok v => Ok (Some v)
    | Err e => Err e
    end.
Proof.
  intros Hs Hiv Htok.
  destruct (static_read_spec vars opts w Hs Hiv Htok) as (r & s' & _ & Hres & ->).
  set (s0 := {| world := w; this := new_Config |}) in *.
  destruct (enter_state_world vars s0) as (Hf & _ & _ & Hh & _).
  assert (Hlv : load_value vars (this (enter_state vars s0)) (world (enter_state vars s0))
                = load_value vars (waiting_instance vars w) w).
  { unfold s0. rewrite waiting_instance_spec. apply load_value_ext; auto.
    apply op_outcome_fixed, Hf. }
  destruct Hres as [Hres_r Hres_h _ _ _ _]. rewrite Hlv in Hres_r, Hres_h.
  rewrite Hh in Hres_r, Hres_h. cbn [world s0] in *.
  destruct (load_value vars (waiting_instance vars w) w) as [v|e]; subst r.
  - unfold delivered. f_equal.
    change (heap (with_staticCache (Some (length (heap w))) (world s')))
      with (heap (world s')).
    rewrite Hres_h. rewrite lookup_app_r by lia.
    rewrite Nat.sub_diag. reflexivity.
  - reflexivity.
Qed.
Lemma enter_load_value (vars : gmap string string) (w : World) :
  let s1 := enter_state vars {| world := w; this := new_Config |} in
  load_value vars (this s1) (world s1) = load_value vars (waiting_instance vars w) w.
Proof.
  intros s1. unfold s1. rewrite waiting_instance_spec.
  destruct (enter_state_world vars {| world := w; this := new_Config |}) as (Hf & _).
  apply load_value_ext; auto. apply op_outcome_fixed, Hf.
Qed.
End Concurrency.

(** The sample platform satisfies the laws. *)
Lemma sample_mask_length (k : bytes) :
  length k = key_size -> length (Sample.mask k) = block_size.
Proof.
  intros Hk. unfold Sample.mask. rewrite length_xor_bytes;
    rewrite length_take, ?length_drop, Hk; reflexivity.
Qed.

#[global] Instance sample_cipher_laws : @BlockCipherLaws Sample.xor_cipher.
Proof.
  split.
  - intros k b Hk Hb. cbn. rewrite length_xor_bytes; [assumption|].
    rewrite sample_mask_length; congruence.
  - intros k b Hk Hb. cbn. apply xor_bytes_involutive.
    rewrite sample_mask_length; congruence.
Qed.

#[global] Instance sample_laws : @PlatformLaws Sample.platform.
Proof.
  split.
  - exact sample_cipher_laws.
  - intros token salt. change (length (Sample.kdf token salt) = key_size).
    unfold Sample.kdf.
    rewrite length_take, length_app, repeat_length. unfold key_size. lia.
Qed.

(** * The claims *)

(** ** C1: what the [op] filter resolves *)

(** The filter answers with the lookup of the configured path, whatever
    its argument is. *)
Lemma op_filter_ignores_its_argument `{platform : Platform}
      (path path' : option string) (s : State) :
  fst (op_filter path s) = fst (op_filter path' s) /\
  fst (op_filter path s) = fst (read1Password (config_path (world s)) s).
Proof.
  rewrite !op_filter_spec, read1Password_spec. split; reflexivity.
Qed.

Section C1.
#[local] Existing Instance Sample.platform.
Import Scenario.

(** C1 (the code departs from the claim). The local document asks for
    ['op://my-vault/my-app/password' | op]; the store holds ["hunter2"]
    under that path and another text under the configured path. The load
    resolves the configured path and interpolates that text; the path given
    in the template is never resolved. *)
Theorem C1_op_resolves_the_configured_path :
  let '(r, w') := static_read ∅ ∅ local_secret_world in
  remote local_secret_world !! password = Some "hunter2" /\
  r = Ok 0 /\
  heap w' = [TTab [("database", TTab [("password", TStr "from-the-config-path")])]] /\
  network w' = [EvResolve notes; EvCreateClient "app" "v1.0.0"].
Proof. vm_compute. repeat split; reflexivity. Qed.
End C1.

(** ** C2: memoization by path *)

(** Once a lookup has stored a truthy value, later lookups of the path
    return it and leave the state alone: no event, no round trip. *)
Lemma read1Password_memoizes `{platform : Platform} (path : string) (s s' : State)
      (v : string) :
  read1Password path s = (Ok (VStr v), s') ->
  truthy (Some v) = true ->
  read1Password path s' = (Ok (VStr v), s').
Proof.
  intros Hr Hv. rewrite read1Password_spec in Hr.
  injection Hr as Ho Hs.
  assert (Hhit : pathCache_get (pathCache (this s')) path = Some (VStr v)).
  { subst s'. unfold resolve_state, resolve_instance, resolve_outcome in *. rsimpl.
    destruct (truthy_val (pathCache_get (pathCache (this s)) path)) eqn:Hc.
    - destruct (pathCache_get (pathCache (this s)) path) as [[]|]; cbn in *; congruence.
    - destruct (client_outcome (this s) (world s)); [|discriminate].
      unfold fetch_outcome in Ho. destruct (remote (world s) !! path); [|discriminate].
      injection Ho as ->. rsimpl. apply pathCache_get_insert. }
  rewrite read1Password_hit; rewrite Hhit; [reflexivity|exact Hv].
Qed.

Section C2.
#[local] Existing Instance Sample.platform.
Import Scenario.

(** C2 (the code departs from the claim). The configured path holds the
    empty string and the local document looks it up twice: the store is
    asked twice, because the memo is tested for truthiness and an empty
    value is not truthy. *)
Theorem C2_empty_value_is_fetched_again :
  let '(r, w') := static_read ∅ ∅ empty_secret_world in
  remote empty_secret_world !! password = Some "" /\
  env empty_secret_world !! "OP_CONFIG_PATH" = Some password /\
  r = Ok 0 /\
  heap w' = [TTab [("a", TStr ""); ("b", TStr "")]] /\
  count_events (is_resolve password) w' = 2.
Proof. vm_compute. repeat split; reflexivity. Qed.
End C2.

(** ** C3: calls made while a load is in flight *)

Section C3.
Context `{PlatformLaws}.

(** C3 (amended). The promise that is shared belongs to an instance, and
    the static [read] makes an instance for every call that finds no memo.
    So [n] calls of the static [read] made before any of them settles run
    source selection [n] times, while [n] calls of one instance's [read]
    run it once (each of them still renders and parses for itself). Either
    way every caller is handed an object of its own, and what it holds is
    what a lone call of the static [read] delivers; or every caller gets
    the error the lone call gets. *)
Theorem C3_source_selection_is_shared_per_instance
        (n : nat) (vars opts : gmap string string) (w : World) :
  staticCache w = None ->
  truthy (env w !! "OP_CACHE_IV") = true ->
  truthy (env w !! "OP_SERVICE_ACCOUNT_TOKEN") = true ->
  let solo := (let '(r, w1) := static_read vars opts w in delivered r w1) in
  (let '(rs, w') := static_read_concurrently n vars opts w in
   count_events is_source_selection w' = n + count_events is_source_selection w /\
   same_value_own_objects w rs w' n /\
   Forall (fun r => delivered r w' = solo) rs) /\
  (let '(r, s') := read_concurrently n vars opts {| world := w; this := new_Config |} in
   exists rs,
     r = Ok rs /\
     count_events is_source_selection (world s')
     = Nat.min n 1 + count_events is_source_selection w /\
     same_value_own_objects w rs (world s') n /\
     Forall (fun r => delivered r (world s') = solo) rs).
Proof.
  intros Hs Hiv Htok solo. unfold solo.
  rewrite (solo_delivered vars opts w Hs Hiv Htok). split.
  - unfold static_read_concurrently.
    destruct (static_enter_all_spec n vars opts w Hs Hiv Htok)
      as (w1 & -> & Hf & _ & Hh & Hc).
    destruct (static_settle_all_spec n vars opts (waiting_instance vars w) w1)
      as (rs & w' & -> & Hc' & Hval).
    rewrite (load_value_ext vars _ _ w w1 Hf eq_refl (op_outcome_fixed _ _ _ Hf)),
      Hh in Hval.
    split; [congruence|]. apply group_delivered, Hval.
  - set (s0 := {| world := w; this := new_Config |}).
    unfold read_concurrently. mstep.
    rewrite (enter_all_spec n vars opts s0 Hiv Htok).
    destruct n as [|n].
    + exists []. split; [reflexivity|]. split; [reflexivity|].
      split; [|constructor].
      right. exists TypeError. split; reflexivity.
    + destruct (resume_all_spec (S n) vars opts (enter_state vars s0))
        as (rs & s' & Hrs & _ & Hc & Hval).
      rewrite Hrs. exists rs. split; [reflexivity|].
      split.
      { rewrite Hc, (enter_state_selection vars s0) by reflexivity.
        destruct n; reflexivity. }
      pose proof (enter_load_value vars w) as Hlv. cbv zeta in Hlv. fold s0 in Hlv.
      destruct (enter_state_world vars s0) as (_ & _ & _ & Hh & _).
      rewrite Hlv, Hh in Hval.
      apply group_delivered, Hval.
Qed.
End C3.

Section C3_examples.
#[local] Existing Instance Sample.platform.
Import Scenario.

(** Two calls of the static [read] while the first is in flight: source
    selection runs twice, the store is asked twice, and the memo ends up
    being the object of the second caller. *)
Lemma C3_counterexample :
  let '(rs, w') := static_read_concurrently 2 ∅ ∅ remote_world in
  rs = [Ok 0; Ok 1] /\
  count_events is_source_selection w' = 2 /\
  network w' = [EvResolve notes; EvCreateClient "app" "v1.0.0";
                EvResolve notes; EvCreateClient "app" "v1.0.0"] /\
  staticCache w' = Some 1.
Proof. vm_compute. repeat split; reflexivity. Qed.

Lemma C3_witness :
  let solo := (let '(r, w1) := static_read ∅ ∅ remote_world in delivered r w1) in
  (let '(rs, w') := static_read_concurrently 3 ∅ ∅ remote_world in
   count_events is_source_selection w'
   = 3 + count_events is_source_selection remote_world /\
   same_value_own_objects remote_world rs w' 3 /\
   Forall (fun r => delivered r w' = solo) rs) /\
  (let '(r, s') := read_concurrently 3 ∅ ∅ {| world := remote_world; this := new_Config |} in
   exists rs,
     r = Ok rs /\
     count_events is_source_selection (world s')
     = Nat.min 3 1 + count_events is_source_selection remote_world /\
     same_value_own_objects remote_world rs (world s') 3 /\
     Forall (fun r => delivered r (world s') = solo) rs).
Proof.
  assert (H1 : staticCache remote_world = None) by reflexivity.
  assert (H2 : truthy (env remote_world !! "OP_CACHE_IV") = true)
    by (vm_compute; reflexivity).
  assert (H3 : truthy (env remote_world !! "OP_SERVICE_ACCOUNT_TOKEN") = true)
    by (vm_compute; reflexivity).
  pose proof (C3_source_selection_is_shared_per_instance 3 ∅ ∅ remote_world H1 H2 H3)
    as P.
  exact P.
Defined.
End C3_examples.

(** ** C4: the override file *)

Section C4.
Context {platform : Platform}.

Lemma count_network_extends (w w' : World) :
  extends not_network (trace w) (trace w') ->
  count_events is_network w' = count_events is_network w.
Proof. apply extends_count. Qed.

(** C4 (amended). When the override file exists and the IV, the token
    and the config path are set, source selection returns the file's
    contents as they are and contacts nothing; the load as a whole contacts
    the store only through a use of [op] in the document: when the document
    uses no [op], no network event occurs during the load. *)
Theorem C4_override_file_is_the_document
        (vars opts : gmap string string) (w : World) (doc : string) :
  staticCache w = None ->
  truthy (env w !! "OP_CACHE_IV") = true ->
  truthy (env w !! "OP_SERVICE_ACCOUNT_TOKEN") = true ->
  truthy (env w !! "OP_CONFIG_PATH") = true ->
  files w !! standardConfigFilename vars = Some doc ->
  (exists s1,
      readWrapped vars {| world := w; this := new_Config |} = (Ok (VStr doc), s1) /\
      count_events is_network (world s1) = count_events is_network w) /\
  (template_uses_op (VStr doc) = false ->
   forall r w', static_read vars opts w = (r, w') ->
                count_events is_network w' = count_events is_network w).
Proof.
  intros Hs Hiv Htok Hcfg Hfile.
  set (s0 := {| world := w; this := new_Config |}).
  assert (Hsrc : source_outcome vars new_Config w = Ok (VStr doc)).
  { unfold source_outcome. rewrite Hcfg, Hfile. reflexivity. }
  assert (Hst : source_state vars s0
                = logged (LogFound (standardConfigFilename vars))
                    (after_cache_read (cacheFileName vars)
                       (read_cache_file w (cacheFileName vars)) (entered s0))).
  { unfold source_state. subst s0. rsimpl. rewrite Hcfg, Hfile. reflexivity. }
  assert (Hq : extends not_network (trace w) (trace (world (source_state vars s0)))).
  { rewrite Hst. unfold logged. rsimpl. constructor; [reflexivity|].
    eapply extends_trans;
      [|eapply extends_weaken; [|apply after_cache_read_trace]].
    - unfold entered, s0. rsimpl. constructor; [reflexivity|constructor].
    - intros []; cbn; try tauto. reflexivity. }
  split.
  - exists (source_state vars s0). split.
    + rewrite readWrapped_spec by reflexivity. subst s0. rsimpl. rewrite Hsrc.
      reflexivity.
    + apply count_network_extends. exact Hq.
  - intros Hop r w' Hread.
    destruct (static_read_spec vars opts w Hs Hiv Htok) as (r0 & s' & Hr & Hres & Hsr).
    fold s0 in Hr, Hres. rewrite Hsr in Hread. injection Hread as <- <-.
    assert (Hlp : loadingPromise (this (enter_state vars s0)) = Some (Ok (VStr doc))).
    { rewrite enter_state_this by reflexivity. subst s0. rsimpl. rewrite Hsrc.
      reflexivity. }
    assert (Hrend : rendered_state vars (enter_state vars s0)
                    = logged LogReadTook (enter_state vars s0)).
    { unfold rendered_state. rewrite Hlp. unfold template_state.
      unfold template_uses_op in Hop.
      destruct (compile doc) as [ns|]; [|reflexivity].
      apply render_state_no_op. exact Hop. }
    assert (Hw : extends not_network (trace w) (trace (world s'))).
    { eapply extends_trans; [exact Hq|].
      eapply extends_trans;
        [|eapply extends_weaken; [apply housekeeping_not_network|apply (rs_after _ _ _ _ Hres)]].
      rewrite Hrend. unfold logged, enter_state, s0. rsimpl.
      constructor; [reflexivity|constructor]. }
    rewrite <- (count_network_extends _ _ Hw).
    destruct r0; reflexivity.
Qed.
End C4.

Section C4_examples.
#[local] Existing Instance Sample.platform.
Import Scenario.

(** The local document of the README example: the load contacts the
    store although the override file exists. *)
Lemma C4_counterexample :
  let '(r, w') := static_read ∅ ∅ local_secret_world in
  files local_secret_world !! standardConfigFilename ∅ = Some secret_document /\
  r = Ok 0 /\
  network w' = [EvResolve notes; EvCreateClient "app" "v1.0.0"].
Proof. vm_compute. repeat split; reflexivity. Qed.

Lemma C4_witness :
  files local_world !! standardConfigFilename ∅ = Some plain_document /\
  (exists s1,
      readWrapped ∅ {| world := local_world; this := new_Config |}
      = (Ok (VStr plain_document), s1) /\
      count_events is_network (world s1) = count_events is_network local_world) /\
  (template_uses_op (VStr plain_document) = false ->
   forall r w', static_read ∅ ∅ local_world = (r, w') ->
                count_events is_network w' = count_events is_network local_world).
Proof.
  assert (H1 : staticCache local_world = None) by reflexivity.
  assert (H2 : truthy (env local_world !! "OP_CACHE_IV") = true)
    by (vm_compute; reflexivity).
  assert (H3 : truthy (env local_world !! "OP_SERVICE_ACCOUNT_TOKEN") = true)
    by (vm_compute; reflexivity).
  assert (H4 : truthy (env local_world !! "OP_CONFIG_PATH") = true)
    by (vm_compute; reflexivity).
  assert (H5 : files local_world !! standardConfigFilename ∅ = Some plain_document)
    by (vm_compute; reflexivity).
  split; [exact H5|].
  exact (C4_override_file_is_the_document ∅ ∅ local_world plain_document
           H1 H2 H3 H4 H5).
Defined.
End C4_examples.

(** ** C5: when the config path is required *)

Section C5.
Context {platform : Platform}.

End C5.

Section C5_examples.
#[local] Existing Instance Sample.platform.
Import Scenario.


End C5_examples.

(** ** C6: the memo and the copies *)

(** The object the first successful load returns is the memo itself. *)
Lemma static_read_returns_the_memo `{platform : Platform}
      (vars opts : gmap string string) (w w' : World) (l : nat) :
  staticCache w = None ->
  static_read vars opts w = (Ok l, w') ->
  staticCache w' = Some l.
Proof.
  intros Hs. unfold static_read. rewrite Hs.
  destruct (read vars opts _) as [[config|e] s]; intros [= <- <-]; reflexivity.
Qed.

(** Every later call, and [readLoaded], returns a new object. *)
Lemma readLoaded_returns_a_copy `{platform : Platform} (w : World) (l : nat) :
  staticCache w = Some l ->
  readLoaded w
  = (Ok (length (heap w)),
     with_heap (heap w ++ [json_clone (default (TTab []) (heap w !! l))]) w).
Proof. intros Hs. unfold readLoaded, clone_static. rewrite Hs. reflexivity. Qed.

Section C6.
#[local] Existing Instance Sample.platform.
Import Scenario.

(** C6 (the code departs from the claim). The first load returns object
    [0] and keeps the same object as the memo; when the caller changes it,
    [readLoaded] hands the changed value to the next caller. *)
Theorem C6_first_caller_holds_the_memo :
  let '(r1, w1) := static_read ∅ ∅ remote_world in
  let w2 := mutate 0 (TTab [("db", TTab [("host", TStr "changed")])]) w1 in
  let '(r2, w3) := readLoaded w2 in
  r1 = Ok 0 /\ staticCache w1 = Some 0 /\
  heap w1 !! 0 = Some (TTab [("db", TTab [("host", TStr "db.internal")])]) /\
  r2 = Ok 1 /\
  heap w3 !! 1 = Some (TTab [("db", TTab [("host", TStr "changed")])]).
Proof. vm_compute. repeat split; reflexivity. Qed.
End C6.

(** ** C7: [encrypt] and [decrypt] *)

Section C7.
Context `{PlatformLaws}.

(** C7 (amended). Under an initialization vector of one block, what
    [encrypt] makes of a text with a key derived from a token and a salt,
    [decrypt] turns back into the text with the same key. With another key
    [decrypt] may raise or may return some other text; when it raises on
    the contents of the cache file, the attempt on the file logs the error
    and ends normally, the path cache untouched. *)
Theorem C7_round_trip_and_a_raised_decrypt_is_a_miss
        (text token salt : string) (s : State) (name contents d salt' : string)
        (err : error) :
  valid_iv (env (world s)) ->
  (exists c, encrypt (env (world s)) text (scrypt token salt) = Ok c /\
             decrypt (env (world s)) c (scrypt token salt) = Ok text) /\
  (files (world s) !! name = Some contents ->
   split_colon contents = (d, Some salt') ->
   truthy (Some d) = true ->
   env (world s) !! "OP_SERVICE_ACCOUNT_TOKEN" = Some token ->
   decrypt (env (world s)) d (scrypt token salt') = Err err ->
   load_cache_file name s = (Ok tt, logged (LogCacheUnreadable err) s)).
Proof.
  intros Hiv. split.
  - apply decrypt_encrypt; [exact Hiv|apply scrypt_length].
  - intros Hf Hsp Hd Htok Hfail. rewrite load_cache_file_spec.
    rewrite (read_cache_file_unreadable (world s) name contents d salt' token err);
      try assumption; [reflexivity|].
    left. exact Hfail.
Qed.
End C7.

Section C7_examples.
Import Scenario.

(** Under AES-256 itself: the empty path cache encrypted with the first
    key decrypts with the second key without an error, to fifteen bytes
    that are not the text. The last byte of the block happens to be
    [01], which is a complete padding. *)
Lemma C7_counterexample :
  let e : gmap string string := {[ "OP_CACHE_IV" := iv ]} in
  let c := "7bd4f85838f66afaa4cd8aa3d2fd5b2b" in
  key_of_the_write <> key_of_the_other_salt /\
  encrypt (block_cipher := AES.aes256) e "{}" key_of_the_write = Ok c /\
  decrypt (block_cipher := AES.aes256) e c key_of_the_write = Ok "{}" /\
  decrypt (block_cipher := AES.aes256) e c key_of_the_other_salt
  = Ok (string_of_bytes (from_hex "706ab8ad51d4736c53c7ddbfa1b86b")).
Proof.
  split; [|vm_compute; repeat split; reflexivity].
  intros Heq. apply (f_equal to_hex) in Heq. vm_compute in Heq. discriminate.
Qed.

#[local] Existing Instance Sample.platform.

Lemma C7_witness :
  let s := {| world := swapped_salt_world; this := new_Config |} in
  valid_iv (env swapped_salt_world) /\
  (exists c, encrypt (env swapped_salt_world) plain_document
               (scrypt token "41414141414141414141414141414141") = Ok c /\
             decrypt (env swapped_salt_world) c
               (scrypt token "41414141414141414141414141414141") = Ok plain_document) /\
  load_cache_file "/app/config.cache" s = (Ok tt, logged (LogCacheUnreadable CryptoError) s).
Proof.
  intros s.
  assert (Hiv : valid_iv (env (world s))).
  { exists iv. split; vm_compute; reflexivity. }
  assert (H1 : files (world s) !! "/app/config.cache"
               = Some "f0acf67bb83a68ac0c8fec54397729fd:42424242424242424242424242424242")
    by (vm_compute; reflexivity).
  assert (H2 : split_colon "f0acf67bb83a68ac0c8fec54397729fd:42424242424242424242424242424242"
               = ("f0acf67bb83a68ac0c8fec54397729fd",
                  Some "42424242424242424242424242424242"))
    by (vm_compute; reflexivity).
  assert (H3 : truthy (Some "f0acf67bb83a68ac0c8fec54397729fd") = true) by reflexivity.
  assert (H4 : env (world s) !! "OP_SERVICE_ACCOUNT_TOKEN" = Some token)
    by (vm_compute; reflexivity).
  assert (H5 : decrypt (env (world s)) "f0acf67bb83a68ac0c8fec54397729fd"
                 (scrypt token "42424242424242424242424242424242") = Err CryptoError)
    by (vm_compute; reflexivity).
  pose proof (C7_round_trip_and_a_raised_decrypt_is_a_miss
                plain_document token "41414141414141414141414141414141" s
                "/app/config.cache"
                "f0acf67bb83a68ac0c8fec54397729fd:42424242424242424242424242424242"
                "f0acf67bb83a68ac0c8fec54397729fd" "42424242424242424242424242424242"
                CryptoError Hiv) as [P1 P2].
  split; [exact Hiv|]. split; [exact P1|]. exact (P2 H1 H2 H3 H4 H5).
Defined.
End C7_examples.

(** ** C8: a cache file that cannot be read *)

Section C8.
Context {platform : Platform}.

(** The load resolves to [load_value] of the state source selection
    leaves. *)
Lemma static_read_result (vars opts : gmap string string) (w : World) :
  staticCache w = None ->
  truthy (env w !! "OP_CACHE_IV") = true ->
  truthy (env w !! "OP_SERVICE_ACCOUNT_TOKEN") = true ->
  let i := with_loadingPromise (Some (source_outcome vars new_Config w))
             (source_instance vars new_Config w) in
  exists w',
    static_read vars opts w
    = (match load_value vars i w with
       | Ok _ => Ok (length (heap w))
       | Err e => Err e
       end, w') /\
    heap w' = match load_value vars i w with
              | Ok v => heap w ++ [v]
              | Err _ => heap w
              end.
Proof.
  intros Hs Hiv Htok i.
  destruct (static_read_spec vars opts w Hs Hiv Htok) as (r & s' & _ & Hres & Hsr).
  set (s0 := {| world := w; this := new_Config |}) in *.
  destruct (enter_state_world vars s0) as (Hf & _ & Hd & Hh & _).
  assert (Hi : this (enter_state vars s0) = i) by (apply enter_state_this; reflexivity).
  assert (Hlv : load_value vars (this (enter_state vars s0)) (world (enter_state vars s0))
                = load_value vars i w)
    by (rewrite Hi; apply load_value_fixed; assumption).
  destruct Hres as [Hr Hheap _ _ _ _]. rewrite Hlv, Hh in Hr, Hheap. subst s0. rsimpl.
  eexists. split; [rewrite Hsr, Hr; reflexivity|].
  destruct (load_value vars i w); exact Hheap.
Qed.

(** A ciphertext that is cut short or is not hexadecimal fails the
    attempt: an odd number of digits, no byte at all (the first two
    characters are not hexadecimal digits), or bytes that are not a whole
    number of blocks. *)
Lemma damaged_ciphertext_fails_the_attempt (w : World) (d salt token : string) :
  Nat.odd (String.length d) = true \/ from_hex d = [] \/
  length (from_hex d) mod block_size <> 0 ->
  exists e, attempt_fails w d salt token e.
Proof.
  intros Hd. destruct (decrypt_damaged (env w) d (scrypt token salt) Hd) as [e He].
  exists e. left. exact He.
Qed.

End C8.

Section C8_examples.
#[local] Existing Instance Sample.platform.
Import Scenario.


(** A digit too many: [decipher.update] refuses the ciphertext, and the
    file is unreadable. *)
Lemma odd_length_ciphertext_is_unreadable :
  let d := "f0f397058c1b49cf7bac943b421553dcc6cbfd02b8207bb555ddf9576d7b3ca8f8f99856da254083529f973f020848889e98831ae1003f934adedf70515c68f5b885e656dc556bcc1bcbd47b5a5763fe0" in
  let salt := "41414141414141414141414141414141" in
  files odd_length_cache_world !! cacheFileName ∅ = Some (d +:+ ":" +:+ salt) /\
  Nat.odd (String.length d) = true /\
  attempt_fails odd_length_cache_world d salt token TypeError /\
  read_cache_file odd_length_cache_world (cacheFileName ∅) = CacheUnreadable TypeError.
Proof.
  intros d salt. split; [vm_compute; reflexivity|]. split; [vm_compute; reflexivity|].
  split; [left|]; vm_compute; reflexivity.
Qed.

(** The text [null] decrypts and parses: the attempt on such a file does
    not fail, it logs that the cache is used. *)
Lemma null_plaintext_is_not_a_failed_attempt :
  decrypt (env null_cache_world) "d195a0288e095e9f3abcde665d132bff" (scrypt token "00ff")
  = Ok "null" /\
  JSON_parse "null" = JsonOther /\
  read_cache_file null_cache_world (cacheFileName ∅) = CacheForeign /\
  forall e, ~ attempt_fails null_cache_world "d195a0288e095e9f3abcde665d132bff" "00ff"
              token e.
Proof.
  assert (Hd : decrypt (env null_cache_world) "d195a0288e095e9f3abcde665d132bff"
                 (scrypt token "00ff") = Ok "null") by (vm_compute; reflexivity).
  assert (Hj : JSON_parse "null" = JsonOther) by (vm_compute; reflexivity).
  split; [exact Hd|]. split; [exact Hj|]. split; [vm_compute; reflexivity|].
  intros e [He|(text & Ht & Hr & _)].
  - rewrite Hd in He. discriminate.
  - rewrite Hd in Ht. injection Ht as <-. rewrite Hj in Hr. discriminate.
Qed.
End C8_examples.

(** ** C9: the salt of a cache write *)

Section C9.
Context {platform : Platform}.

(** The current [read]: whenever the cache file is written, its salt is
    the draw made for that write, the key is derived from the token and that
    salt, and the contents are [ciphertext:salt]. *)
Lemma write_cache_uses_a_fresh_salt (opts : gmap string string) (ttl : string)
      (s s' : State) :
  write_cache opts ttl s = (Ok tt, s') ->
  exists token encrypted,
    let salt := to_hex (entropy (world s) (draws (world s))) in
    env (world s) !! "OP_SERVICE_ACCOUNT_TOKEN" = Some token /\
    encrypt (env (world s)) (json_stringify (pathCache (this s))) (scrypt token salt)
    = Ok encrypted /\
    files (world s') !! cacheFileName opts = Some (encrypted +:+ ":" +:+ salt) /\
    draws (world s') = S (draws (world s)).
Proof.
  rewrite write_cache_spec. cbv zeta.
  destruct (env (world s) !! "OP_SERVICE_ACCOUNT_TOKEN") as [token|]; [|discriminate].
  destruct (encrypt _ _ _) as [encrypted|] eqn:He; [|discriminate].
  intros [= <-]. exists token, encrypted. rsimpl.
  repeat split; auto. apply lookup_insert_eq.
Qed.

(** The older [readWrapped]: when the cache file read at the start does
    not decrypt, the document is fetched and the file is written again
    under the salt that was read from it, not under the draw made for this
    call. *)
Lemma legacy_write_reuses_the_salt_read
      (opts : gmap string string) (s : State)
      (contents d salt token cfg doc name version ttl encrypted : string) (e : error) :
  loadingPromise (this s) = None ->
  files (world s) !! standardConfigFilename opts = None ->
  env (world s) !! "OP_CONFIG_PATH" = Some cfg -> truthy (Some cfg) = true ->
  files (world s) !! cacheFileName opts = Some contents ->
  split_colon contents = (d, Some salt) -> truthy (Some d) = true ->
  env (world s) !! "OP_SERVICE_ACCOUNT_TOKEN" = Some token ->
  decrypt (env (world s)) d (scrypt token salt) = Err e ->
  package_json (world s) = Some (name, version) -> auth_ok (world s) = true ->
  remote (world s) !! cfg = Some doc ->
  env (world s) !! "OP_CONFIG_CACHE" = Some ttl -> truthy (Some ttl) = true ->
  encrypt (env (world s)) doc (scrypt token salt) = Ok encrypted ->
  exists s',
    Legacy.readWrapped opts s = (Ok doc, s') /\
    files (world s') !! cacheFileName opts = Some (encrypted +:+ ":" +:+ salt) /\
    draws (world s') = S (draws (world s)).
Proof.
  intros Hlp Hstd Hcfg Hcfgt Hfile Hsp Hd Htok Hdec Hpkg Hauth Hrem Httl Httlt Henc.
  destruct s as [w i]. cbn [world this] in *.
  assert (Hc : truthy (Some contents) = true).
  { destruct contents; [discriminate|reflexivity]. }
  unfold Legacy.readWrapped, scryptSync. mstep. rewrite Hlp. mstep.
  rewrite Hstd. mstep. rewrite Hcfg, Hcfgt. mstep. rewrite Hfile. mstep.
  rewrite Hc, Hsp. mstep. rewrite Htok. mstep. rewrite Httl. mstep. rewrite Hd.
  mstep. cbn [from_option id property_key]. rewrite Hdec. mstep. rewrite Hpkg. mstep.
  rewrite Hauth. mstep. rewrite Hrem. mstep. rewrite Httlt. mstep. rewrite Henc.
  mstep. eexists. split; [reflexivity|]. rsimpl.
  split; [apply lookup_insert_eq|reflexivity].
Qed.
End C9.

Section C9_examples.
#[local] Existing Instance Sample.platform.
Import Scenario.

(** C9 (the code departs from the claim, in [config.js]). The cache file
    holds garbage, a colon and the salt ["00ff"]. The older [readWrapped]
    draws a salt (the sixteen bytes ["A"]), reads the file, fails to decrypt
    it, fetches the document, and writes the file anew: the key comes from
    the token and ["00ff"], and the file ends in [":00ff"]. *)
Theorem C9_legacy_write_reuses_the_salt_of_the_file_read :
  let s := {| world := garbage_cache_world; this := new_Config |} in
  let '(r, s') := Legacy.readWrapped ∅ s in
  r = Ok plain_document /\
  to_hex (entropy (world s) (draws (world s))) = "41414141414141414141414141414141" /\
  draws (world s') = 1 /\
  exists encrypted,
    encrypt (env (world s)) plain_document (scrypt token "00ff") = Ok encrypted /\
    files (world s') !! cacheFileName ∅ = Some (encrypted +:+ ":00ff").
Proof.
  vm_compute. repeat split; try reflexivity.
  eexists. split; reflexivity.
Qed.

(** The current [read] on the same input: the file is written under the
    draw made for the write. *)
Lemma current_write_draws_its_salt :
  let '(r, w') := static_read ∅ ∅ garbage_cache_world in
  r = Ok 0 /\
  (fun contents => snd (split_colon contents)) <$> files w' !! cacheFileName ∅
  = Some (Some "41414141414141414141414141414141").
Proof. vm_compute. split; reflexivity. Qed.
End C9_examples.

(** ** C10: the document in the path cache and in the cache file *)

Section C10.
#[local] Existing Instance Sample.platform.
Import Scenario.

(** C10 (the code departs from the claim). The store holds the empty
    document under the configured path and caching is on. The first load
    fetches the document and writes a cache file that holds it under the
    configured path. A second load in a new process decrypts that file and
    logs that the cache is used, and then asks the store again: the entry
    it has reconstructed is the empty string, which the test in
    [read1Password] takes for no entry. *)
Theorem C10_empty_document_is_fetched_again_despite_the_cache :
  let '(r1, w1) := static_read ∅ ∅ (caching empty_document_world) in
  let '(r2, w2) := static_read ∅ ∅ (restart w1) in
  r1 = Ok 0 /\
  network w1 = [EvResolve notes; EvCreateClient "app" "v1.0.0"] /\
  read_cache_file (restart w1) (cacheFileName ∅) = CacheLoaded {[notes := EmptyString]} /\
  r2 = Ok 0 /\
  In (EvLog LogCacheUsed) (trace w2) /\
  network w2 = [EvResolve notes; EvCreateClient "app" "v1.0.0"].
Proof. vm_compute. repeat split; try reflexivity. tauto. Qed.

(** With a document that is not empty the second load takes it from the
    cache file and does not reach the store. *)
Lemma cached_document_is_not_fetched_again :
  let '(r1, w1) := static_read ∅ ∅ (caching remote_world) in
  let '(r2, w2) := static_read ∅ ∅ (restart w1) in
  r1 = Ok 0 /\
  network w1 = [EvResolve notes; EvCreateClient "app" "v1.0.0"] /\
  read_cache_file (restart w1) (cacheFileName ∅) = CacheLoaded {[notes := plain_document]} /\
  r2 = Ok 0 /\
  heap w2 = heap w1 /\
  In (EvLog LogCacheUsed) (trace w2) /\
  network w2 = [].
Proof. vm_compute. repeat split; try reflexivity. tauto. Qed.
End C10.

(** * Further properties of the class *)

(** ** The checks [read] starts with *)

Section Checks.
Context {platform : Platform}.

(** A load without a memo that fails in the checks stops there. *)
Lemma static_read_stops_at_a_failed_check
      (vars opts : gmap string string) (w : World) (e : error) (s1 : State) :
  staticCache w = None ->
  read_enter vars opts {| world := w; this := new_Config |} = (Err e, s1) ->
  static_read vars opts w = (Err e, world s1).
Proof.
  intros Hs He. unfold static_read, read. rewrite Hs.
  change ((read_enter vars opts;; read_resume vars opts)
            {| world := w; this := new_Config |})
    with (match read_enter vars opts {| world := w; this := new_Config |} with
          | (Ok a, s1) => read_resume vars opts s1
          | (Err e, s1) => (Err e, s1)
          end).
  rewrite He. reflexivity.
Qed.

(** X1. Without a memo, a load in a process whose [OP_CACHE_IV] is unset
    or empty fails at once: the error carries the next 16 random bytes in
    hexadecimal as a suggestion, and but for that draw nothing has happened
    (no source selection, no log line, no file, no lookup), whatever else
    is configured. *)
Theorem read_without_iv_fails_with_a_suggestion
        (vars opts : gmap string string) (w : World) :
  staticCache w = None ->
  truthy (env w !! "OP_CACHE_IV") = false ->
  static_read vars opts w
  = (Err (OpCacheIVMissing (to_hex (entropy w (draws w)))),
     with_draws (S (draws w)) w).
Proof.
  intros Hs Hiv.
  apply (static_read_stops_at_a_failed_check vars opts w _ _ Hs
           (read_enter_no_iv vars opts {| world := w; this := new_Config |} Hiv)).
Qed.

(** X2. Without a memo and with the IV set, a load in a process whose
    [OP_SERVICE_ACCOUNT_TOKEN] is unset or empty fails with
    [ServiceTokenMissing] and leaves the process exactly as it was; an
    override file does not make the token optional. *)
Theorem read_without_token_fails_and_changes_nothing
        (vars opts : gmap string string) (w : World) :
  staticCache w = None ->
  truthy (env w !! "OP_CACHE_IV") = true ->
  truthy (env w !! "OP_SERVICE_ACCOUNT_TOKEN") = false ->
  static_read vars opts w = (Err ServiceTokenMissing, w).
Proof.
  intros Hs Hiv Htok.
  apply (static_read_stops_at_a_failed_check vars opts w _ _ Hs
           (read_enter_no_token vars opts {| world := w; this := new_Config |} Hiv Htok)).
Qed.
End Checks.

Section Checks_examples.
#[local] Existing Instance Sample.platform.
Import Scenario.

Lemma read_without_iv_witness :
  files (no_iv_world) !! "/app/config.toml" = Some plain_document /\
  static_read ∅ ∅ no_iv_world
  = (Err (OpCacheIVMissing "41414141414141414141414141414141"),
     with_draws 1 no_iv_world).
Proof.
  assert (H1 : staticCache no_iv_world = None) by reflexivity.
  assert (H2 : truthy (env no_iv_world !! "OP_CACHE_IV") = false)
    by (vm_compute; reflexivity).
  split; [vm_compute; reflexivity|].
  pose proof (read_without_iv_fails_with_a_suggestion ∅ ∅ no_iv_world H1 H2) as P.
  exact P.
Defined.

Lemma read_without_token_witness :
  files (no_token_world) !! "/app/config.toml" = Some plain_document /\
  static_read ∅ ∅ no_token_world = (Err ServiceTokenMissing, no_token_world).
Proof.
  assert (H1 : staticCache no_token_world = None) by reflexivity.
  assert (H2 : truthy (env no_token_world !! "OP_CACHE_IV") = true)
    by (vm_compute; reflexivity).
  assert (H3 : truthy (env no_token_world !! "OP_SERVICE_ACCOUNT_TOKEN") = false)
    by (vm_compute; reflexivity).
  split; [vm_compute; reflexivity|].
  pose proof (read_without_token_fails_and_changes_nothing ∅ ∅ no_token_world H1 H2 H3)
    as P.
  exact P.
Defined.
End Checks_examples.

(** ** The memo *)

Section Memo.
Context {platform : Platform}.

Lemma clone_static_spec (w : World) (l : nat) (v : tval) :
  heap w !! l = Some v ->
  clone_static l w = (Ok (length (heap w)), with_heap (heap w ++ [json_clone v]) w).
Proof. intros Hl. unfold clone_static. rewrite Hl. reflexivity. Qed.

Lemma run_call_memo (c : public_call) (w : World) (l : nat) :
  staticCache w = Some l -> run_call c w = clone_static l w.
Proof.
  intros Hs. destruct c; cbn [run_call]; unfold static_read, deaSyncRead, readLoaded;
    rewrite Hs; reflexivity.
Qed.

(** X3. Once the memo is set, every later call of [Config.read],
    [Config.deaSyncRead] and [Config.readLoaded], in any order and with any
    arguments, succeeds and returns a new object holding the JSON copy of
    the memo; the calls log nothing, read and write no file, reach no
    store, need no environment variable, and leave the memo and the object
    it names as they were. *)
Theorem memo_answers_every_later_call
        (cs : list public_call) (w : World) (l : nat) (v : tval) :
  staticCache w = Some l ->
  heap w !! l = Some v ->
  let '(rs, w') := run_calls cs w in
  rs = map (fun k => Ok (length (heap w) + k)) (seq 0 (length cs)) /\
  heap w' = heap w ++ replicate (length cs) (json_clone v) /\
  staticCache w' = Some l /\
  trace w' = trace w /\ files w' = files w /\ draws w' = draws w /\ env w' = env w.
Proof.
  revert w. induction cs as [|c cs IH]; intros w Hs Hl.
  - cbn. rewrite app_nil_r. auto 10.
  - cbn [run_calls length]. rewrite (run_call_memo c w l Hs), (clone_static_spec w l v Hl).
    set (w1 := with_heap (heap w ++ [json_clone v]) w).
    assert (Hl1 : heap w1 !! l = Some v).
    { unfold w1. cbn. apply lookup_app_l_Some. exact Hl. }
    specialize (IH w1 Hs Hl1). destruct (run_calls cs w1) as [rs w'].
    destruct IH as (-> & Hh & Hsc & Ht & Hf & Hd & He).
    rewrite Hh. unfold w1. cbn [heap with_heap].
    repeat split; try assumption.
    + cbn [seq map]. rewrite Nat.add_0_r. f_equal.
      rewrite <- seq_shift, map_map. apply map_ext. intros k. f_equal.
      rewrite length_app. cbn [length]. lia.
    + rewrite <- app_assoc. reflexivity.
Qed.

(** What a load without a memo leaves: the memo and the heap. *)
Lemma static_read_memo_and_heap (vars opts : gmap string string) (w : World) :
  staticCache w = None ->
  match static_read vars opts w with
  | (Ok l, w') => l = length (heap w) /\ staticCache w' = Some l /\
                  exists v, heap w' = heap w ++ [v]
  | (Err _, w') => staticCache w' = None /\ heap w' = heap w
  end.
Proof.
  intros Hs.
  destruct (truthy (env w !! "OP_CACHE_IV")) eqn:Hiv.
  2:{ rewrite (static_read_stops_at_a_failed_check vars opts w _ _ Hs
                 (read_enter_no_iv vars opts {| world := w; this := new_Config |} Hiv)).
      split; [exact Hs|reflexivity]. }
  destruct (truthy (env w !! "OP_SERVICE_ACCOUNT_TOKEN")) eqn:Htok.
  2:{ rewrite (static_read_stops_at_a_failed_check vars opts w _ _ Hs
                 (read_enter_no_token vars opts {| world := w; this := new_Config |} Hiv Htok)).
      split; [exact Hs|reflexivity]. }
  destruct (static_read_spec vars opts w Hs Hiv Htok) as (r & s' & _ & Hres & ->).
  set (s0 := {| world := w; this := new_Config |}) in *.
  destruct (enter_state_world vars s0) as (_ & _ & _ & Hh & Hsc).
  destruct Hres as [Hres_r Hres_h _ Hres_s _ _].
  rewrite Hh in Hres_r, Hres_h.
  destruct (load_value vars (this (enter_state vars s0)) (world (enter_state vars s0)))
    as [v|e]; subst r; cbn [world s0] in *.
  - split; [reflexivity|]. split; [reflexivity|]. exists v. exact Hres_h.
  - split; [rewrite Hres_s, Hsc; exact Hs|exact Hres_h].
Qed.

(** X4. A load that fails leaves no memo and no object behind: after it
    [Config.readLoaded] still raises "not loaded yet", and the next
    [Config.read] starts over. *)
Theorem failed_load_leaves_no_memo
        (vars opts : gmap string string) (w w' : World) (e : error) :
  staticCache w = None ->
  static_read vars opts w = (Err e, w') ->
  staticCache w' = None /\ heap w' = heap w /\
  readLoaded w' = (Err NotLoadedYet, w').
Proof.
  intros Hs Hr. pose proof (static_read_memo_and_heap vars opts w Hs) as H.
  rewrite Hr in H. destruct H as [Hn Hh].
  split; [exact Hn|]. split; [exact Hh|].
  unfold readLoaded. rewrite Hn. reflexivity.
Qed.

(** X5. The options given to [read] never reach source selection (the
    instance method hands its first argument, the variables, to
    [readWrapped] as options): with the same variables, two loads that
    differ only in their options read the same cache file and the same
    override file, and resolve to the same value or the same error. *)
Theorem options_do_not_reach_source_selection
        (vars opts opts' : gmap string string) (w : World) :
  fst (static_read vars opts w) = fst (static_read vars opts' w) /\
  heap (snd (static_read vars opts w)) = heap (snd (static_read vars opts' w)) /\
  staticCache (snd (static_read vars opts w))
  = staticCache (snd (static_read vars opts' w)).
Proof.
  destruct (staticCache w) as [l|] eqn:Hs.
  { unfold static_read. rewrite Hs. auto. }
  destruct (truthy (env w !! "OP_CACHE_IV")) eqn:Hiv.
  2:{ rewrite !(static_read_stops_at_a_failed_check vars _ w _ _ Hs
                  (read_enter_no_iv vars _ {| world := w; this := new_Config |} Hiv)). auto. }
  destruct (truthy (env w !! "OP_SERVICE_ACCOUNT_TOKEN")) eqn:Htok.
  2:{ rewrite !(static_read_stops_at_a_failed_check vars _ w _ _ Hs
                  (read_enter_no_token vars _ {| world := w; this := new_Config |} Hiv Htok)). auto. }
  destruct (static_read_result vars opts w Hs Hiv Htok) as (w1 & Hr1 & Hh1).
  destruct (static_read_result vars opts' w Hs Hiv Htok) as (w2 & Hr2 & Hh2).
  cbv zeta in *.
  pose proof (static_read_memo_and_heap vars opts w Hs) as Hm1.
  pose proof (static_read_memo_and_heap vars opts' w Hs) as Hm2.
  rewrite Hr1 in *. rewrite Hr2 in *. cbn [fst snd]. rewrite Hh1, Hh2.
  split; [reflexivity|]. split; [reflexivity|].
  destruct (load_value _ _ w) as [v|e].
  - destruct Hm1 as (_ & -> & _), Hm2 as (_ & -> & _). reflexivity.
  - destruct Hm1 as (-> & _), Hm2 as (-> & _). reflexivity.
Qed.
End Memo.

Section Memo_examples.
#[local] Existing Instance Sample.platform.
Import Scenario.

Lemma memo_answers_every_later_call_witness :
  let w := snd (static_read ∅ ∅ remote_world) in
  let '(rs, w') :=
    run_calls [CallReadLoaded; CallRead ∅ ∅; CallDeaSyncRead ∅ ∅; CallReadLoaded] w in
  rs = map (fun k => Ok (length (heap w) + k)) (seq 0 4) /\
  heap w' = heap w ++ replicate 4
              (json_clone (TTab [("db", TTab [("host", TStr "db.internal")])])) /\
  staticCache w' = Some 0 /\
  trace w' = trace w /\ files w' = files w /\ draws w' = draws w /\ env w' = env w.
Proof.
  intros w.
  assert (H1 : staticCache w = Some 0) by (vm_compute; reflexivity).
  assert (H2 : heap w !! 0 = Some (TTab [("db", TTab [("host", TStr "db.internal")])]))
    by (vm_compute; reflexivity).
  pose proof (memo_answers_every_later_call
                [CallReadLoaded; CallRead ∅ ∅; CallDeaSyncRead ∅ ∅; CallReadLoaded]
                w 0 _ H1 H2) as P.
  exact P.
Defined.

Lemma failed_load_leaves_no_memo_witness :
  let w' := snd (static_read ∅ ∅ unreachable_document_world) in
  static_read ∅ ∅ unreachable_document_world = (Err (SecretFetchError notes), w') /\
  staticCache w' = None /\ heap w' = heap unreachable_document_world /\
  readLoaded w' = (Err NotLoadedYet, w').
Proof.
  intros w'.
  assert (H1 : staticCache unreachable_document_world = None) by reflexivity.
  assert (H2 : static_read ∅ ∅ unreachable_document_world
               = (Err (SecretFetchError notes), w')) by (vm_compute; reflexivity).
  split; [exact H2|].
  pose proof (failed_load_leaves_no_memo ∅ ∅ unreachable_document_world w'
                (SecretFetchError notes) H1 H2) as P.
  exact P.
Defined.
End Memo_examples.

(** ** The cache file *)

Lemma hex_digit_not_colon (n : N) : hex_digit n <> ":"%char.
Proof.
  unfold hex_digit. destruct n as [|p]; [discriminate|].
  do 4 (destruct p as [p|p|]; try discriminate).
Qed.

Lemma hex_encode_no_colon (b : bytes) : Forall (fun c => c <> ":"%char) (hex_encode b).
Proof.
  induction b as [|c b IH]; cbn [hex_encode]; [constructor|].
  repeat constructor; try apply hex_digit_not_colon. exact IH.
Qed.

Lemma until_colon_without_colon (l : list ascii) :
  Forall (fun c => c <> ":"%char) l ->
  until_colon (string_of_list_ascii l) = (string_of_list_ascii l, None).
Proof.
  induction 1 as [|c l Hc _ IH]; [reflexivity|].
  cbn [string_of_list_ascii until_colon].
  destruct (Ascii.eqb_spec c ":"%char); [contradiction|]. rewrite IH. reflexivity.
Qed.

Lemma until_colon_at_the_colon (l : list ascii) (rest : string) :
  Forall (fun c => c <> ":"%char) l ->
  until_colon (string_of_list_ascii l +:+ String ":" rest)
  = (string_of_list_ascii l, Some rest).
Proof.
  induction 1 as [|c l Hc _ IH]; [reflexivity|].
  change (string_of_list_ascii (c :: l) +:+ String ":" rest)
    with (String c (string_of_list_ascii l +:+ String ":" rest)).
  cbn [string_of_list_ascii until_colon].
  destruct (Ascii.eqb_spec c ":"%char); [contradiction|].
  rewrite IH. reflexivity.
Qed.

(** What [read] writes, [split(':')] takes apart again. *)
Lemma split_colon_hex (a b : bytes) :
  split_colon (to_hex a +:+ ":" +:+ to_hex b) = (to_hex a, Some (to_hex b)).
Proof.
  unfold split_colon, to_hex, string_of_bytes.
  change (":" +:+ string_of_list_ascii (hex_encode b))
    with (String ":" (string_of_list_ascii (hex_encode b))).
  rewrite until_colon_at_the_colon by apply hex_encode_no_colon.
  cbn [fmap option_fmap option_map].
  rewrite until_colon_without_colon by apply hex_encode_no_colon. reflexivity.
Qed.

Section CacheFile.
Context `{PlatformLaws}.

Lemma decrypt_empty (e : gmap string string) (key : bytes) (text : string) :
  decrypt e "" key <> Ok text.
Proof.
  unfold decrypt. destruct (e !! "OP_CACHE_IV"); [|discriminate].
  destruct (negb _); [discriminate|]. destruct (negb _); discriminate.
Qed.

(** X7. What the cache write of one load leaves on disk, the cache
    attempt of a later load turns back into the same path cache: the
    write stores [ciphertext:salt] with a salt it has just drawn, and the
    attempt splits at the colon, derives the key from the token and that
    salt, decrypts and parses. It needs the IV to be one block, the token
    to be set as it was, and the path cache to survive [JSON.parse] of its
    [JSON.stringify]. *)
Theorem written_cache_is_read_back
        (opts : gmap string string) (ttl token : string) (s : State) :
  valid_iv (env (world s)) ->
  env (world s) !! "OP_SERVICE_ACCOUNT_TOKEN" = Some token ->
  json_parse (json_stringify (pathCache (this s))) = Some (pathCache (this s)) ->
  exists s1 c,
    write_cache opts ttl s = (Ok tt, s1) /\
    files (world s1) !! cacheFileName opts
    = Some (c +:+ ":" +:+ to_hex (entropy (world s) (draws (world s)))) /\
    forall i,
      load_cache_file (cacheFileName opts) {| world := world s1; this := i |}
      = (Ok tt, logged LogCacheUsed
                  {| world := world s1; this := with_pathCache (pathCache (this s)) i |}).
Proof.
  intros Hiv Htok Hjson.
  set (salt := to_hex (entropy (world s) (draws (world s)))).
  set (key := scrypt token salt).
  set (text := json_stringify (pathCache (this s))).
  assert (Hk : length key = key_size) by apply scrypt_length.
  destruct (encrypt_ok (env (world s)) text key Hiv Hk) as (ivhex & Hivhex & Henc).
  destruct (decrypt_encrypt (env (world s)) text key Hiv Hk) as (c & Henc' & Hdec).
  rewrite Henc in Henc'. injection Henc' as Hc.
  pose proof (write_cache_spec opts ttl s) as Hw. cbv zeta in Hw.
  rewrite Htok in Hw. fold salt key text in Hw. rewrite Henc, Hc in Hw.
  eexists _, c. split; [exact Hw|]. rsimpl.
  split; [apply lookup_insert_eq|].
  intros i. rewrite load_cache_file_spec. rsimpl. f_equal.
  unfold read_cache_file. rsimpl. rewrite lookup_insert_eq.
  assert (Hne : c <> "") by (intros ->; exact (decrypt_empty _ _ _ Hdec)).
  assert (Hsplit : split_colon (c +:+ ":" +:+ salt) = (c, Some salt)).
  { subst c. apply split_colon_hex. }
  rewrite Hsplit, Htok.
  assert (Ht1 : truthy (Some (c +:+ ":" +:+ salt)) = true).
  { destruct c; [contradiction|reflexivity]. }
  assert (Ht2 : truthy (Some c) = true).
  { destruct c; [contradiction|reflexivity]. }
  rewrite Ht1, Ht2. fold key. rewrite Hdec. fold text. unfold text.
  apply json_parse_strings in Hjson. rewrite Hjson. reflexivity.
Qed.
End CacheFile.

Section CacheFile_examples.
#[local] Existing Instance Sample.platform.
Import Scenario.

Lemma written_cache_is_read_back_witness :
  let s := {| world := caching remote_world;
              this := with_pathCache {[notes := plain_document]} new_Config |} in
  exists s1 c,
    write_cache ∅ "300" s = (Ok tt, s1) /\
    files (world s1) !! cacheFileName ∅
    = Some (c +:+ ":" +:+ to_hex (entropy (world s) (draws (world s)))) /\
    forall i,
      load_cache_file (cacheFileName ∅) {| world := world s1; this := i |}
      = (Ok tt, logged LogCacheUsed
                  {| world := world s1; this := with_pathCache (pathCache (this s)) i |}).
Proof.
  intros s.
  assert (H1 : valid_iv (env (world s))).
  { exists iv. split; vm_compute; reflexivity. }
  assert (H2 : env (world s) !! "OP_SERVICE_ACCOUNT_TOKEN" = Some token)
    by (vm_compute; reflexivity).
  assert (H3 : json_parse (json_stringify (pathCache (this s))) = Some (pathCache (this s)))
    by (vm_compute; reflexivity).
  pose proof (written_cache_is_read_back ∅ "300" token s H1 H2 H3) as P.
  exact P.
Defined.
End CacheFile_examples.

Section CacheAttempt.
Context {platform : Platform}.

(** X8. The attempt on the cache file never raises, whatever the file
    holds and whether or not it exists. It writes at most one log line and
    touches nothing else of the process; of the instance it changes only
    the path cache, and only when it logs that the cache is used. *)
Theorem cache_attempt_never_raises (name : string) (s : State) :
  exists s',
    load_cache_file name s = (Ok tt, s') /\
    (trace (world s') = trace (world s) \/
     exists m, trace (world s') = EvLog m :: trace (world s)) /\
    with_trace (fun _ => trace (world s)) (world s') = world s /\
    client (this s') = client (this s) /\
    loadingPromise (this s') = loadingPromise (this s) /\
    (pathCache (this s') = pathCache (this s) \/
     trace (world s') = EvLog LogCacheUsed :: trace (world s)).
Proof.
  rewrite load_cache_file_spec. eexists. split; [reflexivity|].
  destruct s as [w i]. destruct w.
  destruct (read_cache_file _ name); cbn; repeat split; eauto.
Qed.

(** X9. A cache file that exists but holds no colon (an empty file
    included) is reported as "not found" and otherwise ignored: the salt is
    [undefined], the key derivation raises, and the outer [catch] takes
    it. A file that begins with the colon is passed over without any log
    line. *)
Theorem cache_file_without_colon_is_reported_missing
        (name contents : string) (s : State) :
  files (world s) !! name = Some contents ->
  (snd (split_colon contents) = None ->
   load_cache_file name s = (Ok tt, logged (LogNotFound name) s)) /\
  (forall salt token,
      split_colon contents = ("", Some salt) ->
      env (world s) !! "OP_SERVICE_ACCOUNT_TOKEN" = Some token ->
      load_cache_file name s = (Ok tt, s)).
Proof.
  intros Hf. rewrite load_cache_file_spec. unfold read_cache_file. rewrite Hf.
  split.
  - intros Hn. f_equal.
    destruct (truthy (Some contents)); [|reflexivity].
    destruct (split_colon contents) as [d salt]. cbn in Hn. subst salt.
    destruct (env (world s) !! "OP_SERVICE_ACCOUNT_TOKEN"); reflexivity.
  - intros salt token Hsp Htok. f_equal.
    assert (Ht : truthy (Some contents) = true).
    { destruct contents; [discriminate|reflexivity]. }
    rewrite Ht, Hsp, Htok. cbn. destruct s; reflexivity.
Qed.
End CacheAttempt.

Section CacheAttempt_examples.
#[local] Existing Instance Sample.platform.
Import Scenario.

Lemma cache_file_without_colon_witness :
  let w := with_files (insert "/app/config.cache" "f0acf67bb83a68ac") (caching remote_world) in
  let s := {| world := w; this := new_Config |} in
  files w !! "/app/config.cache" = Some "f0acf67bb83a68ac" /\
  load_cache_file "/app/config.cache" s
  = (Ok tt, logged (LogNotFound "/app/config.cache") s).
Proof.
  intros w s.
  assert (H1 : files (world s) !! "/app/config.cache" = Some "f0acf67bb83a68ac")
    by (vm_compute; reflexivity).
  split; [exact H1|].
  pose proof (cache_file_without_colon_is_reported_missing
                "/app/config.cache" "f0acf67bb83a68ac" s H1) as [P _].
  exact (P eq_refl).
Defined.
End CacheAttempt_examples.

(** ** What a load writes *)

Section Writes.
Context {platform : Platform}.

(** The files after the second half of [read]. *)
Lemma read_resume_files (vars opts : gmap string string) (s : State)
      (r : result nat) (s' : State) :
  read_resume vars opts s = (r, s') ->
  match load_text vars (this s) (world s) with
  | Ok _ =>
      if truthy (env (world s) !! "OP_CONFIG_CACHE") then
        match cache_write_error (world s) with
        | None => exists content,
                    files (world s')
                    = <[cacheFileName opts := content]> (files (world s))
        | Some _ => files (world s') = files (world s)
        end
      else files (world s') = files (world s)
  | Err _ => files (world s') = files (world s)
  end.
Proof.
  pose proof (rendered_state_step vars s) as H2.
  unfold read_resume. mstep. unfold rendered_state in H2. unfold load_text.
  destruct (loadingPromise (this s)) as [[template|e]|] eqn:Hlp; mstep.
  2,3: intros [= _ <-]; reflexivity.
  rewrite processTemplate_spec. fold (logged LogReadTook s). rsimpl.
  set (b := vars ∪ env (world s)) in *.
  rewrite (ls_outcome _ _ (logged_step LogReadTook s s (lookup_step_refl s))).
  set (s1 := template_state template b (logged LogReadTook s)) in *.
  destruct H2 as [Hf Hfi Hd Hh Hsc Hp Ho Hi Ht].
  destruct (template_outcome (op_outcome (this s) (world s)) template b)
    as [config|e] eqn:Hto.
  2:{ intros [= _ <-]. exact Hfi. }
  unfold cache_write_error. rewrite (fixed_env _ _ Hf).
  destruct (truthy (env (world s) !! "OP_CONFIG_CACHE")) eqn:Httl.
  - rewrite write_cache_spec. cbv zeta.
    rewrite (fixed_env _ _ Hf), (fixed_entropy _ _ Hf), Hd.
    destruct (env (world s) !! "OP_SERVICE_ACCOUNT_TOKEN") as [token|] eqn:Htok;
      [rewrite encrypt_cipher_error|].
    2:{ intros [= _ <-]. exact Hfi. }
    destruct (cipher_error (env (world s)) _) as [err|] eqn:Hce.
    { intros [= _ <-]. exact Hfi. }
    mstep. rewrite ?(fixed_env _ _ Hf).
    destruct (truthy (env (world s) !! "CX_CONFIG_DUMP")); mstep;
      (destruct (toml_parse config) as [v|]; mstep;
       intros [= _ <-]; rsimpl; rewrite Hfi; eexists; reflexivity).
  - mstep. rewrite (fixed_env _ _ Hf).
    destruct (truthy (env (world s) !! "CX_CONFIG_DUMP")); mstep;
      (destruct (toml_parse config) as [v|]; mstep;
       intros [= _ <-]; rsimpl; exact Hfi).
Qed.

(** Only [toml.parse] raises [ParseError]. *)
Lemma resolve_outcome_not_parse_error (i : Instance) (w : World) (path : string) :
  resolve_outcome i w path <> Err ParseError.
Proof.
  unfold resolve_outcome, client_outcome, fetch_outcome.
  repeat case_match_goal; discriminate.
Qed.

Lemma source_outcome_not_parse_error (opts : gmap string string) (i : Instance)
      (w : World) :
  source_outcome opts i w <> Err ParseError.
Proof.
  unfold source_outcome. destruct (negb _); [discriminate|].
  destruct (files w !! _); [discriminate|]. apply resolve_outcome_not_parse_error.
Qed.

Lemma template_outcome_not_parse_error (o : result jsval) (template : jsval)
      (b : gmap string string) :
  template_outcome o template b <> Err ParseError.
Proof. unfold template_outcome. repeat case_match_goal; discriminate. Qed.

Lemma cache_write_error_not_parse_error (w : World) :
  cache_write_error w <> Some ParseError.
Proof.
  unfold cache_write_error, cipher_error. repeat case_match_goal; discriminate.
Qed.

(** The files after a load that got past the checks. *)
Lemma static_read_files (vars opts : gmap string string) (w : World) :
  staticCache w = None ->
  truthy (env w !! "OP_CACHE_IV") = true ->
  truthy (env w !! "OP_SERVICE_ACCOUNT_TOKEN") = true ->
  let '(r, w') := static_read vars opts w in
  match r with
  | Err ParseError =>
      if truthy (env w !! "OP_CONFIG_CACHE")
      then exists content, files w' = <[cacheFileName opts := content]> (files w)
      else files w' = files w
  | Err _ => files w' = files w
  | Ok _ =>
      if truthy (env w !! "OP_CONFIG_CACHE")
      then exists content, files w' = <[cacheFileName opts := content]> (files w)
      else files w' = files w
  end.
Proof.
  intros Hs Hiv Htok.
  destruct (static_read_spec vars opts w Hs Hiv Htok) as (r & s' & Hrr & Hres & ->).
  set (s0 := {| world := w; this := new_Config |}) in *.
  set (es := enter_state vars s0) in *.
  destruct (enter_state_world vars s0) as (Hf & Hfi & Hd & _ & _).
  fold es in Hf, Hfi, Hd. change (world s0) with w in Hf, Hfi, Hd.
  pose proof (read_resume_files vars opts es r s' Hrr) as Hfiles.
  destruct Hres as [Hres_r _ _ _ _ _]. unfold load_value in Hres_r.
  assert (Hlt : load_text vars (this es) (world es) <> Err ParseError).
  { unfold load_text.
    assert (Hp : loadingPromise (this es) = Some (source_outcome vars new_Config w)).
    { unfold es. rewrite enter_state_this by reflexivity. reflexivity. }
    rewrite Hp. destruct (source_outcome vars new_Config w) eqn:Hso.
    - apply template_outcome_not_parse_error.
    - intros [= ->]. exact (source_outcome_not_parse_error _ _ _ Hso). }
  rewrite (fixed_env _ _ Hf), Hfi in Hfiles.
  destruct (load_text vars (this es) (world es)) as [config|e] eqn:Hlte.
  2:{ subst r. destruct e; try exact Hfiles. contradiction. }
  pose proof (cache_write_error_not_parse_error (world es)) as Hcw.
  assert (Hoff : truthy (env w !! "OP_CONFIG_CACHE") = false ->
                 cache_write_error (world es) = None).
  { intros Hx. unfold cache_write_error. rewrite (fixed_env _ _ Hf), Hx. reflexivity. }
  destruct (truthy (env w !! "OP_CONFIG_CACHE")) eqn:Httl.
  - destruct (cache_write_error (world es)) as [e|].
    + subst r. destruct e; try exact Hfiles. contradiction.
    + destruct (toml_parse config); subst r; exact Hfiles.
  - rewrite (Hoff eq_refl) in Hres_r.
    destruct (toml_parse config); subst r; exact Hfiles.
Qed.

Lemma static_read_files_without_a_load (vars opts : gmap string string) (w : World) :
  staticCache w <> None \/ truthy (env w !! "OP_CACHE_IV") = false \/
  truthy (env w !! "OP_SERVICE_ACCOUNT_TOKEN") = false ->
  files (snd (static_read vars opts w)) = files w /\
  fst (static_read vars opts w) <> Err ParseError.
Proof.
  intros Hc. destruct (staticCache w) as [l|] eqn:Hs.
  { unfold static_read. rewrite Hs. split; [reflexivity|discriminate]. }
  destruct (truthy (env w !! "OP_CACHE_IV")) eqn:Hiv.
  2:{ rewrite (static_read_stops_at_a_failed_check vars opts w _ _ Hs
                 (read_enter_no_iv vars opts {| world := w; this := new_Config |} Hiv)).
      split; [reflexivity|discriminate]. }
  destruct (truthy (env w !! "OP_SERVICE_ACCOUNT_TOKEN")) eqn:Htok.
  2:{ rewrite (static_read_stops_at_a_failed_check vars opts w _ _ Hs
                 (read_enter_no_token vars opts {| world := w; this := new_Config |}
                    Hiv Htok)).
      split; [reflexivity|discriminate]. }
  destruct Hc as [Hc|[Hc|Hc]]; congruence.
Qed.

(** X10. Of the files, a load can change only the cache file named by
    its options, and with [OP_CONFIG_CACHE] unset or empty it changes no
    file at all. *)
Theorem load_writes_at_most_the_cache_file
        (vars opts : gmap string string) (w : World) :
  (forall name, name <> cacheFileName opts ->
                files (snd (static_read vars opts w)) !! name = files w !! name) /\
  (truthy (env w !! "OP_CONFIG_CACHE") = false ->
   files (snd (static_read vars opts w)) = files w).
Proof.
  assert (Hcases : files (snd (static_read vars opts w)) = files w \/
                   (truthy (env w !! "OP_CONFIG_CACHE") = true /\
                    exists content,
                      files (snd (static_read vars opts w))
                      = <[cacheFileName opts := content]> (files w))).
  { destruct (staticCache w) as [l|] eqn:Hs.
    { left. apply static_read_files_without_a_load. left. congruence. }
    destruct (truthy (env w !! "OP_CACHE_IV")) eqn:Hiv.
    2:{ left. apply static_read_files_without_a_load. auto. }
    destruct (truthy (env w !! "OP_SERVICE_ACCOUNT_TOKEN")) eqn:Htok.
    2:{ left. apply static_read_files_without_a_load. auto. }
    pose proof (static_read_files vars opts w Hs Hiv Htok) as Hf.
    destruct (static_read vars opts w) as [r w']. cbn [snd].
    destruct (truthy (env w !! "OP_CONFIG_CACHE")).
    - destruct r as [l|[]]; auto.
    - destruct r as [l|[]]; auto. }
  split.
  - intros name Hn. destruct Hcases as [->|(_ & content & ->)]; [reflexivity|].
    apply lookup_insert_ne. congruence.
  - intros Hoff. destruct Hcases as [Hx|(Hon & _)]; [exact Hx|congruence].
Qed.

(** X11. When a load fails, the cache file tells where: a load that
    fails with anything but [ParseError] has written no file, and a load
    with caching on that fails with [ParseError] has written the cache
    file all the same, because [read] writes the cache before it hands the
    rendered text to [toml.parse]. *)
Theorem failed_load_and_the_cache_file
        (vars opts : gmap string string) (w w' : World) (e : error) :
  static_read vars opts w = (Err e, w') ->
  (e <> ParseError -> files w' = files w) /\
  (e = ParseError -> truthy (env w !! "OP_CONFIG_CACHE") = true ->
   exists content, files w' = <[cacheFileName opts := content]> (files w)).
Proof.
  intros Hr.
  destruct (staticCache w) as [l|] eqn:Hs.
  { unfold static_read, clone_static in Hr. rewrite Hs in Hr. discriminate. }
  destruct (truthy (env w !! "OP_CACHE_IV")) eqn:Hiv.
  2:{ destruct (static_read_files_without_a_load vars opts w) as [Hf Hn]; [auto|].
      rewrite Hr in Hf, Hn. cbn in Hf, Hn. split; [auto|]. intros ->. contradiction. }
  destruct (truthy (env w !! "OP_SERVICE_ACCOUNT_TOKEN")) eqn:Htok.
  2:{ destruct (static_read_files_without_a_load vars opts w) as [Hf Hn]; [auto|].
      rewrite Hr in Hf, Hn. cbn in Hf, Hn. split; [auto|]. intros ->. contradiction. }
  pose proof (static_read_files vars opts w Hs Hiv Htok) as Hf. rewrite Hr in Hf.
  split.
  - intros Hne. destruct e; try exact Hf. contradiction.
  - intros -> Hon. rewrite Hon in Hf. exact Hf.
Qed.
End Writes.

Section Writes_examples.
#[local] Existing Instance Sample.platform.
Import Scenario.

Lemma failed_load_and_the_cache_file_witness :
  let w' := snd (static_read ∅ ∅ unquoted_document_world) in
  static_read ∅ ∅ unquoted_document_world = (Err ParseError, w') /\
  exists content,
    files w' = <[cacheFileName ∅ := content]> (files unquoted_document_world).
Proof.
  intros w'.
  assert (H1 : static_read ∅ ∅ unquoted_document_world = (Err ParseError, w'))
    by (vm_compute; reflexivity).
  assert (H2 : truthy (env unquoted_document_world !! "OP_CONFIG_CACHE") = true)
    by (vm_compute; reflexivity).
  split; [exact H1|].
  pose proof (failed_load_and_the_cache_file ∅ ∅ unquoted_document_world w'
                ParseError H1) as [_ P].
  exact (P eq_refl H2).
Defined.
End Writes_examples.

(** ** The client *)

Section Client.
Context {platform : Platform}.

Lemma count_events_app (p : event -> bool) (evs : list event) (w : World) :
  count_events p (with_trace (app evs) w)
  = length (filter (fun ev => p ev = true) evs) + count_events p w.
Proof.
  unfold count_events. cbn [trace with_trace]. rewrite filter_app, length_app.
  reflexivity.
Qed.

(** The clients a lookup makes: none on a hit, none when the instance has
    one, none when [package.json] is unusable, otherwise one. *)
Lemma count_client_of_resolve (i : Instance) (w w0 : World) (path : string) :
  count_events is_create_client (with_trace (app (resolve_events i w path)) w0)
  = (if truthy_val (pathCache_get (pathCache i) path) then 0
     else length (client_events i w))
    + count_events is_create_client w0.
Proof.
  rewrite count_events_app. f_equal.
  unfold resolve_events, client_events.
  repeat case_match_goal; reflexivity.
Qed.

Lemma resolve_state_keeps_at_most_its_client (c0 : nat) (path : string) (s : State) :
  at_most_its_client c0 s ->
  count_events is_create_client (world (resolve_state path s)) <= S c0 /\
  (forall v, resolve_outcome (this s) (world s) path = Ok v ->
             at_most_its_client c0 (resolve_state path s)).
Proof.
  intros Hinv. unfold at_most_its_client, resolve_state in *.
  cbn [world this].
  rewrite count_client_of_resolve.
  unfold resolve_outcome, resolve_instance, client_events, client_outcome.
  destruct (truthy_val (pathCache_get (pathCache (this s)) path)).
  { cbn [Nat.add]. split; [destruct Hinv as [Hc|[Hc _]]; lia|]. intros _ _. exact Hinv. }
  destruct Hinv as [Hc|[Hc Hcl]].
  - rewrite Hc. destruct (client (this s)) eqn:Hcl.
    + cbn [length Nat.add]. split; [lia|]. intros v _. left. reflexivity.
    + destruct (package_json (world s)) as [[name version]|]; cbn [length Nat.add];
        [|split; [lia|discriminate]].
      destruct (negb (truthy (Some name)) || negb (truthy (Some version)));
        cbn [length Nat.add]; [split; [lia|discriminate]|].
      split; [lia|]. destruct (auth_ok (world s)); [|discriminate].
      intros v _. right. split; [reflexivity|].
      destruct (remote (world s) !! path); reflexivity.
  - rewrite Hc, Hcl. cbn [length Nat.add]. split; [lia|]. intros v _. right.
    split; [reflexivity|].
    destruct (remote (world s) !! path); reflexivity.
Qed.

Lemma at_most_its_client_bound (c0 : nat) (s : State) :
  at_most_its_client c0 s -> count_events is_create_client (world s) <= S c0.
Proof. intros [Hc|[Hc _]]; lia. Qed.

Lemma op_state_keeps_at_most_its_client (c0 : nat) (arg : option string) (s : State) :
  at_most_its_client c0 s ->
  count_events is_create_client (world (op_state arg s)) <= S c0 /\
  (forall v, op_outcome (this s) (world s) = Ok v ->
             at_most_its_client c0 (op_state arg s)).
Proof.
  intros Hinv.
  destruct (resolve_state_keeps_at_most_its_client c0 (config_path (world s)) s Hinv)
    as [Hle Hok].
  unfold op_state, op_outcome in *.
  destruct (resolve_outcome (this s) (world s) (config_path (world s))) as [v|e].
  - split; [exact Hle|]. intros v' _. apply (Hok v). reflexivity.
  - split; [exact Hle|discriminate].
Qed.

Lemma render_state_clients (c0 : nat) (ns : list node) (b : gmap string string)
      (s : State) :
  at_most_its_client c0 s ->
  count_events is_create_client (world (render_state ns b s)) <= S c0.
Proof.
  revert s. induction ns as [|n ns IH]; intros s Hinv.
  - cbn [render_state]. apply at_most_its_client_bound, Hinv.
  - destruct n as [t|e|e]; cbn [render_state]; try (apply IH; exact Hinv).
    destruct (op_state_keeps_at_most_its_client c0 (eval_expr b e) s Hinv) as [Hle Hok].
    destruct (op_outcome (this s) (world s)) as [v|err]; [|exact Hle].
    apply IH. apply (Hok v). reflexivity.
Qed.

Lemma rendered_state_clients (c0 : nat) (vars : gmap string string) (s : State) :
  count_events is_create_client (world s) <= S c0 ->
  (forall template, loadingPromise (this s) = Some (Ok template) ->
                    at_most_its_client c0 s) ->
  count_events is_create_client (world (rendered_state vars s)) <= S c0.
Proof.
  intros Hle Hinv. unfold rendered_state.
  destruct (loadingPromise (this s)) as [[template|e]|]; try exact Hle.
  specialize (Hinv template eq_refl).
  unfold template_state. destruct template as [src|k]; [|exact Hle].
  destruct (compile src) as [ns|]; [|exact Hle].
  apply render_state_clients. exact Hinv.
Qed.

Lemma enter_state_clients (vars : gmap string string) (w : World) :
  let s0 := {| world := w; this := new_Config |} in
  let c0 := count_events is_create_client w in
  count_events is_create_client (world (enter_state vars s0)) <= S c0 /\
  (forall template,
      loadingPromise (this (enter_state vars s0)) = Some (Ok template) ->
      at_most_its_client c0 (enter_state vars s0)).
Proof.
  intros s0 c0.
  assert (H0 : at_most_its_client c0 (entered s0)) by (left; reflexivity).
  unfold enter_state. cbn [this s0 loadingPromise new_Config world].
  unfold source_state, source_outcome. cbn [this s0 world].
  destruct (negb (truthy (env w !! "OP_CONFIG_PATH"))).
  { split; [|discriminate]. apply (at_most_its_client_bound c0 (entered s0) H0). }
  set (c := read_cache_file w (cacheFileName vars)).
  set (s1 := after_cache_read (cacheFileName vars) c (entered s0)).
  assert (H1 : at_most_its_client c0 s1).
  { unfold s1. destruct c; exact H0. }
  assert (Hthis : this s1 = cache_instance c new_Config)
    by apply after_cache_read_this.
  destruct (files w !! standardConfigFilename vars) as [config|].
  { split; [|intros _ _; exact H1]. apply (at_most_its_client_bound c0 s1 H1). }
  set (s2 := logged (LogNotFound (standardConfigFilename vars)) s1).
  assert (H2 : at_most_its_client c0 s2) by exact H1.
  destruct (resolve_state_keeps_at_most_its_client c0 (config_path w) s2 H2)
    as [Hle Hok].
  split; [exact Hle|].
  intros template Hp. cbn [this with_loadingPromise loadingPromise] in Hp.
  injection Hp as Hp.
  assert (Hfx : fixed w (world s2)).
  { unfold s2, s1. destruct c; cbn; auto with frame. }
  assert (Ho : resolve_outcome (this s2) (world s2) (config_path w) = Ok template).
  { rewrite (resolve_outcome_fixed _ _ _ _ Hfx).
    change (this s2) with (this s1). rewrite Hthis. exact Hp. }
  destruct (Hok template Ho) as [Hc|[Hc Hcl]]; [left; exact Hc|right].
  split; [exact Hc|exact Hcl].
Qed.

(** X12. A load makes at most one 1Password client, however many
    lookups the document asks for: [createClient] is called at most once
    per call of [Config.read]. *)
Theorem load_creates_at_most_one_client
        (vars opts : gmap string string) (w : World) :
  count_events is_create_client (snd (static_read vars opts w))
  <= S (count_events is_create_client w).
Proof.
  destruct (staticCache w) as [l|] eqn:Hs.
  { unfold static_read. rewrite Hs. cbn. unfold count_events. cbn. lia. }
  destruct (truthy (env w !! "OP_CACHE_IV")) eqn:Hiv.
  2:{ rewrite (static_read_stops_at_a_failed_check vars opts w _ _ Hs
                 (read_enter_no_iv vars opts {| world := w; this := new_Config |} Hiv)).
      cbn. unfold count_events. cbn. lia. }
  destruct (truthy (env w !! "OP_SERVICE_ACCOUNT_TOKEN")) eqn:Htok.
  2:{ rewrite (static_read_stops_at_a_failed_check vars opts w _ _ Hs
                 (read_enter_no_token vars opts {| world := w; this := new_Config |}
                    Hiv Htok)).
      cbn. lia. }
  destruct (static_read_spec vars opts w Hs Hiv Htok) as (r & s' & _ & Hres & ->).
  destruct (enter_state_clients vars w) as [Hle Hinv]. cbv zeta in Hle, Hinv.
  set (es := enter_state vars {| world := w; this := new_Config |}) in *.
  pose proof (rendered_state_clients _ vars es Hle Hinv) as Hrs.
  pose proof (rs_after _ _ _ _ Hres) as Haf.
  assert (Hcount : count_events is_create_client (world s')
                   = count_events is_create_client (world (rendered_state vars es))).
  { apply extends_count. eapply extends_weaken; [|exact Haf].
    intros [] Hh; try reflexivity; destruct Hh. }
  assert (Htr : count_events is_create_client
                  (snd (r, match r with
                           | Ok config => with_staticCache (Some config) (world s')
                           | Err _ => world s'
                           end))
                = count_events is_create_client (world s'))
    by (destruct r; reflexivity).
  rewrite Htr, Hcount. exact Hrs.
Qed.
End Client.

(** ** The secret resolver *)

Section Resolver.
Context {platform : Platform}.

(** X13. A lookup changes the path cache at its own path at most. After
    a lookup that returns a string the path cache holds that string under
    the path; a lookup that fails, whether in making the client or in the
    store, leaves the path cache as it was, so the failure is not
    remembered and the next lookup tries again. *)
Theorem lookup_touches_the_path_cache_at_its_path_only (path : string) (s : State) :
  let '(r, s') := read1Password path s in
  (forall p, p <> path -> pathCache (this s') !! p = pathCache (this s) !! p) /\
  match r with
  | Ok (VStr v) => pathCache (this s') !! path = Some v
  | Ok (VProto _) => pathCache (this s') = pathCache (this s)
  | Err _ => pathCache (this s') = pathCache (this s)
  end.
Proof.
  rewrite read1Password_spec.
  unfold resolve_outcome, resolve_state, resolve_instance, fetch_outcome.
  cbn [this world]. unfold pathCache_get.
  destruct (pathCache (this s) !! path) as [v0|] eqn:Hpc; cbn [truthy_val].
  - destruct (truthy (Some v0)); cbn [default from_option id].
    + split; [reflexivity|exact Hpc].
    + destruct (client_outcome (this s) (world s)); [|split; reflexivity].
      destruct (remote (world s) !! path) as [r|]; cbn [pathCache with_pathCache with_client].
      * split; [intros p Hp; apply lookup_insert_ne; congruence|apply lookup_insert_eq].
      * split; reflexivity.
  - destruct (bool_decide (path ∈ object_prototype_keys)); cbn [truthy_val default from_option id].
    + split; reflexivity.
    + destruct (client_outcome (this s) (world s)); [|split; reflexivity].
      destruct (remote (world s) !! path) as [r|]; cbn [pathCache with_pathCache with_client].
      * split; [intros p Hp; apply lookup_insert_ne; congruence|apply lookup_insert_eq].
      * split; reflexivity.
Qed.
End Resolver.

(** ** Overlapping loads and the memo *)

Section OverlappingLoads.
Context `{PlatformLaws}.

Lemma static_enter_all_memo (n : nat) (vars opts : gmap string string) (w : World) :
  staticCache w = None ->
  truthy (env w !! "OP_CACHE_IV") = true ->
  truthy (env w !! "OP_SERVICE_ACCOUNT_TOKEN") = true ->
  staticCache (snd (static_enter_all n vars opts w)) = None.
Proof.
  revert w. induction n as [|n IH]; intros w Hs Hiv Htok; [exact Hs|].
  destruct (static_read_enter_spec vars opts w Hs Hiv Htok)
    as (w1 & Hen & Hf & _ & _ & Hs1 & _).
  cbn [static_enter_all]. rewrite Hen.
  specialize (IH w1 Hs1).
  rewrite !(fixed_env _ _ Hf) in IH. specialize (IH Hiv Htok).
  destruct (static_enter_all n vars opts w1). exact IH.
Qed.

Lemma static_settle_all_memo (n : nat) (vars opts : gmap string string)
      (i : Instance) (w : World) :
  staticCache (snd (static_settle_all vars opts (repeat (Waiting i) n) w))
  = match load_value vars i w, n with
    | Ok _, S k => Some (length (heap w) + k)
    | _, _ => staticCache w
    end.
Proof.
  revert w. induction n as [|n IH]; intros w.
  - cbn. destruct (load_value vars i w); reflexivity.
  - cbn [repeat static_settle_all static_read_settle].
    set (s := {| world := w; this := i |}).
    destruct (read_resume_spec vars opts s) as (r & s1 & Hr & Hres).
    rewrite Hr.
    set (w1 := match r with
               | Ok config => with_staticCache (Some config) (world s1)
               | Err _ => world s1
               end).
    assert (Hf1 : fixed w w1).
    { unfold w1. destruct r; try apply fixed_with_staticCache;
        apply (rs_fixed _ _ _ _ Hres). }
    specialize (IH w1).
    rewrite (load_value_ext vars i i w w1 Hf1 eq_refl (op_outcome_fixed _ _ _ Hf1)) in IH.
    assert (Hgoal : staticCache (snd (static_settle_all vars opts (repeat (Waiting i) n) w1))
                    = match load_value vars i w with
                      | Ok _ => Some (length (heap w) + n)
                      | Err _ => staticCache w
                      end).
    { rewrite IH. destruct Hres as [Hres_r Hres_h _ Hres_s _ _]. cbn [world this s] in *.
      destruct (load_value vars i w) as [v|e]; subst r; unfold w1.
      - destruct n as [|k]; cbn [staticCache with_staticCache heap].
        + f_equal. lia.
        + rewrite Hres_h, length_app. cbn [length]. f_equal. lia.
      - destruct n; exact Hres_s. }
    destruct r; fold w1;
      (destruct (static_settle_all vars opts (repeat (Waiting i) n) w1);
       exact Hgoal).
Qed.

(** X14. When several calls of [Config.read] overlap, each of them
    assigns the memo as it settles. If they succeed, the memo ends up being
    the object handed to the caller that settled last; the objects of the
    callers before it are not the memo. If they fail, there is no memo. *)
Theorem overlapping_loads_leave_the_last_object_as_memo
        (n : nat) (vars opts : gmap string string) (w : World) :
  staticCache w = None ->
  truthy (env w !! "OP_CACHE_IV") = true ->
  truthy (env w !! "OP_SERVICE_ACCOUNT_TOKEN") = true ->
  let '(rs, w') := static_read_concurrently (S n) vars opts w in
  (rs = map (fun k => Ok (length (heap w) + k)) (seq 0 (S n)) /\
   staticCache w' = Some (length (heap w) + n)) \/
  (exists e, rs = repeat (Err e) (S n) /\ staticCache w' = None).
Proof.
  intros Hs Hiv Htok. unfold static_read_concurrently.
  pose proof (static_enter_all_memo (S n) vars opts w Hs Hiv Htok) as Hm.
  destruct (static_enter_all_spec (S n) vars opts w Hs Hiv Htok)
    as (w1 & Hen & Hf & _ & Hh & _).
  rewrite Hen in Hm |- *. cbn [snd] in Hm.
  pose proof (static_settle_all_memo (S n) vars opts (waiting_instance vars w) w1) as Hmemo.
  destruct (static_settle_all_spec (S n) vars opts (waiting_instance vars w) w1)
    as (rs & w' & Hst & _ & Hval).
  rewrite Hst in Hmemo |- *. cbn [snd] in Hmemo.
  rewrite (load_value_ext vars _ _ w w1 Hf eq_refl (op_outcome_fixed _ _ _ Hf)), Hh
    in Hval, Hmemo.
  destruct (load_value vars (waiting_instance vars w) w) as [v|e].
  - left. split; [apply Hval|exact Hmemo].
  - right. exists e. split; [apply Hval|]. rewrite Hmemo. exact Hm.
Qed.
End OverlappingLoads.

Section OverlappingLoads_examples.
#[local] Existing Instance Sample.platform.
Import Scenario.

Lemma overlapping_loads_witness :
  let '(rs, w') := static_read_concurrently 3 ∅ ∅ remote_world in
  (rs = map (fun k => Ok (length (heap remote_world) + k)) (seq 0 3) /\
   staticCache w' = Some (length (heap remote_world) + 2)) \/
  (exists e, rs = repeat (Err e) 3 /\ staticCache w' = None).
Proof.
  assert (H1 : staticCache remote_world = None) by reflexivity.
  assert (H2 : truthy (env remote_world !! "OP_CACHE_IV") = true)
    by (vm_compute; reflexivity).
  assert (H3 : truthy (env remote_world !! "OP_SERVICE_ACCOUNT_TOKEN") = true)
    by (vm_compute; reflexivity).
  pose proof (overlapping_loads_leave_the_last_object_as_memo 2 ∅ ∅ remote_world
                H1 H2 H3) as P.
  exact P.
Defined.
End OverlappingLoads_examples.

(** ** The older [config.js] *)

Section LegacySource.
Context {platform : Platform}.

(** X15. In [config.js] source selection looks at the override file
    first: when it exists, [readWrapped] returns its contents whether or not
    [OP_CONFIG_PATH] is set, without reading the cache file and without a
    lookup; only when there is no override file is an unset config path an
    error, and that error too comes before any lookup. *)
Theorem legacy_override_comes_before_the_config_path
        (opts : gmap string string) (s : State) :
  loadingPromise (this s) = None ->
  let w1 := with_draws (S (draws (world s)))
              (with_trace (cons EvSourceSelection) (world s)) in
  (forall doc,
      files (world s) !! standardConfigFilename opts = Some doc ->
      Legacy.readWrapped opts s
      = (Ok doc,
         {| world := with_trace (cons (EvLog (LogFound (standardConfigFilename opts)))) w1;
            this := this s |})) /\
  (files (world s) !! standardConfigFilename opts = None ->
   truthy (env (world s) !! "OP_CONFIG_PATH") = false ->
   Legacy.readWrapped opts s
   = (Err ConfigPathMissing,
      {| world := with_trace (cons (EvLog (LogNotFound (standardConfigFilename opts)))) w1;
         this := this s |})).
Proof.
  intros Hlp w1. destruct s as [w i]. cbn [world this] in *. split.
  - intros doc Hdoc. unfold Legacy.readWrapped. mstep. rewrite Hlp. mstep.
    rewrite Hdoc. reflexivity.
  - intros Hstd Hcfg. unfold Legacy.readWrapped. mstep. rewrite Hlp. mstep.
    rewrite Hstd. mstep. rewrite Hcfg. reflexivity.
Qed.

(** X16. In [config.js] a cache file that holds no colon makes the load
    fail: the salt is [undefined] and the key derivation, which stands
    outside every [try], raises a [TypeError]. (The current class reports
    such a file as "not found" and goes on.) *)
Theorem legacy_cache_file_without_colon_fails_the_load
        (opts : gmap string string) (s : State) (contents : string) :
  loadingPromise (this s) = None ->
  files (world s) !! standardConfigFilename opts = None ->
  truthy (env (world s) !! "OP_CONFIG_PATH") = true ->
  files (world s) !! cacheFileName opts = Some contents ->
  contents <> "" ->
  snd (split_colon contents) = None ->
  fst (Legacy.readWrapped opts s) = Err TypeError.
Proof.
  intros Hlp Hstd Hcfg Hfile Hne Hsp. destruct s as [w i]. cbn [world this] in *.
  assert (Hc : truthy (Some contents) = true).
  { destruct contents; [contradiction|reflexivity]. }
  destruct (split_colon contents) as [d salt] eqn:Hsplit. cbn [snd] in Hsp. subst salt.
  unfold Legacy.readWrapped, scryptSync. mstep. rewrite Hlp. mstep.
  rewrite Hstd. mstep. rewrite Hcfg. mstep. rewrite Hfile. mstep.
  rewrite Hc, Hsplit. mstep.
  destruct (env w !! "OP_SERVICE_ACCOUNT_TOKEN"); reflexivity.
Qed.
End LegacySource.

Section LegacyCache.
Context `{PlatformLaws}.

(** X17. The cache of [config.js] round-trips: a load that finds neither
    an override file nor a cache file fetches the document and, with
    caching on, writes it encrypted under a salt it has drawn; a later
    [readWrapped] on any new instance reads that file, derives the same key
    from the salt after the colon, and returns the same document without a
    client and without a lookup, writing nothing. *)
Theorem legacy_cache_round_trip
        (opts : gmap string string) (s : State)
        (cfg token doc name version ttl : string) :
  loadingPromise (this s) = None ->
  files (world s) !! standardConfigFilename opts = None ->
  files (world s) !! cacheFileName opts = None ->
  cacheFileName opts <> standardConfigFilename opts ->
  env (world s) !! "OP_CONFIG_PATH" = Some cfg -> truthy (Some cfg) = true ->
  env (world s) !! "OP_SERVICE_ACCOUNT_TOKEN" = Some token ->
  env (world s) !! "OP_CONFIG_CACHE" = Some ttl -> truthy (Some ttl) = true ->
  valid_iv (env (world s)) ->
  package_json (world s) = Some (name, version) -> auth_ok (world s) = true ->
  remote (world s) !! cfg = Some doc ->
  exists s1,
    Legacy.readWrapped opts s = (Ok doc, s1) /\
    forall i, loadingPromise i = None ->
              exists s2,
                Legacy.readWrapped opts {| world := world s1; this := i |} = (Ok doc, s2) /\
                count_events is_network (world s2) = count_events is_network (world s1) /\
                files (world s2) = files (world s1).
Proof.
  intros Hlp Hstd Hcache Hne Hcfg Hcfgt Htok Httl Httlt Hiv Hpkg Hauth Hrem.
  destruct s as [w i0]. cbn [world this] in *.
  set (fresh := to_hex (entropy w (draws w))).
  set (key := scrypt token fresh).
  assert (Hk : length key = key_size) by apply scrypt_length.
  destruct (encrypt_ok (env w) doc key Hiv Hk) as (ivhex & Hivhex & Henc).
  destruct (decrypt_encrypt (env w) doc key Hiv Hk) as (c & Henc' & Hdec).
  rewrite Henc in Henc'. injection Henc' as Hc.
  assert (Hcne : c <> "") by (intros ->; exact (decrypt_empty _ _ _ Hdec)).
  assert (Hsplit : split_colon (c +:+ ":" +:+ fresh) = (c, Some fresh)).
  { subst c. apply split_colon_hex. }
  assert (Ht1 : truthy (Some (c +:+ ":" +:+ fresh)) = true).
  { destruct c; [contradiction|reflexivity]. }
  assert (Ht2 : truthy (Some c) = true).
  { destruct c; [contradiction|reflexivity]. }
  rewrite Hc in Henc.
  eexists. split.
  { unfold Legacy.readWrapped, scryptSync. mstep. rewrite Hlp. mstep.
    rewrite Hstd. mstep. rewrite Hcfg, Hcfgt. mstep. rewrite Hcache. mstep.
    rewrite Htok. mstep. rewrite Httl. mstep.
    change (truthy None) with false. mstep. rewrite Hpkg. mstep.
    rewrite Hauth. mstep. cbn [from_option id property_key]. rewrite Hrem. mstep.
    rewrite Httlt. mstep. fold fresh key. rewrite Henc. mstep. reflexivity. }
  intros i Hi. rsimpl. eexists. split.
  { unfold Legacy.readWrapped, scryptSync. mstep. rewrite Hi. mstep.
    rewrite lookup_insert_ne by exact Hne. rewrite Hstd. mstep.
    rewrite Hcfg, Hcfgt. mstep. rewrite lookup_insert_eq. mstep.
    cbn [from_option id]. fold fresh. rewrite Ht1, Hsplit. mstep. rewrite Htok. mstep.
    rewrite Httl. mstep. rewrite Ht2. mstep. cbn [from_option id]. fold key.
    rewrite Hdec. mstep. reflexivity. }
  rsimpl. split; reflexivity.
Qed.
End LegacyCache.

Section Legacy_examples.
#[local] Existing Instance Sample.platform.
Import Scenario.

Lemma legacy_override_witness :
  let s := {| world := local_only_world; this := new_Config |} in
  env local_only_world !! "OP_CONFIG_PATH" = None /\
  Legacy.readWrapped ∅ s
  = (Ok plain_document,
     {| world := with_trace (cons (EvLog (LogFound (standardConfigFilename ∅))))
                   (with_draws (S (draws (world s)))
                      (with_trace (cons EvSourceSelection) (world s)));
        this := this s |}).
Proof.
  intros s.
  assert (H1 : loadingPromise (this s) = None) by reflexivity.
  assert (H2 : files (world s) !! standardConfigFilename ∅ = Some plain_document)
    by (vm_compute; reflexivity).
  split; [vm_compute; reflexivity|].
  pose proof (legacy_override_comes_before_the_config_path ∅ s H1) as [P _].
  exact (P plain_document H2).
Defined.

Lemma legacy_cache_file_without_colon_witness :
  let s := {| world := with_files (insert "/app/config.cache" "f0acf67bb83a68ac")
                         (caching remote_world);
              this := new_Config |} in
  fst (Legacy.readWrapped ∅ s) = Err TypeError.
Proof.
  intros s.
  assert (H1 : loadingPromise (this s) = None) by reflexivity.
  assert (H2 : files (world s) !! standardConfigFilename ∅ = None)
    by (vm_compute; reflexivity).
  assert (H3 : truthy (env (world s) !! "OP_CONFIG_PATH") = true)
    by (vm_compute; reflexivity).
  assert (H4 : files (world s) !! cacheFileName ∅ = Some "f0acf67bb83a68ac")
    by (vm_compute; reflexivity).
  assert (H5 : "f0acf67bb83a68ac" <> "") by discriminate.
  assert (H6 : snd (split_colon "f0acf67bb83a68ac") = None) by reflexivity.
  pose proof (legacy_cache_file_without_colon_fails_the_load ∅ s "f0acf67bb83a68ac"
                H1 H2 H3 H4 H5 H6) as P.
  exact P.
Defined.

Lemma legacy_cache_round_trip_witness :
  let s := {| world := caching remote_world; this := new_Config |} in
  exists s1,
    Legacy.readWrapped ∅ s = (Ok plain_document, s1) /\
    forall i, loadingPromise i = None ->
              exists s2,
                Legacy.readWrapped ∅ {| world := world s1; this := i |}
                = (Ok plain_document, s2) /\
                count_events is_network (world s2) = count_events is_network (world s1) /\
                files (world s2) = files (world s1).
Proof.
  intros s.
  assert (H1 : loadingPromise (this s) = None) by reflexivity.
  assert (H2 : files (world s) !! standardConfigFilename ∅ = None)
    by (vm_compute; reflexivity).
  assert (H3 : files (world s) !! cacheFileName ∅ = None) by (vm_compute; reflexivity).
  assert (H4 : cacheFileName ∅ <> standardConfigFilename ∅)
    by (vm_compute; discriminate).
  assert (H5 : env (world s) !! "OP_CONFIG_PATH" = Some notes)
    by (vm_compute; reflexivity).
  assert (H6 : truthy (Some notes) = true) by reflexivity.
  assert (H7 : env (world s) !! "OP_SERVICE_ACCOUNT_TOKEN" = Some token)
    by (vm_compute; reflexivity).
  assert (H8 : env (world s) !! "OP_CONFIG_CACHE" = Some "300")
    by (vm_compute; reflexivity).
  assert (H9 : truthy (Some "300") = true) by reflexivity.
  assert (H10 : valid_iv (env (world s))).
  { exists iv. split; vm_compute; reflexivity. }
  assert (H11 : package_json (world s) = Some ("app", "1.0.0")) by reflexivity.
  assert (H12 : auth_ok (world s) = true) by reflexivity.
  assert (H13 : remote (world s) !! notes = Some plain_document)
    by (vm_compute; reflexivity).
  pose proof (legacy_cache_round_trip ∅ s notes token plain_document "app" "1.0.0" "300"
                H1 H2 H3 H4 H5 H6 H7 H8 H9 H10 H11 H12 H13) as P.
  exact P.
Defined.
End Legacy_examples.

(** ** A load that finds a readable cache *)

Section CacheHit.
Context {platform : Platform}.

(** X18. When the cache file decrypts and parses to a path cache that
    holds a non-empty document under the configured path, and there is no
    override file, the load takes the document from it and never reaches the
    store: source selection returns that document, and the whole call of
    [Config.read], lookups in the template included, makes no client and no
    request. *)
Theorem readable_cache_spares_the_store
        (vars opts : gmap string string) (w : World)
        (contents d salt token text cfg doc : string) (pc : gmap string string) :
  staticCache w = None ->
  truthy (env w !! "OP_CACHE_IV") = true ->
  env w !! "OP_SERVICE_ACCOUNT_TOKEN" = Some token -> truthy (Some token) = true ->
  env w !! "OP_CONFIG_PATH" = Some cfg -> truthy (Some cfg) = true ->
  files w !! standardConfigFilename vars = None ->
  files w !! cacheFileName vars = Some contents ->
  split_colon contents = (d, Some salt) -> truthy (Some d) = true ->
  decrypt (env w) d (scrypt token salt) = Ok text ->
  json_parse text = Some pc ->
  pc !! cfg = Some doc -> truthy (Some doc) = true ->
  (exists s1,
      readWrapped vars {| world := w; this := new_Config |} = (Ok (VStr doc), s1) /\
      pathCache (this s1) = pc /\
      count_events is_network (world s1) = count_events is_network w) /\
  count_events is_network (snd (static_read vars opts w)) = count_events is_network w.
Proof.
  intros Hs Hiv Htok Htokt Hcfg Hcfgt Hstd Hfile Hsp Hd Hdec Hjson Hpc Hdoc.
  set (s0 := {| world := w; this := new_Config |}).
  assert (Htok' : truthy (env w !! "OP_SERVICE_ACCOUNT_TOKEN") = true)
    by (rewrite Htok; exact Htokt).
  assert (Hcfg' : truthy (env w !! "OP_CONFIG_PATH") = true)
    by (rewrite Hcfg; exact Hcfgt).
  assert (Hcp : config_path w = cfg) by (unfold config_path; rewrite Hcfg; reflexivity).
  assert (Hread : read_cache_file w (cacheFileName vars) = CacheLoaded pc).
  { unfold read_cache_file. apply json_parse_strings in Hjson.
    rewrite Hfile, (split_colon_nonempty _ _ _ Hsp), Hsp, Htok, Hd, Hdec, Hjson.
    reflexivity. }
  assert (Hhit : truthy_val (pathCache_get pc cfg) = true).
  { unfold pathCache_get. rewrite Hpc. exact Hdoc. }
  assert (Hsrc : source_outcome vars new_Config w = Ok (VStr doc)).
  { unfold source_outcome. rewrite Hcfg', Hread, Hstd, Hcp. cbn [negb cache_instance].
    unfold resolve_outcome. rsimpl.
    rewrite Hhit.
    unfold pathCache_get. rewrite Hpc. reflexivity. }
  set (s1 := logged (LogNotFound (standardConfigFilename vars))
               (logged LogCacheUsed
                  {| world := world (entered s0);
                     this := with_pathCache pc new_Config |})).
  assert (Hst : source_state vars s0 = s1).
  { unfold source_state, s1, s0. rsimpl. rewrite Hcfg', Hread, Hstd, Hcp.
    cbn [negb after_cache_read].
    unfold resolve_state, resolve_events, resolve_instance, logged, entered. rsimpl.
    rewrite Hhit. reflexivity. }
  assert (Hq : extends not_network (trace w) (trace (world s1))).
  { unfold s1, logged, entered, s0. rsimpl. repeat (constructor; [reflexivity|]).
    constructor. }
  split.
  - exists s1. split; [|split].
    + rewrite readWrapped_spec by reflexivity. fold s0. rewrite Hst.
      change (this s0) with new_Config. change (world s0) with w. rewrite Hsrc.
      reflexivity.
    + reflexivity.
    + apply count_network_extends. exact Hq.
  - destruct (static_read_spec vars opts w Hs Hiv Htok') as (r0 & s' & Hr & Hres & ->).
    fold s0 in Hr, Hres.
    set (es := enter_state vars s0) in *.
    assert (Hes : es = {| world := world s1;
                          this := with_loadingPromise (Some (Ok (VStr doc))) (this s1) |}).
    { unfold es, enter_state. cbn [this s0 loadingPromise new_Config].
      fold new_Config. fold s0. rewrite Hst. cbn [world s0]. rewrite Hsrc. reflexivity. }
    assert (Hrend : rendered_state vars es = logged LogReadTook es).
    { unfold rendered_state. rewrite Hes. cbn [loadingPromise this with_loadingPromise].
      unfold template_state. destruct (compile doc) as [ns|]; [|reflexivity].
      apply render_state_hit.
      change (truthy_val (pathCache_get pc (config_path w)) = true).
      rewrite Hcp. exact Hhit. }
    assert (Hw : extends not_network (trace w) (trace (world s'))).
    { eapply extends_trans; [exact Hq|].
      eapply extends_trans;
        [|eapply extends_weaken;
          [apply housekeeping_not_network|apply (rs_after _ _ _ _ Hres)]].
      rewrite Hrend, Hes. unfold logged. rsimpl.
      constructor; [reflexivity|constructor]. }
    rewrite <- (count_network_extends _ _ Hw).
    destruct r0; reflexivity.
Qed.
End CacheHit.

Section CacheHit_examples.
#[local] Existing Instance Sample.platform.
Import Scenario.

Lemma readable_cache_spares_the_store_witness :
  let w := restart (snd (static_read ∅ ∅ (caching remote_world))) in
  (exists s1,
      readWrapped ∅ {| world := w; this := new_Config |}
      = (Ok (VStr plain_document), s1) /\
      pathCache (this s1) = {[notes := plain_document]} /\
      count_events is_network (world s1) = count_events is_network w) /\
  count_events is_network (snd (static_read ∅ ∅ w)) = count_events is_network w.
Proof.
  intros w.
  set (d := "f0f397058c1b49cf7bac943b421553dcc6cbfd02b8207bb555ddf9576d7b3ca8f8f99856da254083529f973f020848889e98831ae1003f934adedf70515c68f5b885e656dc556bcc1bcbd47b5a5763fe").
  set (salt := "41414141414141414141414141414141").
  assert (H1 : staticCache w = None) by reflexivity.
  assert (H2 : truthy (env w !! "OP_CACHE_IV") = true) by (vm_compute; reflexivity).
  assert (H3 : env w !! "OP_SERVICE_ACCOUNT_TOKEN" = Some token)
    by (vm_compute; reflexivity).
  assert (H4 : truthy (Some token) = true) by reflexivity.
  assert (H5 : env w !! "OP_CONFIG_PATH" = Some notes) by (vm_compute; reflexivity).
  assert (H6 : truthy (Some notes) = true) by reflexivity.
  assert (H7 : files w !! standardConfigFilename ∅ = None) by (vm_compute; reflexivity).
  assert (H8 : files w !! cacheFileName ∅ = Some (d +:+ ":" +:+ salt))
    by (vm_compute; reflexivity).
  assert (H9 : split_colon (d +:+ ":" +:+ salt) = (d, Some salt))
    by (vm_compute; reflexivity).
  assert (H10 : truthy (Some d) = true) by reflexivity.
  assert (H11 : decrypt (env w) d (scrypt token salt)
                = Ok (json_stringify {[notes := plain_document]}))
    by (vm_compute; reflexivity).
  assert (H12 : json_parse (json_stringify {[notes := plain_document]})
                = Some {[notes := plain_document]}) by (vm_compute; reflexivity).
  assert (H13 : ({[notes := plain_document]} : gmap string string) !! notes
                = Some plain_document) by (vm_compute; reflexivity).
  assert (H14 : truthy (Some plain_document) = true) by reflexivity.
  pose proof (readable_cache_spares_the_store ∅ ∅ w _ d salt token _ notes plain_document
                _ H1 H2 H3 H4 H5 H6 H7 H8 H9 H10 H11 H12 H13 H14) as P.
  exact P.
Defined.
End CacheHit_examples.

(** ** An instance that is read again *)

Section InstanceReuse.
Context {platform : Platform}.

Lemma read_spec (vars opts : gmap string string) (s : State) :
  truthy (env (world s) !! "OP_CACHE_IV") = true ->
  truthy (env (world s) !! "OP_SERVICE_ACCOUNT_TOKEN") = true ->
  exists r s',
    read vars opts s = (r, s') /\ resumed vars (enter_state vars s) r s'.
Proof.
  intros Hiv Htok.
  destruct (read_resume_spec vars opts (enter_state vars s)) as (r & s' & Hr & Hres).
  exists r, s'. split; [|exact Hres]. unfold read.
  change ((read_enter vars opts;; read_resume vars opts) s)
    with (match read_enter vars opts s with
          | (Ok a, s1) => read_resume vars opts s1
          | (Err e, s1) => (Err e, s1)
          end).
  rewrite read_enter_spec by assumption. exact Hr.
Qed.

Lemma enter_state_has_a_promise (vars : gmap string string) (s : State) :
  loadingPromise (this (enter_state vars s)) <> None.
Proof.
  unfold enter_state. destruct (loadingPromise (this s)) eqn:Hlp.
  - rewrite Hlp. discriminate.
  - discriminate.
Qed.

(** X19. An instance selects its source once in its life: after a call
    of its [read] has passed the two checks, whether it then succeeded or
    failed, no later call of [read] on that instance selects the source
    again (it reads no cache file, no override file and no document);
    it works from the outcome the first call's [readWrapped] had. *)
Theorem instance_selects_its_source_once
        (vars opts vars' opts' : gmap string string) (s : State) :
  truthy (env (world s) !! "OP_CACHE_IV") = true ->
  truthy (env (world s) !! "OP_SERVICE_ACCOUNT_TOKEN") = true ->
  let s1 := snd (read vars opts s) in
  loadingPromise (this s1) = loadingPromise (this (enter_state vars s)) /\
  loadingPromise (this (snd (read vars' opts' s1))) = loadingPromise (this s1) /\
  count_events is_source_selection (world (snd (read vars' opts' s1)))
  = count_events is_source_selection (world s1).
Proof.
  intros Hiv Htok s1.
  destruct (read_spec vars opts s Hiv Htok) as (r & s' & Hr & Hres).
  assert (Hs1 : s1 = s') by (unfold s1; rewrite Hr; reflexivity).
  rewrite Hs1. clear s1 Hs1.
  pose proof (resumed_promise _ _ _ _ Hres) as Hp.
  destruct (enter_state_world vars s) as (Hf & _).
  pose proof (rs_fixed _ _ _ _ Hres) as Hf'.
  assert (Henv : env (world s') = env (world s)).
  { rewrite (fixed_env _ _ Hf'). apply (fixed_env _ _ Hf). }
  destruct (read_spec vars' opts' s') as (r2 & s2 & Hr2 & Hres2);
    [rewrite Henv; assumption..|].
  assert (Hsame : enter_state vars' s' = s').
  { unfold enter_state. destruct (loadingPromise (this s')) eqn:Hlp; [reflexivity|].
    exfalso. apply (enter_state_has_a_promise vars s). congruence. }
  rewrite Hsame in Hres2. rewrite Hr2. cbn [snd].
  split; [exact Hp|]. split; [apply (resumed_promise _ _ _ _ Hres2)|].
  unfold count_events.
  apply (extends_count is_source_selection).
  eapply extends_weaken; [|apply (resumed_not_selection _ _ _ _ Hres2)].
  intros [] Hn; try reflexivity. exfalso. apply Hn. reflexivity.
Qed.
End InstanceReuse.

Section InstanceReuse_examples.
#[local] Existing Instance Sample.platform.
Import Scenario.

Lemma instance_selects_its_source_once_witness :
  let s := {| world := remote_world; this := new_Config |} in
  let s1 := snd (read ∅ ∅ s) in
  loadingPromise (this s1) = loadingPromise (this (enter_state ∅ s)) /\
  loadingPromise (this (snd (read ∅ ∅ s1))) = loadingPromise (this s1) /\
  count_events is_source_selection (world (snd (read ∅ ∅ s1)))
  = count_events is_source_selection (world s1).
Proof.
  intros s.
  assert (H1 : truthy (env (world s) !! "OP_CACHE_IV") = true)
    by (vm_compute; reflexivity).
  assert (H2 : truthy (env (world s) !! "OP_SERVICE_ACCOUNT_TOKEN") = true)
    by (vm_compute; reflexivity).
  pose proof (instance_selects_its_source_once ∅ ∅ ∅ ∅ s H1 H2) as P.
  exact P.
Defined.
End InstanceReuse_examples.
